(** * GPT-2 decoder stack of adept.networks.net2d.gpt2

    A shallow embedding of [adept/networks/net2d/gpt2.py].

    Tensors are modelled the way the tensor library presents them to the
    program: a shape (a list of dimensions) together with the elements,
    addressed by a multi-index.  Elements are real numbers: rounding,
    overflow and the special values of machine floating point are outside
    the model.  Every library call that can raise in Python returns a
    [result] whose left side names the exception class. *)

From Stdlib Require Import Reals Lra Lia List Arith ZArith Bool.
From stdpp Require Import base option list gmap.

Local Open Scope nat_scope.

(** ** Exceptions and the error monad *)

Inductive exn : Type :=
| AssertionError
| ZeroDivisionError
| IndexError
| KeyError
| ValueError
| AttributeError
| RuntimeError.

Definition result (A : Type) : Type := (exn + A)%type.

Definition ok {A} (a : A) : result A := inr a.
Definition raise {A} (e : exn) : result A := inl e.

Definition rbind {A B} (m : result A) (k : A -> result B) : result B :=
  match m with
  | inl e => inl e
  | inr a => k a
  end.

Notation "'let*' x ':=' m 'in' k" := (rbind m (fun x => k))
  (at level 10, x pattern, m at level 200, k at level 200).

Definition is_ok {A} (m : result A) : bool :=
  match m with inr _ => true | inl _ => false end.

(** ** The tensor library *)

Module Torch.

Record tensor : Type := Tensor { shape : list nat; elem : list nat -> R }.

Definition rank (x : tensor) : nat := length (shape x).

(** [numel s]: number of elements of a tensor of shape [s]. *)
Definition numel (s : list nat) : nat := fold_right Nat.mul 1 s.

(** An index is valid for a shape when it has one in-range entry per
    dimension. *)
Definition valid_idx (s idx : list nat) : Prop := Forall2 lt idx s.

(** Two tensors are the same tensor when shapes agree and so do the
    elements at every valid index. *)
Definition teq (x y : tensor) : Prop :=
  shape x = shape y /\ forall idx, valid_idx (shape x) idx -> elem x idx = elem y idx.

(** [sum_n n f] is f 0 + ... + f (n-1). *)
Fixpoint sum_n (n : nat) (f : nat -> R) : R :=
  match n with
  | O => 0%R
  | S k => (sum_n k f + f k)%R
  end.

(** Python's resolution of a possibly negative dimension or index [d]
    against a length [r]. *)
Definition pydim (r : nat) (d : Z) : result nat :=
  if (0 <=? d)%Z && (d <? Z.of_nat r)%Z then ok (Z.to_nat d)
  else if (d <? 0)%Z && (- Z.of_nat r <=? d)%Z then ok (Z.to_nat (Z.of_nat r + d))
  else raise IndexError.

(** [x.size(d)] *)
Definition size (x : tensor) (d : Z) : result nat :=
  let* k := pydim (rank x) d in ok (nth k (shape x) 0).

(** Row-major offset of a multi-index in a contiguous tensor of shape [s],
    and its inverse. *)
Fixpoint ravel (s idx : list nat) : nat :=
  match s, idx with
  | _ :: s', i :: idx' => i * numel s' + ravel s' idx'
  | _, _ => 0
  end.

Fixpoint unravel (s : list nat) (n : nat) : list nat :=
  match s with
  | [] => []
  | _ :: s' => (n / numel s') :: unravel s' (n mod numel s')
  end.

(** [torch.ones], [torch.zeros], and [torch.tril] on a matrix. *)
Definition ones (s : list nat) : tensor := Tensor s (fun _ => 1%R).
Definition zeros (s : list nat) : tensor := Tensor s (fun _ => 0%R).

Definition tril (x : tensor) : tensor :=
  Tensor (shape x)
    (fun idx => match idx with
                | [i; j] => if j <=? i then elem x idx else 0%R
                | _ => elem x idx
                end).

(** [x.view] with every dimension given: the element count must be
    kept; the elements keep their row-major order. *)
Definition view (x : tensor) (s : list nat) : result tensor :=
  if numel s =? numel (shape x)
  then ok (Tensor s (fun idx => elem x (unravel (shape x) (ravel s idx))))
  else raise RuntimeError.

(** [x.view(-1, c)]: the first dimension is inferred; it is ambiguous and
    refused when [c] is 0, and the count must divide. *)
Definition view_infer (x : tensor) (c : nat) : result tensor :=
  if c =? 0 then raise RuntimeError
  else if numel (shape x) mod c =? 0 then view x [numel (shape x) / c; c]
  else raise RuntimeError.

(** [x.permute] with the axes in the order [perm] *)
Fixpoint index_of (j : nat) (perm : list nat) : nat :=
  match perm with
  | [] => 0
  | k :: perm' => if k =? j then 0 else S (index_of j perm')
  end.

Definition is_perm (r : nat) (perm : list nat) : bool :=
  (length perm =? r) && forallb (fun j => existsb (Nat.eqb j) perm) (seq 0 r).

Definition permute (x : tensor) (perm : list nat) : result tensor :=
  if is_perm (rank x) perm
  then ok (Tensor (map (fun j => nth j (shape x) 0) perm)
             (fun idx => elem x (map (fun j => nth (index_of j perm) idx 0)
                                     (seq 0 (rank x)))))
  else raise RuntimeError.

(** [x.transpose(-2, -1)] *)
Fixpoint swap_last2 (l : list nat) : list nat :=
  match l with
  | [a; b] => [b; a]
  | a :: l' => a :: swap_last2 l'
  | [] => []
  end.

Definition transpose_last2 (x : tensor) : result tensor :=
  if 2 <=? rank x
  then ok (Tensor (swap_last2 (shape x)) (fun idx => elem x (swap_last2 idx)))
  else raise IndexError.

(** [x.narrow(d, start, len)]: the sub-tensor of [len] entries from
    [start] along dimension [d] (no bounds check of its own; the callers
    below pass in-range arguments). *)
Definition narrow (x : tensor) (d start len : nat) : tensor :=
  Tensor (<[d := len]> (shape x))
    (fun idx => elem x (<[d := start + nth d idx 0]> idx)).

(** A Python slice [start:stop] on a dimension of length [n] never raises:
    negative bounds count from the end and both bounds are clamped. *)
Definition pyslice (n : nat) (start stop : Z) : nat * nat :=
  let norm v := if (v <? 0)%Z then Z.max 0 (v + Z.of_nat n) else Z.min v (Z.of_nat n) in
  let lo := norm start in
  let hi := norm stop in
  (Z.to_nat lo, Z.to_nat (Z.max 0 (hi - lo))).

Definition slice (x : tensor) (d : nat) (start stop : Z) : tensor :=
  let '(lo, len) := pyslice (nth d (shape x) 0) start stop in
  narrow x d lo len.

(** [x.split(sz, dim=d)]: chunks of [sz] along [d], the last one shorter
    when [sz] does not divide. *)
Definition split (x : tensor) (sz : nat) (d : Z) : result (list tensor) :=
  let* k := pydim (rank x) d in
  let n := nth k (shape x) 0 in
  if sz =? 0 then (if n =? 0 then ok [x] else raise RuntimeError)
  else ok (map (fun c => narrow x k (c * sz) (Nat.min sz (n - c * sz)))
               (seq 0 ((n + sz - 1) / sz))).

(** [torch.cat((a, b), dim=d)] *)
Definition cat (a b : tensor) (d : Z) : result tensor :=
  let* k := pydim (rank a) d in
  if bool_decide (<[k := 0]> (shape a) = <[k := 0]> (shape b))
  then
    let na := nth k (shape a) 0 in
    ok (Tensor (<[k := na + nth k (shape b) 0]> (shape a))
          (fun idx => if nth k idx 0 <? na then elem a idx
                      else elem b (<[k := nth k idx 0 - na]> idx)))
  else raise RuntimeError.

(** [torch.stack((a, b))] *)
Definition stack (a b : tensor) : result tensor :=
  if bool_decide (shape a = shape b)
  then ok (Tensor (2 :: shape a)
             (fun idx => match idx with
                         | 0 :: idx' => elem a idx'
                         | _ :: idx' => elem b idx'
                         | [] => 0%R
                         end))
  else raise RuntimeError.

(** [x[i]] with an integer [i] *)
Definition getitem (x : tensor) (i : nat) : result tensor :=
  match shape x with
  | n :: s' => if i <? n then ok (Tensor s' (fun idx => elem x (i :: idx)))
               else raise IndexError
  | [] => raise IndexError
  end.

(** *** Broadcasting *)

Definition bdim (a b : nat) : result nat :=
  if a =? b then ok a
  else if a =? 1 then ok b
  else if b =? 1 then ok a
  else raise RuntimeError.

(** Shapes are aligned at their last dimension; [bshape_rev] works on the
    reversed shapes. *)
Fixpoint bshape_rev (s1 s2 : list nat) : result (list nat) :=
  match s1, s2 with
  | [], _ => ok s2
  | _, [] => ok s1
  | a :: r1, b :: r2 =>
      let* d := bdim a b in
      let* r := bshape_rev r1 r2 in
      ok (d :: r)
  end.

Definition bshape (s1 s2 : list nat) : result (list nat) :=
  let* r := bshape_rev (rev s1) (rev s2) in ok (rev r).

(** The index into an operand of shape [s] for the result index [idx]:
    leading result dimensions are dropped and size-1 dimensions read
    entry 0. *)
Definition bidx (s idx : list nat) : list nat :=
  zip_with (fun d i => if d =? 1 then 0 else i) s
           (skipn (length idx - length s) idx).

Definition tbin (f : R -> R -> R) (a b : tensor) : result tensor :=
  let* s := bshape (shape a) (shape b) in
  ok (Tensor s (fun idx => f (elem a (bidx (shape a) idx))
                             (elem b (bidx (shape b) idx)))).

Definition tadd := tbin Rplus.
Definition tsub := tbin Rminus.
Definition tmul := tbin Rmult.
Definition tdiv := tbin Rdiv.

(** Elementwise map ([c * x], [x / c], [1 - x], [x.pow(n)], [torch.sqrt],
    [torch.tanh] are instances). *)
Definition tmap (f : R -> R) (x : tensor) : tensor :=
  Tensor (shape x) (fun idx => f (elem x idx)).

(** *** Reductions over the last axis *)

Definition set_last (idx : list nat) (k : nat) : list nat :=
  removelast idx ++ [k].

(** [x.mean(-1, keepdim=True)]; a 0-dimensional tensor is its own
    mean. *)
Definition mean_last (x : tensor) : result tensor :=
  match shape x with
  | [] => ok (Tensor [] (fun _ => elem x []))
  | _ =>
      let n := List.last (shape x) 0 in
      ok (Tensor (set_last (shape x) 1)
            (fun idx => (sum_n n (fun k => elem x (set_last idx k)) / INR n)%R))
  end.

(** [nn.Softmax(dim=-1)(x)] *)
Definition softmax_last (x : tensor) : result tensor :=
  match shape x with
  | [] => raise IndexError
  | _ =>
      let n := List.last (shape x) 0 in
      ok (Tensor (shape x)
            (fun idx => (exp (elem x idx)
                         / sum_n n (fun k => exp (elem x (set_last idx k))))%R))
  end.

(** *** Matrix products *)

(** [torch.matmul(a, b)].  For operands of rank at least 2 the last two
    axes are multiplied and the leading ones broadcast.  A 1-dimensional
    operand is a row on the left or a column on the right, and its axis
    is dropped from the result; two of them give the 0-dimensional dot
    product.  A 0-dimensional operand is refused. *)
Definition matmul (a b : tensor) : result tensor :=
  let ra := rank a in
  let rb := rank b in
  if (2 <=? ra) && (2 <=? rb) then
    let ba := firstn (ra - 2) (shape a) in
    let bb := firstn (rb - 2) (shape b) in
    let n := nth (ra - 2) (shape a) 0 in
    let m := nth (ra - 1) (shape a) 0 in
    let m' := nth (rb - 2) (shape b) 0 in
    let p := nth (rb - 1) (shape b) 0 in
    if m =? m' then
      let* bs := bshape ba bb in
      ok (Tensor (bs ++ [n; p])
            (fun idx =>
               let r := length idx in
               let bi := firstn (r - 2) idx in
               let i := nth (r - 2) idx 0 in
               let j := nth (r - 1) idx 0 in
               sum_n m (fun k => (elem a (bidx ba bi ++ [i; k])
                                  * elem b (bidx bb bi ++ [k; j]))%R)))
    else raise RuntimeError
  else if (ra =? 0) || (rb =? 0) then raise RuntimeError
  else if (ra =? 1) && (rb =? 1) then
    let m := nth 0 (shape a) 0 in
    if m =? nth 0 (shape b) 0 then
      ok (Tensor [] (fun _ => sum_n m (fun k => (elem a [k] * elem b [k])%R)))
    else raise RuntimeError
  else if ra =? 1 then
    let m := nth 0 (shape a) 0 in
    let bb := firstn (rb - 2) (shape b) in
    let p := nth (rb - 1) (shape b) 0 in
    if m =? nth (rb - 2) (shape b) 0 then
      ok (Tensor (bb ++ [p])
            (fun idx =>
               let r := length idx in
               let bi := firstn (r - 1) idx in
               let j := nth (r - 1) idx 0 in
               sum_n m (fun k => (elem a [k] * elem b (bi ++ [k; j]))%R)))
    else raise RuntimeError
  else
    let ba := firstn (ra - 2) (shape a) in
    let n := nth (ra - 2) (shape a) 0 in
    let m := nth (ra - 1) (shape a) 0 in
    if m =? nth 0 (shape b) 0 then
      ok (Tensor (ba ++ [n])
            (fun idx =>
               let r := length idx in
               let bi := firstn (r - 1) idx in
               let i := nth (r - 1) idx 0 in
               sum_n m (fun k => (elem a (bi ++ [i; k]) * elem b [k])%R)))
    else raise RuntimeError.

(** [torch.addmm(bias, x, w)]: [bias + x @ w] for matrices [x], [w], the
    bias expanded to the shape of the product. *)
Definition addmm (bias x w : tensor) : result tensor :=
  if (rank x =? 2) && (rank w =? 2) then
    let* xw := matmul x w in
    let* s := bshape (shape bias) (shape xw) in
    if bool_decide (s = shape xw) then tadd bias xw else raise RuntimeError
  else raise RuntimeError.

End Torch.

Import Torch.

(** ** The store

    Parameters and buffers are objects on the Python heap; a module holds
    references to them.  Construction runs in a state monad over the heap
    and the random generator; it can raise. *)

Definition loc : Type := nat.

Record world : Type := World {
  heap : list tensor;
  rng : nat -> list nat -> R;   (* the n-th normal draw, per element *)
  draws : nat                   (* draws made so far *)
}.

Definition M (A : Type) : Type := world -> result (A * world).

Definition mret {A} (a : A) : M A := fun w => ok (a, w).

Definition mbind {A B} (m : M A) (k : A -> M B) : M B :=
  fun w => match m w with
           | inl e => inl e
           | inr (a, w') => k a w'
           end.

Notation "'let+' x ':=' m 'in' k" := (mbind m (fun x => k))
  (at level 10, x pattern, m at level 200, k at level 200).

Definition lift {A} (r : result A) : M A :=
  fun w => match r with inl e => inl e | inr a => ok (a, w) end.

Definition alloc (t : tensor) : M loc :=
  fun w => ok (length (heap w), World (heap w ++ [t]) (rng w) (draws w)).

Definition deref (σ : list tensor) (l : loc) : tensor := nth l σ (zeros []).

Definition read (l : loc) : M tensor := fun w => ok (deref (heap w) l, w).

Definition write (l : loc) (t : tensor) : M unit :=
  fun w => ok (tt, World (<[l := t]> (heap w)) (rng w) (draws w)).

(** A fresh tensor of normal draws ([nn.init.normal_] on [torch.empty]). *)
Definition normal (s : list nat) : M tensor :=
  fun w => ok (Tensor s (rng w (draws w)), World (heap w) (rng w) (S (draws w))).

(** The in-place initialisers [t.normal_()], [t.zero_()], [t.fill_(c)]. *)
Definition normal_ (l : loc) : M unit :=
  let+ old := read l in
  let+ t := normal (shape old) in
  write l t.

Definition fill_ (l : loc) (c : R) : M unit :=
  let+ old := read l in
  write l (Tensor (shape old) (fun _ => c)).

Definition zero_ (l : loc) : M unit := fill_ l 0%R.

(** [copy.deepcopy] of one parameter or buffer: a new object with the same
    contents. *)
Definition copy_param (l : loc) : M loc :=
  let+ t := read l in alloc t.

Fixpoint mapM {A B} (f : A -> M B) (l : list A) : M (list B) :=
  match l with
  | [] => mret []
  | a :: l' => let+ b := f a in let+ bs := mapM f l' in mret (b :: bs)
  end.

Fixpoint iterM {A} (f : A -> M unit) (l : list A) : M unit :=
  match l with
  | [] => mret tt
  | a :: l' => let+ _ := f a in iterM f l'
  end.

(** What [nn.Module.apply] hands to its callback: the class of the module
    and its [weight] and [bias] attributes, where it has them. *)
Inductive pyclass : Type :=
| ClsLinear | ClsEmbedding | ClsLayerNorm | ClsConv1D | ClsMLP
| ClsAttention | ClsBlock | ClsModuleList | ClsGPT2.

Definition pyclass_eqb (a b : pyclass) : bool :=
  match a, b with
  | ClsLinear, ClsLinear | ClsEmbedding, ClsEmbedding
  | ClsLayerNorm, ClsLayerNorm | ClsConv1D, ClsConv1D | ClsMLP, ClsMLP
  | ClsAttention, ClsAttention | ClsBlock, ClsBlock
  | ClsModuleList, ClsModuleList | ClsGPT2, ClsGPT2 => true
  | _, _ => false
  end.

Record module : Type := Module_ {
  cls : pyclass;
  attr_weight : option loc;
  attr_bias : option loc
}.

Definition isinstance (m : module) (classes : list pyclass) : bool :=
  existsb (pyclass_eqb (cls m)) classes.

Definition getattr (a : option loc) : M loc :=
  match a with
  | Some l => mret l
  | None => lift (raise AttributeError)
  end.

(** ** The modules of gpt2.py

    Each class is a record of its attributes, generic in the carrier [P]
    of its parameters: [P := loc] for the objects that construction
    allocates in the store, [P := tensor] for the values [forward] reads. *)

(** Python's [a % b] and [a // b] on naturals. *)
Definition pymod (a b : nat) : result nat :=
  if b =? 0 then raise ZeroDivisionError else ok (a mod b).

Definition pydiv (a b : nat) : result nat :=
  if b =? 0 then raise ZeroDivisionError else ok (a / b).

(** [gelu], lines 200-202. *)
Definition gelu (x : tensor) : result tensor :=
  let* inner := tadd x (tmap (Rmult 0.044715) (tmap (fun v => v ^ 3) x))%R in
  let t := tmap tanh (tmap (Rmult (sqrt (2 / PI))) inner) in
  tmul (tmap (Rmult 0.5) x) (tmap (Rplus 1) t).

Module Conv1D.

Record t (P : Type) : Type := mk { nf : nat; weight : P; bias : P }.
Arguments mk {P}.
Arguments nf {P}.
Arguments weight {P}.
Arguments bias {P}.

Definition fmap {P Q} (f : P -> Q) (c : t P) : t Q :=
  mk (nf c) (f (weight c)) (f (bias c)).

Definition forward (self : t tensor) (x : tensor) : result tensor :=
  let size_out := removelast (shape x) ++ [nf self] in
  let* last := size x (-1) in
  let* x := view_infer x last in
  let* x := addmm (bias self) x (weight self) in
  view x size_out.

Definition init (nf nx : nat) : M (t loc) :=
  let+ w := normal [nx; nf] in
  let+ weight := alloc w in
  let+ bias := alloc (zeros [nf]) in
  mret (mk nf weight bias).

Definition deepcopy (c : t loc) : M (t loc) :=
  let+ w := copy_param (weight c) in
  let+ b := copy_param (bias c) in
  mret (mk (nf c) w b).

Definition as_module (c : t loc) : module :=
  Module_ ClsConv1D (Some (weight c)) (Some (bias c)).

Definition apply (fn : module -> M unit) (c : t loc) : M unit :=
  fn (as_module c).

End Conv1D.

Module LayerNorm.

Record t (P : Type) : Type := mk { weight : P; bias : P; variance_epsilon : R }.
Arguments mk {P}.
Arguments weight {P}.
Arguments bias {P}.
Arguments variance_epsilon {P}.

Definition fmap {P Q} (f : P -> Q) (l : t P) : t Q :=
  mk (f (weight l)) (f (bias l)) (variance_epsilon l).

(** The default of the constructor's [eps] argument. *)
Definition default_eps : R := 1e-12.

Definition forward (self : t tensor) (x : tensor) : result tensor :=
  let* u := mean_last x in
  let* xu := tsub x u in
  let* s := mean_last (tmap (fun v => v ^ 2)%R xu) in
  let* xu := tsub x u in
  let* x := tdiv xu (tmap sqrt (tmap (fun v => v + variance_epsilon self)%R s)) in
  let* wx := tmul (weight self) x in
  tadd wx (bias self).

(** [eps] is an optional argument of the constructor. *)
Definition init (hidden_size : nat) (eps : option R) : M (t loc) :=
  let eps := default default_eps eps in
  let+ weight := alloc (ones [hidden_size]) in
  let+ bias := alloc (zeros [hidden_size]) in
  mret (mk weight bias eps).

Definition deepcopy (l : t loc) : M (t loc) :=
  let+ w := copy_param (weight l) in
  let+ b := copy_param (bias l) in
  mret (mk w b (variance_epsilon l)).

Definition as_module (l : t loc) : module :=
  Module_ ClsLayerNorm (Some (weight l)) (Some (bias l)).

Definition apply (fn : module -> M unit) (l : t loc) : M unit :=
  fn (as_module l).

End LayerNorm.

Module MLP.

Record t (P : Type) : Type := mk { c_fc : Conv1D.t P; c_proj : Conv1D.t P }.
Arguments mk {P}.
Arguments c_fc {P}.
Arguments c_proj {P}.

Definition fmap {P Q} (f : P -> Q) (m : t P) : t Q :=
  mk (Conv1D.fmap f (c_fc m)) (Conv1D.fmap f (c_proj m)).

(** [self.act] is always [gelu]. *)
Definition forward (self : t tensor) (x : tensor) : result tensor :=
  let* fc := Conv1D.forward (c_fc self) x in
  let* h := gelu fc in
  let* h2 := Conv1D.forward (c_proj self) h in
  ok h2.

Definition init (n_state feat_len : nat) : M (t loc) :=
  let+ c_fc := Conv1D.init n_state feat_len in
  let+ c_proj := Conv1D.init feat_len n_state in
  mret (mk c_fc c_proj).

Definition deepcopy (m : t loc) : M (t loc) :=
  let+ c_fc := Conv1D.deepcopy (c_fc m) in
  let+ c_proj := Conv1D.deepcopy (c_proj m) in
  mret (mk c_fc c_proj).

Definition as_module (m : t loc) : module := Module_ ClsMLP None None.

Definition apply (fn : module -> M unit) (m : t loc) : M unit :=
  let+ _ := Conv1D.apply fn (c_fc m) in
  let+ _ := Conv1D.apply fn (c_proj m) in
  fn (as_module m).

End MLP.

Module Attention.

Record t (P : Type) : Type := mk {
  bias : P;            (* the registered causal-mask buffer *)
  n_head : nat;
  split_size : nat;
  scale : bool;
  c_attn : Conv1D.t P;
  c_proj : Conv1D.t P
}.
Arguments mk {P}.
Arguments bias {P}.
Arguments n_head {P}.
Arguments split_size {P}.
Arguments scale {P}.
Arguments c_attn {P}.
Arguments c_proj {P}.

Definition fmap {P Q} (f : P -> Q) (a : t P) : t Q :=
  mk (f (bias a)) (n_head a) (split_size a) (scale a)
     (Conv1D.fmap f (c_attn a)) (Conv1D.fmap f (c_proj a)).

(** [self.bias[:, :, ns-nd:ns, :ns]]: four subscripts need a buffer of
    rank four; the slices themselves clamp. *)
Definition mask_slice (self : t tensor) (nd ns : nat) : result tensor :=
  if rank (bias self) <? 4 then raise IndexError
  else ok (slice (slice (bias self) 2 (Z.of_nat ns - Z.of_nat nd) (Z.of_nat ns))
                 3 0 (Z.of_nat ns)).

(** The scores after line 131, before the softmax. *)
Definition masked_scores (self : t tensor) (q k v : tensor) : result tensor :=
  let* w := matmul q k in
  let* w := (if scale self
             then let* d := size v (-1) in ok (tmap (fun a => a / sqrt (INR d))%R w)
             else ok w) in
  let* nd := size w (-2) in
  let* ns := size w (-1) in
  let* b := mask_slice self nd ns in
  let* wb := tmul w b in
  tsub wb (tmap (Rmult 1e10) (tmap (fun a => 1 - a)%R b)).

Definition _attn (self : t tensor) (q k v : tensor) : result tensor :=
  let* w := masked_scores self q k v in
  let* w := softmax_last w in
  matmul w v.

Definition merge_heads (x : tensor) : result tensor :=
  let* x := permute x [0; 2; 1; 3] in
  let* a := size x (-2) in
  let* b := size x (-1) in
  let new_x_shape := removelast (removelast (shape x)) ++ [a * b] in
  view x new_x_shape.

Definition split_heads (self : t tensor) (x : tensor) (k : bool) : result tensor :=
  let* last := size x (-1) in
  let* hf := pydiv last (n_head self) in
  let new_x_shape := removelast (shape x) ++ [n_head self; hf] in
  let* x := view x new_x_shape in
  if k then permute x [0; 2; 3; 1] else permute x [0; 2; 1; 3].

(** [query, key, value = ...]: unpacking needs exactly three chunks. *)
Definition unpack3 (l : list tensor) : result (tensor * tensor * tensor) :=
  match l with
  | [a; b; c] => ok (a, b, c)
  | _ => raise ValueError
  end.

(** Lines 160-163: the cached prefix is put in front of the new key
    and value. *)
Definition extend_past (layer_past : option tensor) (key value : tensor)
  : result (tensor * tensor) :=
  match layer_past with
  | Some lp =>
      let* p0 := getitem lp 0 in
      let* past_key := transpose_last2 p0 in
      let* past_value := getitem lp 1 in
      let* key := cat past_key key (-1) in
      let* value := cat past_value value (-2) in
      ok (key, value)
  | None => ok (key, value)
  end.

(** Lines 155-164: query, extended key and value, and the returned
    cache. *)
Definition qkv (self : t tensor) (x : tensor) (layer_past : option tensor)
  : result (tensor * tensor * tensor * tensor) :=
  let* x := Conv1D.forward (c_attn self) x in
  let* chunks := split x (split_size self) 2 in
  let* (query, key, value) := unpack3 chunks in
  let* query := split_heads self query false in
  let* key := split_heads self key true in
  let* value := split_heads self value false in
  let* (key, value) := extend_past layer_past key value in
  let* kt := transpose_last2 key in
  let* present := stack kt value in
  ok (query, key, value, present).

Definition forward (self : t tensor) (x : tensor) (layer_past : option tensor)
  : result (tensor * tensor) :=
  let* (query, key, value, present) := qkv self x layer_past in
  let* a := _attn self query key value in
  let* a := merge_heads a in
  let* a := Conv1D.forward (c_proj self) a in
  ok (a, present).

Definition init (feat_len seq_len nb_head : nat) (scale : bool) : M (t loc) :=
  let+ r := lift (pymod feat_len nb_head) in
  if negb (r =? 0) then lift (raise AssertionError)
  else
    let+ mask := lift (view (tril (ones [seq_len; seq_len])) [1; 1; seq_len; seq_len]) in
    let+ bias := alloc mask in
    let+ c_attn := Conv1D.init (feat_len * 3) feat_len in
    let+ c_proj := Conv1D.init feat_len feat_len in
    mret (mk bias nb_head feat_len scale c_attn c_proj).

Definition deepcopy (a : t loc) : M (t loc) :=
  let+ b := copy_param (bias a) in
  let+ c_attn := Conv1D.deepcopy (c_attn a) in
  let+ c_proj := Conv1D.deepcopy (c_proj a) in
  mret (mk b (n_head a) (split_size a) (scale a) c_attn c_proj).

(** An attention module has a buffer named [bias] and no [weight]. *)
Definition as_module (a : t loc) : module :=
  Module_ ClsAttention None (Some (bias a)).

Definition apply (fn : module -> M unit) (a : t loc) : M unit :=
  let+ _ := Conv1D.apply fn (c_attn a) in
  let+ _ := Conv1D.apply fn (c_proj a) in
  fn (as_module a).

End Attention.

Module Block.

Record t (P : Type) : Type := mk {
  ln_1 : LayerNorm.t P;
  attn : Attention.t P;
  ln_2 : LayerNorm.t P;
  mlp : MLP.t P
}.
Arguments mk {P}.
Arguments ln_1 {P}.
Arguments attn {P}.
Arguments ln_2 {P}.
Arguments mlp {P}.

Definition fmap {P Q} (f : P -> Q) (b : t P) : t Q :=
  mk (LayerNorm.fmap f (ln_1 b)) (Attention.fmap f (attn b))
     (LayerNorm.fmap f (ln_2 b)) (MLP.fmap f (mlp b)).

Definition forward (self : t tensor) (x : tensor) (layer_past : option tensor)
  : result (tensor * tensor) :=
  let* n1 := LayerNorm.forward (ln_1 self) x in
  let* (a, present) := Attention.forward (attn self) n1 layer_past in
  let* x := tadd x a in
  let* n2 := LayerNorm.forward (ln_2 self) x in
  let* m := MLP.forward (mlp self) n2 in
  let* x := tadd x m in
  ok (x, present).

Definition init (seq_len feat_len nb_head : nat) (layer_norm_eps : R) (scale : bool)
  : M (t loc) :=
  let+ ln_1 := LayerNorm.init feat_len (Some layer_norm_eps) in
  let+ attn := Attention.init feat_len seq_len nb_head scale in
  let+ ln_2 := LayerNorm.init feat_len (Some layer_norm_eps) in
  let+ mlp := MLP.init (4 * feat_len) feat_len in
  mret (mk ln_1 attn ln_2 mlp).

Definition deepcopy (b : t loc) : M (t loc) :=
  let+ ln_1 := LayerNorm.deepcopy (ln_1 b) in
  let+ attn := Attention.deepcopy (attn b) in
  let+ ln_2 := LayerNorm.deepcopy (ln_2 b) in
  let+ mlp := MLP.deepcopy (mlp b) in
  mret (mk ln_1 attn ln_2 mlp).

Definition as_module (b : t loc) : module := Module_ ClsBlock None None.

Definition apply (fn : module -> M unit) (b : t loc) : M unit :=
  let+ _ := LayerNorm.apply fn (ln_1 b) in
  let+ _ := Attention.apply fn (attn b) in
  let+ _ := LayerNorm.apply fn (ln_2 b) in
  let+ _ := MLP.apply fn (mlp b) in
  fn (as_module b).

End Block.

Module GPT2.

Record t (P : Type) : Type := mk {
  input_shape : list nat;
  nb_layer : nat;
  h : list (Block.t P);
  ln_f : LayerNorm.t P
}.
Arguments mk {P}.
Arguments input_shape {P}.
Arguments nb_layer {P}.
Arguments h {P}.
Arguments ln_f {P}.

Definition fmap {P Q} (f : P -> Q) (g : t P) : t Q :=
  mk (input_shape g) (nb_layer g) (map (Block.fmap f) (h g)) (LayerNorm.fmap f (ln_f g)).

(** The class attribute [args]. *)
Definition default_nb_layer : nat := 12.
Definition default_nb_head : nat := 12.
Definition default_layer_norm_eps : R := 1e-5.

(** The per-layer caches: a dict from layer index to a tensor or
    [None]. *)
Abbreviation internals_t := (gmap nat (option tensor)).

(** The loop of lines 57-59 over the indices still to visit; [acc] is
    the list [new_internals]. *)
Fixpoint layers (self : t tensor) (internals : internals_t) (idxs : list nat)
    (x : tensor) (acc : list tensor) : result (tensor * list tensor) :=
  match idxs with
  | [] => ok (x, acc)
  | i :: idxs' =>
      let* blk := match h self !! i with Some b => ok b | None => raise IndexError end in
      let* past := match internals !! i with Some p => ok p | None => raise KeyError end in
      let* (x, internal) := Block.forward blk x past in
      layers self internals idxs' x (acc ++ [internal])
  end.

Definition _forward (self : t tensor) (input : tensor) (internals : internals_t)
  : result (tensor * internals_t) :=
  let* (x, new_internals) := layers self internals (seq 0 (nb_layer self)) input [] in
  let new_internals : internals_t := map_seq 0 (Some <$> new_internals) in
  let* x := LayerNorm.forward (ln_f self) x in
  ok (x, new_internals).

Definition _new_internals {P} (self : t P) : internals_t :=
  map_seq 0 (replicate (nb_layer self) None).

Definition _output_shape {P} (self : t P) : list nat := input_shape self.

Definition _init_weights (module : module) : M unit :=
  let+ _ :=
    (if isinstance module [ClsLinear; ClsEmbedding] then
       let+ w := getattr (attr_weight module) in normal_ w
     else if isinstance module [ClsLayerNorm] then
       let+ b := getattr (attr_bias module) in
       let+ _ := zero_ b in
       let+ w := getattr (attr_weight module) in
       fill_ w 1%R
     else mret tt) in
  if isinstance module [ClsLinear] && bool_decide (attr_bias module <> None) then
    let+ b := getattr (attr_bias module) in zero_ b
  else mret tt.

(** [self.apply(fn)]: the children in registration order ([h], a
    [ModuleList] of the blocks, then [ln_f]), each before its parent. *)
Definition apply (fn : module -> M unit) (self : t loc) : M unit :=
  let+ _ := iterM (Block.apply fn) (h self) in
  let+ _ := fn (Module_ ClsModuleList None None) in
  let+ _ := LayerNorm.apply fn (ln_f self) in
  fn (Module_ ClsGPT2 None None).

(** [input_shape[i]] on a tuple. *)
Definition getitem_tuple (s : list nat) (i : Z) : result nat :=
  let* k := pydim (length s) i in ok (nth k s 0).

(** The constructor; the [id] handed on to the base class plays no part
    and is left out. *)
Definition init (input_shape : list nat) (nb_layer nb_head : nat) (layer_norm_eps : R)
  : M (t loc) :=
  let+ seq_len := lift (getitem_tuple input_shape (-2)) in
  let+ feat_len := lift (getitem_tuple input_shape (-1)) in
  let+ block := Block.init seq_len feat_len nb_head layer_norm_eps true in
  let+ h := mapM (fun _ => Block.deepcopy block) (seq 0 nb_layer) in
  let+ ln_f := LayerNorm.init feat_len (Some layer_norm_eps) in
  let self := mk input_shape nb_layer h ln_f in
  let+ _ := apply _init_weights self in
  mret self.

(** The parsed arguments [from_args] reads its three attributes from. *)
Record args_t : Type := Args {
  args_nb_layer : nat;
  args_nb_head : nat;
  args_layer_norm_eps : R
}.

(** The values of the class attribute [args]. *)
Definition args : args_t :=
  Args default_nb_layer default_nb_head default_layer_norm_eps.

Definition from_args (a : args_t) (input_shape : list nat) : M (t loc) :=
  init input_shape (args_nb_layer a) (args_nb_head a) (args_layer_norm_eps a).

End GPT2.

(** ** Specifications, invariants and fixtures *)

Definition Conv1D_wf (nx : nat) (c : Conv1D.t tensor) : Prop :=
  shape (Conv1D.weight c) = [nx; Conv1D.nf c] /\ shape (Conv1D.bias c) = [Conv1D.nf c].

(** [affine c nx row k]: entry [k] of [row . weight + bias]. *)
Definition affine (c : Conv1D.t tensor) (nx : nat) (row : nat -> R) (k : nat) : R :=
  (elem (Conv1D.bias c) [k]
   + sum_n nx (fun i => row i * elem (Conv1D.weight c) [i; k]))%R.

Definition gelu_fn (v : R) : R :=
  (0.5 * v * (1 + tanh (sqrt (2 / PI) * (v + 0.044715 * v ^ 3))))%R.

Definition mean_row (n : nat) (row : nat -> R) : R := (sum_n n row / INR n)%R.

Definition var_row (n : nat) (row : nat -> R) : R :=
  mean_row n (fun i => (row i - mean_row n row) ^ 2)%R.

Definition layer_norm_row (l : LayerNorm.t tensor) (n : nat) (row : nat -> R) (k : nat) : R :=
  (elem (LayerNorm.weight l) [k]
   * ((row k - mean_row n row) / sqrt (var_row n row + LayerNorm.variance_epsilon l))
   + elem (LayerNorm.bias l) [k])%R.

Definition LayerNorm_wf (n : nat) (l : LayerNorm.t tensor) : Prop :=
  shape (LayerNorm.weight l) = [n] /\ shape (LayerNorm.bias l) = [n].

Definition MLP_wf (F : nat) (m : MLP.t tensor) : Prop :=
  Conv1D_wf F (MLP.c_fc m) /\ Conv1D.nf (MLP.c_fc m) = 4 * F /\
  Conv1D_wf (4 * F) (MLP.c_proj m) /\ Conv1D.nf (MLP.c_proj m) = F.

(** A cache for [B] sequences, [H] heads of [D] features and a prefix of
    [P] positions; no cache is a prefix of length 0. *)
Definition past_ok (B H D P : nat) (past : option tensor) : Prop :=
  match past with
  | Some lp => shape lp = [2; B; H; P; D]
  | None => P = 0
  end.

Definition past_elem (past : option tensor) (idx : list nat) : R :=
  match past with
  | Some lp => elem lp idx
  | None => 0%R
  end.

Definition causal_mask (S : nat) : result tensor :=
  view (tril (ones [S; S])) [1; 1; S; S].

Definition Attention_wf (F S H : nat) (a : Attention.t tensor) : Prop :=
  Attention.n_head a = H /\ Attention.split_size a = F /\ 0 < H /\ F mod H = 0 /\
  causal_mask S = ok (Attention.bias a) /\
  Conv1D_wf F (Attention.c_attn a) /\ Conv1D.nf (Attention.c_attn a) = F * 3 /\
  Conv1D_wf F (Attention.c_proj a) /\ Conv1D.nf (Attention.c_proj a) = F.

(** Entry [j] of the [c_attn] projection of position [t] of sequence [b]. *)
Definition proj (a : Attention.t tensor) (F : nat) (x : tensor) (b t j : nat) : R :=
  affine (Attention.c_attn a) F (fun i => elem x [b; t; i]) j.

(** The mask entry for row [i] and column [j] of the full matrix. *)
Definition tril_entry (i j : nat) : R := if j <=? i then 1%R else 0%R.

(** The attention score of query row [i] against key column [j], before
    masking. *)
Definition score (a : Attention.t tensor) (D : nat) (q k : tensor) (b h i j : nat) : R :=
  let raw := sum_n D (fun d => elem q [b; h; i; d] * elem k [b; h; d; j])%R in
  if Attention.scale a then (raw / sqrt (INR D))%R else raw.

Definition softmax_row (n : nat) (row : nat -> R) (j : nat) : R :=
  (exp (row j) / sum_n n (fun k => exp (row k)))%R.

(** The attention weights of query row [i], as the code computes them
    from the masked scores [w]. *)
Definition weights (w : tensor) (ns : nat) (b h i j : nat) : R :=
  softmax_row ns (fun k => elem w [b; h; i; k]) j.

(** Feature [c] of the merged heads at position [t]. *)
Definition attended (w value : tensor) (ns D : nat) (b t c : nat) : R :=
  let h := c / D in
  let d := c mod D in
  sum_n ns (fun j => (weights w ns b h t j * elem value [b; h; j; d])%R).

Definition Block_wf (S F H : nat) (b : Block.t tensor) : Prop :=
  LayerNorm_wf F (Block.ln_1 b) /\ Attention_wf F S H (Block.attn b) /\
  LayerNorm_wf F (Block.ln_2 b) /\ MLP_wf F (Block.mlp b).

(** [threaded ints i blocks x y ps]: starting at layer index [i], the
    blocks run in order on [x], each on the output of the one before and
    on its own cache entry; [y] is the last output and [ps] the updated
    caches in layer order. *)
Inductive threaded (ints : gmap nat (option tensor))
  : nat -> list (Block.t tensor) -> tensor -> tensor -> list tensor -> Prop :=
| threaded_nil i x : threaded ints i [] x x []
| threaded_cons i blk blocks x past x' p y ps :
    ints !! i = Some past ->
    Block.forward blk x past = ok (x', p) ->
    threaded ints (S i) blocks x' y ps ->
    threaded ints i (blk :: blocks) x y (p :: ps).

Definition GPT2_wf (S F H : nat) (g : GPT2.t tensor) : Prop :=
  length (GPT2.h g) = GPT2.nb_layer g /\
  Forall (Block_wf S F H) (GPT2.h g) /\
  LayerNorm_wf F (GPT2.ln_f g).

(** Every layer from index [i] on has a cache entry that fits the
    input. *)
Definition caches_ok (S H D B T : nat) (ints : gmap nat (option tensor)) (n : nat) : Prop :=
  forall i, i < n -> exists past P,
    ints !! i = Some past /\ past_ok B H D P past /\ P + T <= S.

(** The thirteen parameters and buffers of a block, in allocation
    order. *)
Definition Block_params {P} (b : Block.t P) : list P :=
  [LayerNorm.weight (Block.ln_1 b); LayerNorm.bias (Block.ln_1 b);
   Attention.bias (Block.attn b);
   Conv1D.weight (Attention.c_attn (Block.attn b)); Conv1D.bias (Attention.c_attn (Block.attn b));
   Conv1D.weight (Attention.c_proj (Block.attn b)); Conv1D.bias (Attention.c_proj (Block.attn b));
   LayerNorm.weight (Block.ln_2 b); LayerNorm.bias (Block.ln_2 b);
   Conv1D.weight (MLP.c_fc (Block.mlp b)); Conv1D.bias (MLP.c_fc (Block.mlp b));
   Conv1D.weight (MLP.c_proj (Block.mlp b)); Conv1D.bias (MLP.c_proj (Block.mlp b))].

(** The weights and biases of the four affine projections of a block. *)
Definition Block_conv_params {P} (b : Block.t P) : list P :=
  [Conv1D.weight (Attention.c_attn (Block.attn b)); Conv1D.bias (Attention.c_attn (Block.attn b));
   Conv1D.weight (Attention.c_proj (Block.attn b)); Conv1D.bias (Attention.c_proj (Block.attn b));
   Conv1D.weight (MLP.c_fc (Block.mlp b)); Conv1D.bias (MLP.c_fc (Block.mlp b));
   Conv1D.weight (MLP.c_proj (Block.mlp b)); Conv1D.bias (MLP.c_proj (Block.mlp b))].

(** The block [b] with its parameters stored at [n], [n+1], ..., [n+12]. *)
Definition Block_at {P} (b : Block.t P) (n : nat) : Block.t loc :=
  let a := Block.attn b in
  let m := Block.mlp b in
  Block.mk
    (LayerNorm.mk n (n + 1) (LayerNorm.variance_epsilon (Block.ln_1 b)))
    (Attention.mk (n + 2) (Attention.n_head a) (Attention.split_size a) (Attention.scale a)
       (Conv1D.mk (Conv1D.nf (Attention.c_attn a)) (n + 3) (n + 4))
       (Conv1D.mk (Conv1D.nf (Attention.c_proj a)) (n + 5) (n + 6)))
    (LayerNorm.mk (n + 7) (n + 8) (LayerNorm.variance_epsilon (Block.ln_2 b)))
    (MLP.mk (Conv1D.mk (Conv1D.nf (MLP.c_fc m)) (n + 9) (n + 10))
            (Conv1D.mk (Conv1D.nf (MLP.c_proj m)) (n + 11) (n + 12))).

Definition frame (m : M unit) (touched : loc -> Prop) : Prop :=
  forall w, exists w',
    m w = inr (tt, w') /\
    length (heap w') = length (heap w) /\
    (forall l, shape (deref (heap w') l) = shape (deref (heap w) l)) /\
    (forall l, ~ touched l -> deref (heap w') l = deref (heap w) l).

(** The normalization parameters of a block. *)
Definition Block_ln_params (b : Block.t loc) : list loc :=
  [LayerNorm.weight (Block.ln_1 b); LayerNorm.bias (Block.ln_1 b);
   LayerNorm.weight (Block.ln_2 b); LayerNorm.bias (Block.ln_2 b)].

(** Offsets within a block of the mask buffer and the affine-projection
    parameters: what the initialisation pass leaves as constructed. *)
Definition kept_offset (j : nat) : Prop :=
  j = 2 \/ j = 3 \/ j = 4 \/ j = 5 \/ j = 6 \/ j = 9 \/ j = 10 \/ j = 11 \/ j = 12.


Definition world0 : world := World [] (fun _ _ => 0%R) 0.

Definition ex_conv (nf nx : nat) : Conv1D.t tensor :=
  Conv1D.mk nf (Tensor [nx; nf] (fun _ => 0.02%R)) (zeros [nf]).

Definition ex_ln (n : nat) : LayerNorm.t tensor :=
  LayerNorm.mk (ones [n]) (zeros [n]) 1e-5%R.

Definition ex_mask (S : nat) : tensor :=
  Tensor [1; 1; S; S]
    (fun idx => elem (tril (ones [S; S])) (unravel [S; S] (ravel [1; 1; S; S] idx))).

(** Two positions at most, two features, one head. *)
Definition ex_attn : Attention.t tensor :=
  Attention.mk (ex_mask 2) 1 2 true (ex_conv 6 2) (ex_conv 2 2).

Definition ex_block : Block.t tensor :=
  Block.mk (ex_ln 2) ex_attn (ex_ln 2) (MLP.mk (ex_conv 8 2) (ex_conv 2 8)).

Definition ex_gpt2 : GPT2.t tensor :=
  GPT2.mk [2; 2] 2 [ex_block; ex_block] (ex_ln 2).

Definition ex_x (T : nat) : tensor :=
  Tensor [1; T; 2] (fun idx => match idx with
                               | [_; t; f] => INR (t + f)
                               | _ => 0%R
                               end).





(** One query row against two key columns, two features per head. *)
Definition ex_q : tensor := ones [1; 1; 1; 2].
Definition ex_kv : tensor := ones [1; 1; 2; 2].

(** What the constructors of the four affine projections of a block
    store, in the order of [Block_conv_params]: each weight is one normal
    draw of shape (nx, nf), taken in construction order from the state
    of the generator in [w]; each bias is zero. *)
Definition conv_draws (F : nat) (w : world) : list tensor :=
  [Tensor [F; F * 3] (rng w (draws w)); zeros [F * 3];
   Tensor [F; F] (rng w (draws w + 1)); zeros [F];
   Tensor [F; 4 * F] (rng w (draws w + 2)); zeros [4 * F];
   Tensor [4 * F; F] (rng w (draws w + 3)); zeros [F]].

(** [xp] holds the first [P] positions of [x] and [xr] the [T] that
    follow. *)
Definition prefix_rest (B F P T : nat) (x xp xr : tensor) : Prop :=
  (forall b t f, b < B -> t < P -> f < F -> elem xp [b; t; f] = elem x [b; t; f]) /\
  (forall b t f, b < B -> t < T -> f < F -> elem xr [b; t; f] = elem x [b; P + t; f]).

(** What a block makes of one position once attention has been added:
    [row] is the input plus the attention output there. *)
Definition block_rest (blk : Block.t tensor) (F : nat) (row : nat -> R) (f : nat) : R :=
  (row f
   + affine (MLP.c_proj (Block.mlp blk)) (4 * F)
       (fun j => gelu_fn (affine (MLP.c_fc (Block.mlp blk)) F
                            (layer_norm_row (Block.ln_2 blk) F row) j)) f)%R.


(** Each of the first [n] layers has a cache entry holding [P] positions
    ([None] holds none). *)
Definition caches_at (B H D P : nat) (ints : gmap nat (option tensor)) (n : nat) : Prop :=
  forall i, i < n -> exists past, ints !! i = Some past /\ past_ok B H D P past.

(** Location [l] is allocated and holds the constant [c] throughout. *)
Definition holds (σ : list tensor) (l : loc) (c : R) : Prop :=
  l < length σ /\ deref σ l = Tensor (shape (deref σ l)) (fun _ => c).

(** A normalization module as the pass leaves it: gain one, offset
    zero. *)
Definition ln_reset (σ : list tensor) (l : LayerNorm.t loc) : Prop :=
  holds σ (LayerNorm.weight l) 1 /\ holds σ (LayerNorm.bias l) 0.

Definition ln_allocated (σ : list tensor) (l : LayerNorm.t loc) : Prop :=
  LayerNorm.weight l < length σ /\ LayerNorm.bias l < length σ /\
  LayerNorm.weight l <> LayerNorm.bias l.

(** The pass over a run of modules: what it returns, which locations
    it may change, and which normalization modules it leaves reset. *)
Definition pass_post (m : M unit) (w : world) (touched : loc -> Prop)
    (lns : list (LayerNorm.t loc)) : Prop :=
  exists w',
    m w = inr (tt, w') /\
    length (heap w') = length (heap w) /\
    (forall x, shape (deref (heap w') x) = shape (deref (heap w) x)) /\
    (forall x, ~ touched x -> deref (heap w') x = deref (heap w) x) /\
    Forall (ln_reset (heap w')) lns.

Definition ln_locs (l : LayerNorm.t loc) : list loc :=
  [LayerNorm.weight l; LayerNorm.bias l].

Definition Block_lns (b : Block.t loc) : list (LayerNorm.t loc) :=
  [Block.ln_1 b; Block.ln_2 b].

(** The four normalization locations of a block are allocated and
    distinct. *)
Definition Block_allocated (n : nat) (b : Block.t loc) : Prop :=
  NoDup (Block_ln_params b) /\ Forall (fun x => x < n) (Block_ln_params b).

(** No normalization location of a block is one of a later block. *)
Fixpoint separated (hs : list (Block.t loc)) : Prop :=
  match hs with
  | [] => True
  | b :: hs' =>
      (forall b' x, In b' hs' -> In x (Block_ln_params b) -> ~ In x (Block_ln_params b')) /\
      separated hs'
  end.

Definition GPT2_lns (g : GPT2.t loc) : list (LayerNorm.t loc) :=
  flat_map Block_lns (GPT2.h g) ++ [GPT2.ln_f g].

Definition GPT2_allocated (n : nat) (g : GPT2.t loc) : Prop :=
  Forall (Block_allocated n) (GPT2.h g) /\ separated (GPT2.h g) /\
  (LayerNorm.weight (GPT2.ln_f g) < n /\ LayerNorm.bias (GPT2.ln_f g) < n /\
   LayerNorm.weight (GPT2.ln_f g) <> LayerNorm.bias (GPT2.ln_f g)) /\
  forall b x, In b (GPT2.h g) -> In x (Block_ln_params b) -> ~ In x (ln_locs (GPT2.ln_f g)).



(** A loaded normalization module with gain one and offset zero. *)
Definition ln_plain (F : nat) (l : LayerNorm.t tensor) : Prop :=
  LayerNorm.weight l = ones [F] /\ LayerNorm.bias l = zeros [F].

(** [x] and [x'] hold the same sequence at batch index [b]. *)
Definition same_sequence (b T F : nat) (x x' : tensor) : Prop :=
  forall t f, t < T -> f < F -> elem x [b; t; f] = elem x' [b; t; f].

(** Two sequences of two positions; the first is fixed, every entry of
    the second is [other]. *)
Definition ex_batch (other : R) : tensor :=
  Tensor [2; 2; 2] (fun idx => match idx with
                               | [0; t; f] => INR (t + f)
                               | _ => other
                               end).

(** * Proofs *)

Ltac rsimpl := cbn [rbind ok raise].

(** ** Sums *)

Lemma sum_n_ext n f g :
  (forall k, k < n -> f k = g k) -> sum_n n f = sum_n n g.
Proof.
  induction n as [|n IH]; intros Hfg; simpl; [reflexivity|].
  rewrite IH, Hfg; auto.
Qed.


(** ** Shapes and offsets *)

Lemma numel_nil : numel [] = 1.
Proof. reflexivity. Qed.

Lemma numel_cons d s : numel (d :: s) = d * numel s.
Proof. reflexivity. Qed.

Local Arguments numel : simpl never.

Lemma numel_app s1 s2 : numel (s1 ++ s2) = numel s1 * numel s2.
Proof.
  induction s1 as [|d s1 IH].
  - rewrite app_nil_l, numel_nil. lia.
  - rewrite <- app_comm_cons, !numel_cons, IH. lia.
Qed.

Lemma numel_snoc s n : numel (s ++ [n]) = numel s * n.
Proof. rewrite numel_app, numel_cons, numel_nil. lia. Qed.

Lemma valid_idx_length s idx : valid_idx s idx -> length idx = length s.
Proof. intros H. exact (Forall2_length _ _ _ H). Qed.

Lemma valid_idx_app s1 s2 i1 i2 :
  valid_idx s1 i1 -> valid_idx s2 i2 -> valid_idx (s1 ++ s2) (i1 ++ i2).
Proof. intros H1 H2. apply Forall2_app; assumption. Qed.

Lemma ravel_lt s idx : valid_idx s idx -> ravel s idx < numel s.
Proof.
  revert idx. induction s as [|d s IH]; intros idx H; inversion H; subst; simpl.
  - rewrite numel_nil. lia.
  - rewrite numel_cons. specialize (IH _ H4). nia.
Qed.

Lemma unravel_ravel s idx : valid_idx s idx -> unravel s (ravel s idx) = idx.
Proof.
  revert idx. induction s as [|d s IH]; intros idx H; inversion H; subst; simpl.
  - reflexivity.
  - pose proof (ravel_lt _ _ H4) as Hlt.
    f_equal.
    + rewrite Nat.div_add_l by lia. rewrite Nat.div_small by lia. lia.
    + rewrite Nat.add_comm, Nat.Div0.mod_add, Nat.mod_small by lia. apply IH, H4.
Qed.

Lemma unravel_valid s n : n < numel s -> valid_idx s (unravel s n).
Proof.
  revert n. induction s as [|d s IH]; intros n Hn; simpl.
  - constructor.
  - rewrite numel_cons in Hn.
    assert (0 < numel s) by nia.
    constructor.
    + apply Nat.Div0.div_lt_upper_bound. lia.
    + apply IH. apply Nat.mod_upper_bound. lia.
Qed.

Lemma ravel_snoc s n idx k :
  length idx = length s -> ravel (s ++ [n]) (idx ++ [k]) = ravel s idx * n + k.
Proof.
  revert idx. induction s as [|d s IH]; intros [|i idx] Hlen; simpl in *; try discriminate.
  - rewrite ?numel_nil. lia.
  - rewrite IH by lia. rewrite numel_snoc. lia.
Qed.

Lemma unravel_snoc s n r i :
  i < n -> r < numel s -> unravel (s ++ [n]) (r * n + i) = unravel s r ++ [i].
Proof.
  revert r. induction s as [|d s IH]; intros r Hi Hr; cbn [unravel app].
  - rewrite numel_nil in *. rewrite Nat.div_1_r. f_equal. nia.
  - rewrite numel_cons in Hr. rewrite numel_snoc.
    assert (0 < numel s) by nia.
    assert (E : r * n + i = (r / numel s) * (numel s * n) + ((r mod numel s) * n + i)).
    { pose proof (Nat.div_mod_eq r (numel s)). nia. }
    assert (B : (r mod numel s) * n + i < numel s * n).
    { pose proof (Nat.mod_upper_bound r (numel s) ltac:(lia)). nia. }
    f_equal.
    + rewrite E at 1. rewrite Nat.div_add_l by nia. rewrite (Nat.div_small _ _ B). lia.
    + rewrite E at 1. rewrite Nat.add_comm, Nat.Div0.mod_add, (Nat.mod_small _ _ B).
      apply IH; [assumption|]. apply Nat.mod_upper_bound. lia.
Qed.

(** ** Broadcasting *)

Lemma bdim_refl a : bdim a a = ok a.
Proof. unfold bdim. rewrite Nat.eqb_refl. reflexivity. Qed.

Lemma bshape_rev_refl s : bshape_rev s s = ok s.
Proof. induction s as [|d s IH]; simpl; [reflexivity|]. rewrite bdim_refl, IH. reflexivity. Qed.

Lemma bshape_refl s : bshape s s = ok s.
Proof. unfold bshape. rewrite bshape_rev_refl. simpl. rewrite rev_involutive. reflexivity. Qed.

Lemma bshape_rev_prefix s1 s2 : bshape_rev s1 (s1 ++ s2) = ok (s1 ++ s2).
Proof.
  induction s1 as [|d s1 IH]; simpl; [reflexivity|].
  rewrite bdim_refl, IH. reflexivity.
Qed.

(** A vector against a tensor whose last axis has the same length. *)
Lemma bshape_suffix_l s1 s2 : bshape s2 (s1 ++ s2) = ok (s1 ++ s2).
Proof.
  unfold bshape. rewrite rev_app_distr, bshape_rev_prefix. simpl.
  rewrite <- rev_app_distr, rev_involutive. reflexivity.
Qed.

Lemma bshape_rev_comm s1 s2 : bshape_rev s1 s2 = bshape_rev s2 s1.
Proof.
  revert s2. induction s1 as [|a s1 IH]; intros [|b s2]; simpl; try reflexivity.
  rewrite IH. unfold bdim. rewrite (Nat.eqb_sym b a).
  destruct (a =? b) eqn:E; [apply Nat.eqb_eq in E; subst; reflexivity|].
  destruct (a =? 1) eqn:E1, (b =? 1) eqn:E2; try reflexivity.
  apply Nat.eqb_eq in E1, E2. subst. discriminate.
Qed.

Lemma bshape_suffix_r s1 s2 : bshape (s1 ++ s2) s2 = ok (s1 ++ s2).
Proof. unfold bshape. rewrite bshape_rev_comm. apply bshape_suffix_l. Qed.

Lemma bidx_valid s idx : valid_idx s idx -> bidx s idx = idx.
Proof.
  intros H. unfold bidx. rewrite (valid_idx_length _ _ H), Nat.sub_diag, drop_0.
  induction H as [|i d idx s Hlt H IH]; cbn [zip_with]; [reflexivity|].
  rewrite IH. destruct (d =? 1) eqn:E; [apply Nat.eqb_eq in E; f_equal; lia | reflexivity].
Qed.

Lemma bidx_suffix s i1 idx : valid_idx s idx -> bidx s (i1 ++ idx) = idx.
Proof.
  intros H. rewrite <- (bidx_valid s idx H) at 2. unfold bidx.
  rewrite length_app, (valid_idx_length _ _ H).
  replace (length i1 + length s - length s) with (length i1) by lia.
  rewrite Nat.sub_diag. rewrite drop_app_length. reflexivity.
Qed.

(** Same-shape operands: the operation is elementwise. *)
Lemma tbin_same f a b :
  shape a = shape b ->
  exists y, tbin f a b = ok y /\ shape y = shape a /\
    forall idx, valid_idx (shape a) idx -> elem y idx = f (elem a idx) (elem b idx).
Proof.
  intros E. unfold tbin. rewrite <- E, bshape_refl. simpl.
  eexists; split; [reflexivity|]. split; [reflexivity|].
  intros idx H. simpl. rewrite bidx_valid by assumption. reflexivity.
Qed.

(** ** Sizes, views *)

Lemma pydim_last r : 0 < r -> pydim r (-1) = ok (r - 1).
Proof.
  intros Hr. unfold pydim.
  destruct (0 <=? -1)%Z eqn:E; [apply Z.leb_le in E; lia|]. cbn [andb].
  replace ((-1 <? 0)%Z) with true by (symmetry; apply Z.ltb_lt; lia).
  replace ((- Z.of_nat r <=? -1)%Z) with true by (symmetry; apply Z.leb_le; lia).
  cbn [andb]. f_equal. lia.
Qed.

Lemma pydim_last2 r : 1 < r -> pydim r (-2) = ok (r - 2).
Proof.
  intros Hr. unfold pydim.
  destruct (0 <=? -2)%Z eqn:E; [apply Z.leb_le in E; lia|]. cbn [andb].
  replace ((-2 <? 0)%Z) with true by (symmetry; apply Z.ltb_lt; lia).
  replace ((- Z.of_nat r <=? -2)%Z) with true by (symmetry; apply Z.leb_le; lia).
  cbn [andb]. f_equal. lia.
Qed.

Lemma pydim_nonneg r k : k < r -> pydim r (Z.of_nat k) = ok k.
Proof.
  intros Hr. unfold pydim.
  replace ((0 <=? Z.of_nat k)%Z) with true by (symmetry; apply Z.leb_le; lia).
  replace ((Z.of_nat k <? Z.of_nat r)%Z) with true by (symmetry; apply Z.ltb_lt; lia).
  cbn [andb]. f_equal. lia.
Qed.

Lemma size_last x s n : shape x = s ++ [n] -> size x (-1) = ok n.
Proof.
  intros E. unfold size, rank. rewrite E, length_app. cbn [length].
  rewrite pydim_last by lia. rsimpl. f_equal.
  replace (length s + 1 - 1) with (length s) by lia.
  rewrite app_nth2 by lia. rewrite Nat.sub_diag. reflexivity.
Qed.

Lemma size_last2 x s n m : shape x = s ++ [n; m] -> size x (-2) = ok n.
Proof.
  intros E. unfold size, rank. rewrite E, length_app. cbn [length].
  rewrite pydim_last2 by lia. rsimpl. f_equal.
  replace (length s + 2 - 2) with (length s) by lia.
  rewrite app_nth2 by lia. rewrite Nat.sub_diag. reflexivity.
Qed.

Lemma view_eq x s :
  numel s = numel (shape x) ->
  view x s = ok (Tensor s (fun idx => elem x (unravel (shape x) (ravel s idx)))).
Proof. intros E. unfold view. rewrite E, Nat.eqb_refl. reflexivity. Qed.

Lemma removelast_snoc {A} (l : list A) a : removelast (l ++ [a]) = l.
Proof. apply removelast_last. Qed.

(** ** Affine projection *)

Lemma matmul2_spec a b n m p :
  shape a = [n; m] -> shape b = [m; p] ->
  exists y, matmul a b = ok y /\ shape y = [n; p] /\
    forall i j, elem y [i; j] = sum_n m (fun k => elem a [i; k] * elem b [k; j])%R.
Proof.
  intros Ea Eb. unfold matmul, rank. rewrite Ea, Eb. cbn.
  rewrite Nat.eqb_refl. cbn.
  eexists; split; [reflexivity|]. split; [reflexivity|].
  intros i j. cbn. reflexivity.
Qed.

Lemma Conv1D_forward_spec c x s nx :
  Conv1D_wf nx c -> shape x = s ++ [nx] -> 0 < nx ->
  exists y, Conv1D.forward c x = ok y /\ shape y = s ++ [Conv1D.nf c] /\
    forall idx k, valid_idx s idx -> k < Conv1D.nf c ->
      elem y (idx ++ [k]) = affine c nx (fun i => elem x (idx ++ [i])) k.
Proof.
  intros [Hw Hb] Hx Hnx. unfold Conv1D.forward.
  rewrite (size_last x s nx Hx). rsimpl.
  unfold view_infer.
  destruct (nx =? 0) eqn:E0; [apply Nat.eqb_eq in E0; lia|].
  rewrite Hx, numel_snoc, Nat.Div0.mod_mul, Nat.eqb_refl, Nat.div_mul by lia.
  rewrite view_eq by (rewrite Hx, numel_snoc, !numel_cons, numel_nil; lia).
  rsimpl. unfold addmm, rank. cbn [shape length]. rewrite Hw. cbn [length Nat.eqb andb].
  match goal with |- context [matmul ?a ?b] =>
    destruct (matmul2_spec a b (numel s) nx (Conv1D.nf c) eq_refl Hw) as (xw & Exw & Sxw & Hxw)
  end.
  rewrite Exw. rsimpl. rewrite Hb, Sxw.
  pose proof (bshape_suffix_l [numel s] [Conv1D.nf c]) as Hbs. cbn [app] in Hbs.
  rewrite Hbs. rsimpl.
  rewrite bool_decide_eq_true_2 by reflexivity.
  unfold tadd, tbin. rewrite Hb, Sxw, Hbs. rsimpl.
  rewrite removelast_snoc.
  rewrite view_eq by (cbn [shape]; rewrite numel_snoc, !numel_cons, numel_nil; lia).
  eexists; split; [reflexivity|]. split; [reflexivity|].
  intros idx k Hidx Hk. cbn [elem shape].
  rewrite ravel_snoc by (apply valid_idx_length; assumption).
  pose proof (ravel_lt _ _ Hidx) as Hr.
  change [numel s; Conv1D.nf c] with ([numel s] ++ [Conv1D.nf c]).
  rewrite unravel_snoc; [|assumption|rewrite numel_cons, numel_nil; lia].
  cbn [unravel app]. rewrite numel_nil, Nat.div_1_r.
  pose proof (bidx_suffix [Conv1D.nf c] [ravel s idx] [k]) as Hbi. cbn [app] in Hbi.
  rewrite Hbi by (repeat constructor; assumption).
  rewrite bidx_valid by (repeat constructor; assumption).
  rewrite Hxw. unfold affine. f_equal.
  apply sum_n_ext. intros i Hi. cbn [elem]. f_equal.
  cbn [ravel]. rewrite !numel_cons, numel_nil.
  replace (ravel s idx * (nx * 1) + (i * 1 + 0)) with (ravel s idx * nx + i) by lia.
  rewrite Hx, unravel_snoc by assumption.
  rewrite unravel_ravel by assumption. reflexivity.
Qed.

(** ** The nonlinearity *)

Lemma gelu_spec x :
  exists y, gelu x = ok y /\ shape y = shape x /\
    forall idx, valid_idx (shape x) idx -> elem y idx = gelu_fn (elem x idx).
Proof.
  unfold gelu.
  match goal with |- context [tadd ?a ?b] =>
    destruct (tbin_same Rplus a b eq_refl) as (inner & E1 & S1 & H1)
  end.
  unfold tadd. rewrite E1. rsimpl.
  match goal with |- context [tmul ?a ?b] =>
    destruct (tbin_same Rmult a b) as (y & E2 & S2 & H2)
  end.
  { cbn [tmap shape]. symmetry. exact S1. }
  unfold tmul. exists y. split; [exact E2|]. split; [exact S2|].
  intros idx Hidx. rewrite (H2 idx Hidx). cbn [tmap elem].
  rewrite (H1 idx Hidx). cbn [tmap elem]. reflexivity.
Qed.

(** ** Normalization over the last axis *)

Lemma bdim_1_r a : bdim a 1 = ok a.
Proof.
  unfold bdim. destruct (a =? 1) eqn:E; [apply Nat.eqb_eq in E; subst|]; reflexivity.
Qed.

Lemma bshape_keepdim s n : bshape (s ++ [n]) (s ++ [1]) = ok (s ++ [n]).
Proof.
  unfold bshape. rewrite !rev_app_distr. cbn [rev app bshape_rev].
  rewrite bdim_1_r, bshape_rev_refl. rsimpl.
  cbn [rev]. rewrite rev_involutive. reflexivity.
Qed.

Lemma bidx_keepdim s idx k : valid_idx s idx -> bidx (s ++ [1]) (idx ++ [k]) = idx ++ [0].
Proof.
  intros H. unfold bidx. rewrite !length_app, (valid_idx_length _ _ H). cbn [length].
  rewrite Nat.sub_diag, drop_0.
  induction H as [|i d idx s Hlt H IH]; cbn [zip_with app]; [reflexivity|].
  rewrite IH. destruct (d =? 1) eqn:E; [apply Nat.eqb_eq in E; f_equal; lia | reflexivity].
Qed.

Lemma set_last_snoc idx a k : set_last (idx ++ [a]) k = idx ++ [k].
Proof. unfold set_last. rewrite removelast_last. reflexivity. Qed.

Lemma last_snoc (s : list nat) n d : List.last (s ++ [n]) d = n.
Proof. apply last_last. Qed.

Lemma mean_last_spec x s n :
  shape x = s ++ [n] ->
  exists u, mean_last x = ok u /\ shape u = s ++ [1] /\
    forall idx, elem u (idx ++ [0]) = mean_row n (fun k => elem x (idx ++ [k])).
Proof.
  intros E. unfold mean_last. rewrite E.
  destruct (s ++ [n]) eqn:Es; [destruct s; discriminate|]. rewrite <- Es.
  eexists; split; [reflexivity|]. rewrite set_last_snoc, last_snoc.
  split; [reflexivity|].
  intros idx. cbn [elem]. unfold mean_row. f_equal.
  apply sum_n_ext. intros k _. rewrite set_last_snoc. reflexivity.
Qed.

(** A tensor against a per-row statistic kept with a last axis of
    length 1. *)
Lemma tbin_keepdim f a u s n :
  shape a = s ++ [n] -> shape u = s ++ [1] ->
  exists y, tbin f a u = ok y /\ shape y = s ++ [n] /\
    forall idx k, valid_idx s idx -> k < n ->
      elem y (idx ++ [k]) = f (elem a (idx ++ [k])) (elem u (idx ++ [0])).
Proof.
  intros Ea Eu. unfold tbin. rewrite Ea, Eu, bshape_keepdim. rsimpl.
  eexists; split; [reflexivity|]. split; [reflexivity|].
  intros idx k Hidx Hk. cbn [elem].
  rewrite bidx_keepdim by assumption.
  rewrite bidx_valid; [reflexivity|].
  apply valid_idx_app; [assumption|repeat constructor; assumption].
Qed.

Lemma tbin_vec_l f w a s n :
  shape w = [n] -> shape a = s ++ [n] ->
  exists y, tbin f w a = ok y /\ shape y = s ++ [n] /\
    forall idx k, valid_idx s idx -> k < n ->
      elem y (idx ++ [k]) = f (elem w [k]) (elem a (idx ++ [k])).
Proof.
  intros Ew Ea. unfold tbin. rewrite Ew, Ea, bshape_suffix_l. rsimpl.
  eexists; split; [reflexivity|]. split; [reflexivity|].
  intros idx k Hidx Hk. cbn [elem].
  rewrite (bidx_suffix [n] idx [k]) by (repeat constructor; assumption).
  rewrite bidx_valid; [reflexivity|].
  apply valid_idx_app; [assumption|repeat constructor; assumption].
Qed.

Lemma tbin_vec_r f a w s n :
  shape a = s ++ [n] -> shape w = [n] ->
  exists y, tbin f a w = ok y /\ shape y = s ++ [n] /\
    forall idx k, valid_idx s idx -> k < n ->
      elem y (idx ++ [k]) = f (elem a (idx ++ [k])) (elem w [k]).
Proof.
  intros Ea Ew. unfold tbin. rewrite Ew, Ea, bshape_suffix_r. rsimpl.
  eexists; split; [reflexivity|]. split; [reflexivity|].
  intros idx k Hidx Hk. cbn [elem].
  rewrite (bidx_suffix [n] idx [k]) by (repeat constructor; assumption).
  rewrite bidx_valid; [reflexivity|].
  apply valid_idx_app; [assumption|repeat constructor; assumption].
Qed.

Lemma LayerNorm_forward_spec l x s n :
  LayerNorm_wf n l -> shape x = s ++ [n] ->
  exists y, LayerNorm.forward l x = ok y /\ shape y = s ++ [n] /\
    forall idx k, valid_idx s idx -> k < n ->
      elem y (idx ++ [k]) = layer_norm_row l n (fun i => elem x (idx ++ [i])) k.
Proof.
  intros [Hw Hb] Hx. unfold LayerNorm.forward.
  destruct (mean_last_spec x s n Hx) as (u & Eu & Su & Hu). rewrite Eu. rsimpl.
  destruct (tbin_keepdim Rminus x u s n Hx Su) as (xu & Exu & Sxu & Hxu).
  unfold tsub. rewrite Exu. rsimpl.
  destruct (mean_last_spec (tmap (fun v => v ^ 2)%R xu) s n Sxu) as (v & Ev & Sv & Hv).
  rewrite Ev. rsimpl.
  match goal with |- context [tdiv xu ?d] =>
    destruct (tbin_keepdim Rdiv xu d s n Sxu Sv) as (xn & Exn & Sxn & Hxn)
  end.
  unfold tdiv. rewrite Exn. rsimpl.
  destruct (tbin_vec_l Rmult _ xn s n Hw Sxn) as (wx & Ewx & Swx & Hwx).
  unfold tmul. rewrite Ewx. rsimpl.
  destruct (tbin_vec_r Rplus wx _ s n Swx Hb) as (y & Ey & Sy & Hy).
  unfold tadd. exists y. split; [exact Ey|]. split; [exact Sy|].
  intros idx k Hidx Hk.
  rewrite Hy, Hwx, Hxn, Hxu by assumption. cbn [tmap elem]. rewrite Hv, Hu.
  assert (Hvar : mean_row n (fun i => elem (tmap (fun v => v ^ 2)%R xu) (idx ++ [i]))
                 = var_row n (fun i => elem x (idx ++ [i]))).
  { unfold var_row, mean_row at 1 2. f_equal.
    apply sum_n_ext. intros i Hi. cbn [tmap elem]. rewrite Hxu, Hu by assumption.
    reflexivity. }
  rewrite Hvar. reflexivity.
Qed.

(** ** Feed-forward network *)

Lemma MLP_forward_spec m x s F :
  MLP_wf F m -> shape x = s ++ [F] -> 0 < F ->
  exists fc y,
    Conv1D.forward (MLP.c_fc m) x = ok fc /\ shape fc = s ++ [4 * F] /\
    MLP.forward m x = ok y /\ shape y = s ++ [F] /\
    forall idx k, valid_idx s idx -> k < F ->
      elem y (idx ++ [k]) =
        affine (MLP.c_proj m) (4 * F)
          (fun j => gelu_fn (affine (MLP.c_fc m) F (fun i => elem x (idx ++ [i])) j)) k.
Proof.
  intros (Wfc & Nfc & Wp & Np) Hx HF. unfold MLP.forward.
  destruct (Conv1D_forward_spec _ x s F Wfc Hx HF) as (fc & Efc & Sfc & Hfc).
  rewrite Nfc in Sfc, Hfc.
  exists fc. rewrite Efc. rsimpl.
  destruct (gelu_spec fc) as (g & Eg & Sg & Hg). rewrite Eg. rsimpl.
  rewrite Sfc in Sg, Hg.
  destruct (Conv1D_forward_spec _ g s (4 * F) Wp Sg ltac:(lia)) as (y & Ey & Sy & Hy).
  rewrite Np in Sy, Hy.
  exists y. rewrite Ey. rsimpl.
  repeat split; try assumption; try reflexivity.
  intros idx k Hidx Hk. rewrite Hy by assumption. unfold affine at 1 2. f_equal.
  apply sum_n_ext. intros j Hj. f_equal.
  rewrite Hg by (apply valid_idx_app; [assumption|repeat constructor; assumption]).
  rewrite Hfc by assumption. reflexivity.
Qed.

Local Arguments Nat.div : simpl never.

Local Arguments Nat.modulo : simpl never.

Local Arguments Nat.mul : simpl never.

(** ** Splitting and merging heads *)

Lemma ravel_split_last s H D idx h d :
  valid_idx s idx -> h < H -> d < D ->
  unravel (s ++ [H * D]) (ravel (s ++ [H; D]) (idx ++ [h; d])) = idx ++ [h * D + d].
Proof.
  intros Hidx Hh Hd.
  change (s ++ [H; D]) with (s ++ [H] ++ [D]). change (idx ++ [h; d]) with (idx ++ [h] ++ [d]).
  rewrite !app_assoc.
  rewrite ravel_snoc by (rewrite !length_app, (valid_idx_length _ _ Hidx); reflexivity).
  rewrite ravel_snoc by (apply valid_idx_length; assumption).
  replace ((ravel s idx * H + h) * D + d) with (ravel s idx * (H * D) + (h * D + d)) by lia.
  rewrite unravel_snoc; [|nia|apply ravel_lt; assumption].
  rewrite unravel_ravel by assumption. reflexivity.
Qed.

Lemma ravel_merge_last s H D idx c :
  valid_idx s idx -> c < H * D ->
  unravel (s ++ [H; D]) (ravel (s ++ [H * D]) (idx ++ [c])) = idx ++ [c / D; c mod D].
Proof.
  intros Hidx Hc.
  assert (0 < D) by nia.
  rewrite ravel_snoc by (apply valid_idx_length; assumption).
  change (s ++ [H; D]) with (s ++ [H] ++ [D]). rewrite app_assoc.
  replace (ravel s idx * (H * D) + c)
    with ((ravel s idx * H + c / D) * D + c mod D)
    by (pose proof (Nat.div_mod_eq c D); nia).
  rewrite unravel_snoc.
  - rewrite unravel_snoc.
    + rewrite unravel_ravel by assumption. rewrite <- app_assoc. reflexivity.
    + apply Nat.Div0.div_lt_upper_bound. lia.
    + apply ravel_lt; assumption.
  - apply Nat.mod_upper_bound. lia.
  - rewrite numel_snoc. pose proof (ravel_lt _ _ Hidx).
    assert (c / D < H) by (apply Nat.Div0.div_lt_upper_bound; lia). nia.
Qed.

Lemma split_heads_spec self x B T H D k :
  Attention.n_head self = H -> 0 < H -> shape x = [B; T; H * D] ->
  exists y, Attention.split_heads self x k = ok y /\
    shape y = (if k then [B; H; D; T] else [B; H; T; D]) /\
    forall b h t d, b < B -> h < H -> t < T -> d < D ->
      elem y (if k then [b; h; d; t] else [b; h; t; d]) = elem x [b; t; h * D + d].
Proof.
  intros EH HH Hx. unfold Attention.split_heads.
  rewrite (size_last x [B; T] (H * D) Hx). rsimpl.
  unfold pydiv. rewrite EH.
  destruct (H =? 0) eqn:E0; [apply Nat.eqb_eq in E0; lia|]. rsimpl.
  replace (H * D / H) with D by (rewrite Nat.mul_comm, Nat.div_mul; lia).
  rewrite Hx. cbn [removelast app].
  rewrite view_eq by (rewrite Hx, !numel_cons, numel_nil; lia).
  rsimpl.
  assert (Hel : forall b h t d, b < B -> h < H -> t < T -> d < D ->
            unravel (shape x) (ravel [B; T; H; D] [b; t; h; d]) = [b; t; h * D + d]).
  { intros b h t d Hb Hh Ht Hd. rewrite Hx.
    apply (ravel_split_last [B; T] H D [b; t] h d); [repeat constructor; assumption| |]; assumption. }
  cbn [ravel] in Hel.
  destruct k; unfold permute; cbn.
  - eexists; split; [reflexivity|]. split; [reflexivity|].
    intros b h t d Hb Hh Ht Hd. cbn. rewrite Hel by assumption. reflexivity.
  - eexists; split; [reflexivity|]. split; [reflexivity|].
    intros b h t d Hb Hh Ht Hd. cbn. rewrite Hel by assumption. reflexivity.
Qed.

Lemma merge_heads_spec x B H T D :
  shape x = [B; H; T; D] ->
  exists y, Attention.merge_heads x = ok y /\ shape y = [B; T; H * D] /\
    forall b t c, b < B -> t < T -> c < H * D ->
      elem y [b; t; c] = elem x [b; c / D; t; c mod D].
Proof.
  intros Hx. unfold Attention.merge_heads, permute, rank. rewrite Hx.
  cbn -[view size]. rsimpl.
  match goal with |- context [size ?p (-2)] =>
    rewrite (size_last2 p [B; T] H D eq_refl), (size_last p [B; T; H] D eq_refl)
  end. rsimpl. cbn [shape removelast app].
  rewrite view_eq by (cbn [shape]; rewrite !numel_cons, numel_nil; lia).
  eexists; split; [reflexivity|]. split; [reflexivity|].
  intros b t c Hb Ht Hc. cbn [elem shape].
  pose proof (ravel_merge_last [B; T] H D [b; t] c) as E. cbn [app] in E.
  rewrite E by (try assumption; repeat constructor; assumption).
  cbn. reflexivity.
Qed.

(** ** Splitting the projection into query, key and value *)

Lemma split3_spec x B T F :
  0 < F -> shape x = [B; T; F * 3] ->
  exists q k v, split x F 2 = ok [q; k; v] /\
    shape q = [B; T; F] /\ shape k = [B; T; F] /\ shape v = [B; T; F] /\
    forall b t f,
      elem q [b; t; f] = elem x [b; t; f] /\
      elem k [b; t; f] = elem x [b; t; F + f] /\
      elem v [b; t; f] = elem x [b; t; 2 * F + f].
Proof.
  intros HF Hx. unfold split, rank. rewrite Hx. cbn [length].
  change (pydim 3 2) with (@ok nat 2). rsimpl. cbn [nth].
  destruct (F =? 0) eqn:E0; [apply Nat.eqb_eq in E0; lia|].
  replace ((F * 3 + F - 1) / F) with 3
    by (apply (Nat.div_unique _ _ _ (F - 1)); lia).
  cbn [seq map].
  do 3 eexists. split; [reflexivity|].
  unfold narrow. cbn [shape elem]. rewrite Hx. cbn.
  replace (F `min` (F * 3 - 0 * F)) with F by lia.
  replace (F `min` (F * 3 - 1 * F)) with F by lia.
  replace (F `min` (F * 3 - 2 * F)) with F by lia.
  repeat split; try reflexivity; f_equal; repeat (f_equal; try lia).
Qed.

(** ** The cache *)

Lemma cat_last_spec a b s n m :
  shape a = s ++ [n] -> shape b = s ++ [m] ->
  cat a b (-1) =
    ok (Tensor (s ++ [n + m])
          (fun idx => if nth (length s) idx 0 <? n then elem a idx
                      else elem b (<[length s := nth (length s) idx 0 - n]> idx))).
Proof.
  intros Ea Eb. unfold cat, rank. rewrite Ea, Eb, length_app. cbn [length].
  rewrite pydim_last by lia. rsimpl.
  replace (length s + 1 - 1) with (length s) by lia.
  assert (Hins : forall (l : list nat) (x y : nat), <[length l := y]> (l ++ [x]) = l ++ [y]).
  { intros l x y. induction l as [|c l IH]; cbn; [reflexivity|]. f_equal. exact IH. }
  rewrite !Hins. rewrite bool_decide_eq_true_2 by reflexivity.
  rewrite !app_nth2 by lia. rewrite Nat.sub_diag. cbn [nth]. reflexivity.
Qed.

Lemma cat_last2_spec a b s n m d :
  shape a = s ++ [n; d] -> shape b = s ++ [m; d] ->
  cat a b (-2) =
    ok (Tensor (s ++ [n + m; d])
          (fun idx => if nth (length s) idx 0 <? n then elem a idx
                      else elem b (<[length s := nth (length s) idx 0 - n]> idx))).
Proof.
  intros Ea Eb. unfold cat, rank. rewrite Ea, Eb, length_app. cbn [length].
  rewrite pydim_last2 by lia. rsimpl.
  replace (length s + 2 - 2) with (length s) by lia.
  assert (Hins : forall (l : list nat) (x y : nat), <[length l := y]> (l ++ [x; d]) = l ++ [y; d]).
  { intros l x y. induction l as [|c l IH]; cbn; [reflexivity|]. f_equal. exact IH. }
  rewrite !Hins. rewrite bool_decide_eq_true_2 by reflexivity.
  rewrite !app_nth2 by lia. rewrite Nat.sub_diag. cbn [nth]. reflexivity.
Qed.

Lemma extend_past_spec past key value B H D P T :
  past_ok B H D P past -> shape key = [B; H; D; T] -> shape value = [B; H; T; D] ->
  exists key' value',
    Attention.extend_past past key value = ok (key', value') /\
    shape key' = [B; H; D; P + T] /\ shape value' = [B; H; P + T; D] /\
    forall b h d j,
      elem key' [b; h; d; j] =
        (if j <? P then past_elem past [0; b; h; j; d] else elem key [b; h; d; j - P]) /\
      elem value' [b; h; j; d] =
        (if j <? P then past_elem past [1; b; h; j; d] else elem value [b; h; j - P; d]).
Proof.
  intros Hp Hk Hv. destruct past as [lp|]; cbn [past_ok] in Hp.
  - unfold Attention.extend_past, getitem. rewrite Hp. cbn [Nat.ltb Nat.leb]. rsimpl.
    unfold transpose_last2, rank. cbn [shape length Nat.leb]. rsimpl.
    cbn [swap_last2].
    match goal with |- context [cat ?a key (-1)] =>
      rewrite (cat_last_spec a key [B; H; D] P T eq_refl Hk)
    end. rsimpl.
    match goal with |- context [cat ?a value (-2)] =>
      rewrite (cat_last2_spec a value [B; H] P T D eq_refl Hv)
    end. rsimpl.
    do 2 eexists. split; [reflexivity|]. split; [reflexivity|]. split; [reflexivity|].
    intros b h d j. cbn. split; reflexivity.
  - subst P. cbn [Attention.extend_past].
    do 2 eexists. split; [reflexivity|]. split; [exact Hk|]. split; [exact Hv|].
    intros b h d j. cbn [Nat.ltb Nat.leb]. rewrite Nat.sub_0_r. split; reflexivity.
Qed.

(** ** Query, key, value *)

Lemma qkv_spec a x past F S H B T P :
  Attention_wf F S H a -> 0 < F -> shape x = [B; T; F] -> past_ok B H (F / H) P past ->
  exists q key value present,
    Attention.qkv a x past = ok (q, key, value, present) /\
    shape q = [B; H; T; F / H] /\ shape key = [B; H; F / H; P + T] /\
    shape value = [B; H; P + T; F / H] /\ shape present = [2; B; H; P + T; F / H] /\
    (forall b h t d, b < B -> h < H -> t < T -> d < F / H ->
       elem q [b; h; t; d] = proj a F x b t (h * (F / H) + d)) /\
    (forall b h d j, b < B -> h < H -> d < F / H -> j < P + T ->
       elem key [b; h; d; j] =
         (if j <? P then past_elem past [0; b; h; j; d]
          else proj a F x b (j - P) (F + (h * (F / H) + d))) /\
       elem value [b; h; j; d] =
         (if j <? P then past_elem past [1; b; h; j; d]
          else proj a F x b (j - P) (2 * F + (h * (F / H) + d)))) /\
    (forall b h j d,
       elem present [0; b; h; j; d] = elem key [b; h; d; j] /\
       elem present [1; b; h; j; d] = elem value [b; h; j; d]).
Proof.
  intros (EH & ES & HH & Hmod & _ & Wc & Nc & _ & _) HF Hx Hp.
  set (D := F / H) in *.
  assert (EF : F = H * D).
  { unfold D. pose proof (Nat.div_mod_eq F H). lia. }
  unfold Attention.qkv.
  destruct (Conv1D_forward_spec _ x [B; T] F Wc Hx HF) as (c & Ec & Sc & Hc).
  rewrite Ec. rsimpl. rewrite Nc in Sc, Hc. cbn [app] in Sc.
  destruct (split3_spec c B T F HF Sc) as (q0 & k0 & v0 & Es & Sq0 & Sk0 & Sv0 & Hs).
  rewrite ES, Es. rsimpl. cbn [Attention.unpack3]. rsimpl.
  rewrite EF in Sq0, Sk0, Sv0.
  destruct (split_heads_spec a q0 B T H D false EH HH Sq0) as (q & Eq & Sq & Hq).
  destruct (split_heads_spec a k0 B T H D true EH HH Sk0) as (k & Ek & Sk & Hk).
  destruct (split_heads_spec a v0 B T H D false EH HH Sv0) as (v & Ev & Sv & Hv).
  rewrite Eq. rsimpl. rewrite Ek. rsimpl. rewrite Ev. rsimpl.
  destruct (extend_past_spec past k v B H D P T Hp Sk Sv) as (key & value & Ee & Skey & Sval & He).
  rewrite Ee. rsimpl.
  unfold transpose_last2, rank. rewrite Skey. cbn [length Nat.leb]. rsimpl. cbn [swap_last2].
  unfold stack. cbn [shape]. rewrite Sval, bool_decide_eq_true_2 by reflexivity. rsimpl.
  exists q, key, value. eexists. split; [reflexivity|].
  split; [exact Sq|]. split; [exact Skey|]. split; [exact Sval|]. split; [reflexivity|].
  assert (Hcp : forall b t j, b < B -> t < T -> j < F * 3 -> elem c [b; t; j] = proj a F x b t j).
  { intros b t j Hb Ht Hj. apply (Hc [b; t] j); [repeat constructor; assumption|assumption]. }
  split; [|split].
  - intros b h t d Hb Hh Ht Hd. rewrite Hq by assumption.
    destruct (Hs b t (h * D + d)) as (-> & _ & _). apply Hcp; try assumption. nia.
  - intros b h d j Hb Hh Hd Hj. destruct (He b h d j) as [-> ->].
    destruct (j <? P) eqn:Ej; [split; reflexivity|].
    apply Nat.ltb_ge in Ej.
    rewrite Hk, Hv by (try assumption; lia).
    destruct (Hs b (j - P) (h * D + d)) as (_ & -> & ->).
    split; apply Hcp; try assumption; try lia; nia.
  - intros b h j d. cbn. split; reflexivity.
Qed.

(** ** Scores and the causal mask *)

Lemma matmul4_spec a b B H n m p :
  shape a = [B; H; n; m] -> shape b = [B; H; m; p] ->
  exists y, matmul a b = ok y /\ shape y = [B; H; n; p] /\
    forall b0 h i j, b0 < B -> h < H ->
      elem y [b0; h; i; j] = sum_n m (fun k => elem a [b0; h; i; k] * elem b [b0; h; k; j])%R.
Proof.
  intros Ea Eb. unfold matmul, rank. rewrite Ea, Eb.
  cbn [length Nat.leb andb Nat.sub firstn nth].
  rewrite Nat.eqb_refl, bshape_refl. rsimpl.
  eexists; split; [reflexivity|]. split; [reflexivity|].
  intros b0 h i j Hb Hh. cbn [elem length Nat.sub firstn nth].
  rewrite (bidx_valid [B; H] [b0; h]) by (repeat constructor; assumption).
  reflexivity.
Qed.

Lemma causal_mask_spec S mask :
  causal_mask S = ok mask ->
  shape mask = [1; 1; S; S] /\
  forall i j, i < S -> j < S -> elem mask [0; 0; i; j] = tril_entry i j.
Proof.
  unfold causal_mask. rewrite view_eq by (cbn [tril ones shape]; rewrite !numel_cons; lia).
  intros E. assert (Em : mask = Tensor [1; 1; S; S]
    (fun idx => elem (tril (ones [S; S])) (unravel [S; S] (ravel [1; 1; S; S] idx)))).
  { unfold ok in E. injection E as E. rewrite <- E. reflexivity. }
  clear E. subst mask. split; [reflexivity|].
  intros i j Hi Hj.
  assert (U : unravel [S; S] (ravel [1; 1; S; S] [0; 0; i; j]) = [i; j]).
  { replace (ravel [1; 1; S; S] [0; 0; i; j]) with (ravel [S; S] [i; j])
      by (cbn [ravel]; lia).
    apply unravel_ravel. repeat constructor; assumption. }
  cbv beta iota delta [elem tril ones shape]. rewrite U. reflexivity.
Qed.

Lemma pyslice_spec n a b :
  pyslice n (Z.of_nat a) (Z.of_nat b) = (Nat.min a n, Nat.min b n - Nat.min a n).
Proof.
  unfold pyslice.
  destruct (Z.of_nat a <? 0)%Z eqn:Ea; [apply Z.ltb_lt in Ea; lia|].
  destruct (Z.of_nat b <? 0)%Z eqn:Eb; [apply Z.ltb_lt in Eb; lia|].
  f_equal; lia.
Qed.

Lemma mask_slice_spec a S nd ns :
  causal_mask S = ok (Attention.bias a) -> nd <= ns ->
  exists b, Attention.mask_slice a nd ns = ok b /\
    shape b = [1; 1; Nat.min ns S - Nat.min (ns - nd) S; Nat.min ns S] /\
    forall i j, elem b [0; 0; i; j] = elem (Attention.bias a) [0; 0; Nat.min (ns - nd) S + i; j].
Proof.
  intros Hm Hle. destruct (causal_mask_spec S _ Hm) as [Sm _].
  unfold Attention.mask_slice, rank. rewrite Sm. cbn [length Nat.ltb Nat.leb].
  replace (Z.of_nat ns - Z.of_nat nd)%Z with (Z.of_nat (ns - nd)) by lia.
  unfold slice at 2. rewrite Sm. cbn [nth]. rewrite pyslice_spec.
  unfold slice, narrow. cbn [shape]. rewrite Sm. cbn [nth insert list_insert].
  rewrite (pyslice_spec S 0 ns : pyslice S 0 (Z.of_nat ns) = _).
  eexists; split; [reflexivity|]. cbn [shape elem nth insert list_insert].
  replace (ns `min` S - 0 `min` S) with (ns `min` S) by lia.
  split; [reflexivity|].
  intros i j. reflexivity.
Qed.

Lemma bshape_mask B H n m : bshape [B; H; n; m] [1; 1; n; m] = ok [B; H; n; m].
Proof.
  unfold bshape. cbn [rev app bshape_rev]. rewrite !bdim_refl, !bdim_1_r. reflexivity.
Qed.

Lemma bidx_mask n m b h i j :
  i < n -> j < m -> bidx [1; 1; n; m] [b; h; i; j] = [0; 0; i; j].
Proof.
  intros Hi Hj. unfold bidx. cbn.
  destruct (n =? 1) eqn:En; [apply Nat.eqb_eq in En|];
    (destruct (m =? 1) eqn:Em; [apply Nat.eqb_eq in Em|]);
    repeat f_equal; lia.
Qed.

Lemma masked_scores_spec a S q k v B H D nd ns :
  causal_mask S = ok (Attention.bias a) ->
  shape q = [B; H; nd; D] -> shape k = [B; H; D; ns] -> shape v = [B; H; ns; D] ->
  nd <= ns -> ns <= S ->
  exists b w,
    Attention.mask_slice a nd ns = ok b /\ shape b = [1; 1; nd; ns] /\
    (forall i j, i < nd -> j < ns -> elem b [0; 0; i; j] = tril_entry (ns - nd + i) j) /\
    Attention.masked_scores a q k v = ok w /\ shape w = [B; H; nd; ns] /\
    forall b0 h i j, b0 < B -> h < H -> i < nd -> j < ns ->
      let m := elem b [0; 0; i; j] in
      elem w [b0; h; i; j] = (score a D q k b0 h i j * m - 1e10 * (1 - m))%R.
Proof.
  intros Hm Sq Sk Sv Hle HS.
  destruct (causal_mask_spec S _ Hm) as [Sm Hmask].
  destruct (mask_slice_spec a S nd ns Hm Hle) as (b & Eb & Sb & Hb).
  replace (ns `min` S - (ns - nd) `min` S) with nd in Sb by lia.
  replace (ns `min` S) with ns in Sb by lia.
  exists b.
  unfold Attention.masked_scores.
  destruct (matmul4_spec q k B H nd D ns Sq Sk) as (w0 & Ew0 & Sw0 & Hw0).
  rewrite Ew0. rsimpl.
  set (w1 := if Attention.scale a then tmap (fun x => x / sqrt (INR D))%R w0 else w0).
  assert (E1 : (if Attention.scale a
                then let* d := size v (-1) in ok (tmap (fun x => x / sqrt (INR d))%R w0)
                else ok w0) = ok w1).
  { unfold w1. destruct (Attention.scale a); [|reflexivity].
    rewrite (size_last v [B; H; ns] D Sv). reflexivity. }
  rewrite E1. rsimpl.
  assert (Sw1 : shape w1 = [B; H; nd; ns]).
  { unfold w1. destruct (Attention.scale a); assumption. }
  assert (Hw1 : forall b0 h i j, b0 < B -> h < H -> elem w1 [b0; h; i; j] = score a D q k b0 h i j).
  { intros b0 h i j Hb0 Hh. unfold w1, score.
    destruct (Attention.scale a); cbn [tmap elem]; rewrite Hw0 by assumption; reflexivity. }
  clearbody w1.
  rewrite (size_last2 w1 [B; H] nd ns Sw1), (size_last w1 [B; H; nd] ns Sw1). rsimpl.
  rewrite Eb. rsimpl.
  unfold tmul, tsub, tbin. rewrite Sw1, Sb, bshape_mask. rsimpl.
  cbn [shape tmap]. rewrite Sb, bshape_mask. rsimpl.
  eexists. split; [reflexivity|]. split; [reflexivity|]. split.
  { intros i j Hi Hj. rewrite Hb. replace ((ns - nd) `min` S) with (ns - nd) by lia.
    apply Hmask; lia. }
  split; [reflexivity|]. split; [reflexivity|].
  intros b0 h i j Hb0 Hh Hi Hj. cbv zeta. cbn [elem tmap].
  pose proof (bidx_valid [B; H; nd; ns] [b0; h; i; j]
                ltac:(repeat constructor; assumption)) as Ei.
  rewrite Ei. cbn [elem]. rewrite Ei.
  rewrite bidx_mask by assumption.
  rewrite Hw1 by assumption. reflexivity.
Qed.

(** ** Softmax and the attention output *)

Lemma softmax_last_spec w s n :
  shape w = s ++ [n] ->
  exists p, softmax_last w = ok p /\ shape p = s ++ [n] /\
    forall idx j, elem p (idx ++ [j]) = softmax_row n (fun k => elem w (idx ++ [k])) j.
Proof.
  intros E. unfold softmax_last. rewrite E.
  destruct (s ++ [n]) eqn:Es; [destruct s; discriminate|]. rewrite <- Es.
  eexists; split; [reflexivity|]. split; [reflexivity|].
  intros idx j. cbn [elem]. rewrite last_snoc. unfold softmax_row. f_equal.
  apply sum_n_ext. intros k _. rewrite set_last_snoc. reflexivity.
Qed.

Lemma Attention_forward_spec a x past F S H B T P :
  Attention_wf F S H a -> 0 < F -> shape x = [B; T; F] ->
  past_ok B H (F / H) P past -> P + T <= S ->
  exists q key value present w out,
    Attention.qkv a x past = ok (q, key, value, present) /\
    Attention.masked_scores a q key value = ok w /\
    shape w = [B; H; T; P + T] /\
    Attention.forward a x past = ok (out, present) /\
    shape out = [B; T; F] /\ shape present = [2; B; H; P + T; F / H] /\
    forall b t f, b < B -> t < T -> f < F ->
      elem out [b; t; f] =
        affine (Attention.c_proj a) F (attended w value (P + T) (F / H) b t) f.
Proof.
  intros Wf HF Hx Hp HS.
  destruct (qkv_spec a x past F S H B T P Wf HF Hx Hp)
    as (q & key & value & present & Eqkv & Sq & Sk & Sv & Sp & Hq & Hkv & Hpr).
  destruct Wf as (EH & ES & HH & Hmod & Hm & Wc & Nc & Wpj & Npj).
  set (D := F / H) in *.
  assert (EF : F = H * D) by (unfold D; pose proof (Nat.div_mod_eq F H); lia).
  destruct (masked_scores_spec a S q key value B H D T (P + T) Hm Sq Sk Sv ltac:(lia) HS)
    as (mb & w & _ & _ & _ & Ew & Sw & _).
  exists q, key, value, present, w.
  unfold Attention.forward. rewrite Eqkv. rsimpl.
  unfold Attention._attn. rewrite Ew. rsimpl.
  destruct (softmax_last_spec w [B; H; T] (P + T) Sw) as (p & Ep & Spp & Hpp).
  rewrite Ep. rsimpl.
  destruct (matmul4_spec p value B H T (P + T) D Spp Sv) as (o & Eo & So & Ho).
  rewrite Eo. rsimpl.
  destruct (merge_heads_spec o B H T D So) as (m & Em & Sm & Hmg).
  rewrite Em. rsimpl. rewrite <- EF in Sm.
  destruct (Conv1D_forward_spec _ m [B; T] F Wpj Sm HF) as (out & Eout & Sout & Hout).
  rewrite Eout. rsimpl. rewrite Npj in Sout, Hout.
  exists out. repeat split; try reflexivity; try assumption.
  intros b t f Hb Ht Hf.
  pose proof (Hout [b; t] f ltac:(repeat constructor; assumption) Hf) as Eo'.
  cbn [app] in Eo'. rewrite Eo'.
  unfold affine. f_equal. apply sum_n_ext. intros c Hc. f_equal.
  rewrite Hmg by (try assumption; lia).
  assert (c / D < H) by (apply Nat.Div0.div_lt_upper_bound; lia).
  rewrite Ho by assumption. unfold attended. apply sum_n_ext. intros j Hj. f_equal.
  unfold weights. apply (Hpp [b; c / D; t] j).
Qed.

(** ** Decoder block *)

Lemma tadd3_spec x a B T F :
  shape x = [B; T; F] -> shape a = [B; T; F] ->
  exists y, tadd x a = ok y /\ shape y = [B; T; F] /\
    forall b t f, b < B -> t < T -> f < F ->
      elem y [b; t; f] = (elem x [b; t; f] + elem a [b; t; f])%R.
Proof.
  intros Sx Sa. destruct (tbin_same Rplus x a) as (y & E & Sy & Hy); [congruence|].
  exists y. split; [exact E|]. split; [congruence|].
  intros b t f Hb Ht Hf. apply Hy. rewrite Sx. repeat constructor; assumption.
Qed.

Lemma Block_forward_spec blk x past S F H B T P :
  Block_wf S F H blk -> 0 < F -> shape x = [B; T; F] ->
  past_ok B H (F / H) P past -> P + T <= S ->
  exists n1 a present x1 n2 m out,
    LayerNorm.forward (Block.ln_1 blk) x = ok n1 /\
    Attention.forward (Block.attn blk) n1 past = ok (a, present) /\
    tadd x a = ok x1 /\
    LayerNorm.forward (Block.ln_2 blk) x1 = ok n2 /\
    MLP.forward (Block.mlp blk) n2 = ok m /\
    tadd x1 m = ok out /\
    Block.forward blk x past = ok (out, present) /\
    shape out = [B; T; F] /\ shape present = [2; B; H; P + T; F / H] /\
    forall b t f, b < B -> t < T -> f < F ->
      elem x1 [b; t; f] = (elem x [b; t; f] + elem a [b; t; f])%R /\
      elem out [b; t; f] = (elem x1 [b; t; f] + elem m [b; t; f])%R.
Proof.
  intros (W1 & Wa & W2 & Wm) HF Sx Hp HS. unfold Block.forward.
  destruct (LayerNorm_forward_spec _ x [B; T] F W1 Sx) as (n1 & E1 & S1 & _).
  destruct (Attention_forward_spec _ n1 past F S H B T P Wa HF S1 Hp HS)
    as (q & key & value & present & w & a & _ & _ & _ & Ea & Sa & Spr & _).
  destruct (tadd3_spec x a B T F Sx Sa) as (x1 & Ex1 & Sx1 & Hx1).
  destruct (LayerNorm_forward_spec _ x1 [B; T] F W2 Sx1) as (n2 & E2 & S2 & _).
  destruct (MLP_forward_spec _ n2 [B; T] F Wm S2 HF) as (fc & m & _ & _ & Em & Sm & _).
  destruct (tadd3_spec x1 m B T F Sx1 Sm) as (out & Eo & So & Ho).
  exists n1, a, present, x1, n2, m, out.
  rewrite E1. rsimpl. rewrite Ea. rsimpl. rewrite Ex1. rsimpl.
  rewrite E2. rsimpl. rewrite Em. rsimpl. rewrite Eo. rsimpl.
  repeat split; try reflexivity; try assumption; [apply Hx1 | apply Ho]; assumption.
Qed.

(** ** Stack *)

Lemma threaded_length ints i blocks x y ps :
  threaded ints i blocks x y ps -> length ps = length blocks.
Proof. induction 1; cbn; congruence. Qed.

Lemma layers_threaded g ints pre blocks x y ps acc :
  GPT2.h g = pre ++ blocks ->
  threaded ints (length pre) blocks x y ps ->
  GPT2.layers g ints (seq (length pre) (length blocks)) x acc = ok (y, acc ++ ps).
Proof.
  revert pre x ps acc. induction blocks as [|blk blocks IH]; intros pre x ps acc Hh Ht;
    inversion Ht; subst; cbn [length seq GPT2.layers].
  - rewrite app_nil_r. reflexivity.
  - rewrite Hh. rewrite lookup_app_r by lia. rewrite Nat.sub_diag.
    cbn [lookup list_lookup]. rsimpl.
    match goal with Hp : ints !! _ = Some _ |- _ => rewrite Hp end. rsimpl.
    match goal with Hf : Block.forward _ _ _ = _ |- _ => rewrite Hf end. rsimpl.
    replace (S (length pre)) with (length (pre ++ [blk])) in * by (rewrite length_app; cbn; lia).
    rewrite (IH (pre ++ [blk]) _ ps0).
    + rewrite <- app_assoc. reflexivity.
    + rewrite <- app_assoc. exact Hh.
    + assumption.
Qed.

Lemma threaded_layers g ints pre blocks x r acc :
  GPT2.h g = pre ++ blocks ->
  GPT2.layers g ints (seq (length pre) (length blocks)) x acc = ok r ->
  exists ps, threaded ints (length pre) blocks x r.1 ps /\ r.2 = acc ++ ps.
Proof.
  revert pre x acc. induction blocks as [|blk blocks IH]; intros pre x acc Hh;
    cbn [length seq GPT2.layers].
  - intros E. injection E as <-. exists []. split; [constructor|]. cbn. rewrite app_nil_r. reflexivity.
  - rewrite Hh. rewrite lookup_app_r by lia. rewrite Nat.sub_diag.
    cbn [lookup list_lookup]. rsimpl.
    destruct (ints !! length pre) as [past|] eqn:Hpast; rsimpl; [|discriminate].
    destruct (Block.forward blk x past) as [e|[x' p]] eqn:Hfw; rsimpl; [discriminate|].
    intros E.
    replace (S (length pre)) with (length (pre ++ [blk])) in E by (rewrite length_app; cbn; lia).
    apply IH in E; [|rewrite <- app_assoc; exact Hh].
    destruct E as (ps & Ht & Er). exists (p :: ps). split.
    + econstructor; [exact Hpast|exact Hfw|].
      replace (S (length pre)) with (length (pre ++ [blk])) by (rewrite length_app; cbn; lia).
      exact Ht.
    + rewrite Er, <- app_assoc. reflexivity.
Qed.

Lemma threaded_total S F H B T ints blocks i x :
  Forall (Block_wf S F H) blocks -> 0 < F -> shape x = [B; T; F] ->
  caches_ok S H (F / H) B T ints (i + length blocks) ->
  exists y ps, threaded ints i blocks x y ps /\ shape y = [B; T; F].
Proof.
  intros Hwf HF. revert i x.
  induction Hwf as [|blk blocks Hb Hwf IH]; intros i x Sx Hc.
  - exists x, []. split; [constructor|assumption].
  - destruct (Hc i ltac:(cbn; lia)) as (past & P & Hpast & Hp & HS).
    destruct (Block_forward_spec blk x past S F H B T P Hb HF Sx Hp HS)
      as (n1 & a & present & x1 & n2 & m & out & _ & _ & _ & _ & _ & _ & Efw & So & _).
    destruct (IH (Datatypes.S i) out So) as (y & ps & Ht & Sy).
    { intros k Hk. apply Hc. cbn [length]. lia. }
    exists y, (present :: ps). split; [|assumption].
    econstructor; eassumption.
Qed.

(** ** Construction *)

Lemma deref_app_old (σ τ : list tensor) l : l < length σ -> deref (σ ++ τ) l = deref σ l.
Proof. intros Hl. unfold deref. apply app_nth1. exact Hl. Qed.

Lemma deref_app_new (σ τ : list tensor) k :
  deref (σ ++ τ) (length σ + k) = nth k τ (zeros []).
Proof.
  unfold deref. rewrite app_nth2 by lia. f_equal. lia.
Qed.

Ltac heap_norm :=
  repeat (rewrite length_app; cbn [length]);
  rewrite <- ?app_assoc; cbn [app];
  rewrite <- ?Nat.add_assoc; cbn [Nat.add].

Ltac mstep := cbv beta iota delta [mbind mret alloc normal lift read write copy_param ok raise];
              cbn [heap rng draws].

Lemma Conv1D_init_eq nf nx w :
  Conv1D.init nf nx w =
    inr (Conv1D.mk nf (length (heap w)) (length (heap w) + 1),
         World (heap w ++ [Tensor [nx; nf] (rng w (draws w)); zeros [nf]])
               (rng w) (Datatypes.S (draws w))).
Proof. unfold Conv1D.init. mstep. heap_norm. reflexivity. Qed.

Lemma LayerNorm_init_eq n eps w :
  LayerNorm.init n eps w =
    inr (LayerNorm.mk (length (heap w)) (length (heap w) + 1)
           (default LayerNorm.default_eps eps),
         World (heap w ++ [ones [n]; zeros [n]]) (rng w) (draws w)).
Proof. unfold LayerNorm.init. mstep. heap_norm. reflexivity. Qed.

Lemma MLP_init_eq n_state F w :
  MLP.init n_state F w =
    let n := length (heap w) in
    inr (MLP.mk (Conv1D.mk n_state n (n + 1)) (Conv1D.mk F (n + 2) (n + 3)),
         World (heap w ++ [Tensor [F; n_state] (rng w (draws w)); zeros [n_state];
                           Tensor [n_state; F] (rng w (Datatypes.S (draws w))); zeros [F]])
               (rng w) (Datatypes.S (Datatypes.S (draws w)))).
Proof.
  unfold MLP.init, mbind at 1. rewrite Conv1D_init_eq.
  unfold mbind at 1. rewrite Conv1D_init_eq. cbn [heap rng draws mret ok].
  cbv zeta. heap_norm. reflexivity.
Qed.

Lemma causal_mask_ok S : exists mask, causal_mask S = ok mask.
Proof.
  unfold causal_mask. rewrite view_eq by (cbn [tril ones shape]; rewrite !numel_cons; lia).
  eexists. reflexivity.
Qed.

Lemma Attention_init_ok F S H scale w mask :
  0 < H -> F mod H = 0 -> causal_mask S = ok mask ->
  Attention.init F S H scale w =
    let n := length (heap w) in
    inr (Attention.mk n H F scale (Conv1D.mk (F * 3) (n + 1) (n + 2))
                                  (Conv1D.mk F (n + 3) (n + 4)),
         World (heap w ++ [mask;
                           Tensor [F; F * 3] (rng w (draws w)); zeros [F * 3];
                           Tensor [F; F] (rng w (Datatypes.S (draws w))); zeros [F]])
               (rng w) (Datatypes.S (Datatypes.S (draws w)))).
Proof.
  intros HH Hmod Hmask. unfold Attention.init, pymod.
  destruct (H =? 0) eqn:E0; [apply Nat.eqb_eq in E0; lia|].
  unfold mbind at 1. cbn [lift ok]. rewrite Hmod. cbn [Nat.eqb negb].
  fold (causal_mask S). rewrite Hmask.
  unfold mbind at 1. cbn [lift ok].
  unfold mbind at 1. cbn [alloc ok].
  unfold mbind at 1. rewrite Conv1D_init_eq.
  unfold mbind at 1. rewrite Conv1D_init_eq. cbn [heap rng draws mret ok].
  cbv zeta. heap_norm. reflexivity.
Qed.

Lemma Attention_init_fails F S H scale w :
  H = 0 \/ F mod H <> 0 ->
  Attention.init F S H scale w =
    inl (if H =? 0 then ZeroDivisionError else AssertionError).
Proof.
  intros Hc. unfold Attention.init, pymod.
  destruct (H =? 0) eqn:E0; [reflexivity|].
  apply Nat.eqb_neq in E0. destruct Hc as [Hc|Hc]; [contradiction|].
  unfold mbind at 1. cbn [lift ok].
  destruct (F mod H =? 0) eqn:Em; [apply Nat.eqb_eq in Em; contradiction|].
  reflexivity.
Qed.

Lemma Block_init_ok S F H eps scale w mask :
  0 < H -> F mod H = 0 -> causal_mask S = ok mask ->
  exists blk vals,
    Block.init S F H eps scale w =
      inr (Block_at blk (length (heap w)),
           World (heap w ++ vals) (rng w) (draws w + 4)) /\
    blk = Block.fmap (fun k => nth k vals (zeros [])) (Block_at blk 0) /\
    length vals = 13 /\
    Block_wf S F H blk /\
    LayerNorm.variance_epsilon (Block.ln_1 blk) = eps /\
    LayerNorm.variance_epsilon (Block.ln_2 blk) = eps /\
    Attention.scale (Block.attn blk) = scale.
Proof.
  intros HH Hmod Hmask.
  set (vals := [ones [F]; zeros [F]; mask;
                Tensor [F; F * 3] (rng w (draws w)); zeros [F * 3];
                Tensor [F; F] (rng w (draws w + 1)); zeros [F];
                ones [F]; zeros [F];
                Tensor [F; 4 * F] (rng w (draws w + 2)); zeros [4 * F];
                Tensor [4 * F; F] (rng w (draws w + 3)); zeros [F]]).
  set (blk := Block.mk
    (LayerNorm.mk (nth 0 vals (zeros [])) (nth 1 vals (zeros [])) eps)
    (Attention.mk (nth 2 vals (zeros [])) H F scale
       (Conv1D.mk (F * 3) (nth 3 vals (zeros [])) (nth 4 vals (zeros [])))
       (Conv1D.mk F (nth 5 vals (zeros [])) (nth 6 vals (zeros []))))
    (LayerNorm.mk (nth 7 vals (zeros [])) (nth 8 vals (zeros [])) eps)
    (MLP.mk (Conv1D.mk (4 * F) (nth 9 vals (zeros [])) (nth 10 vals (zeros [])))
            (Conv1D.mk F (nth 11 vals (zeros [])) (nth 12 vals (zeros []))))).
  exists blk, vals. split; [|split; [reflexivity|split; [reflexivity|]]].
  - unfold Block.init.
    unfold mbind at 1. rewrite LayerNorm_init_eq.
    unfold mbind at 1. rewrite (Attention_init_ok F S H scale _ mask HH Hmod Hmask).
    cbv zeta. cbn [heap rng draws].
    unfold mbind at 1. rewrite LayerNorm_init_eq. cbn [heap rng draws].
    unfold mbind at 1. rewrite MLP_init_eq. cbv zeta. cbn [heap rng draws mret ok].
    heap_norm. unfold Block_at, blk, vals. cbn [Block.ln_1 Block.attn Block.ln_2 Block.mlp
      LayerNorm.variance_epsilon Attention.n_head Attention.split_size Attention.scale
      Attention.c_attn Attention.c_proj Conv1D.nf MLP.c_fc MLP.c_proj].
    unfold mret, ok. repeat f_equal; lia.
  - unfold Block_wf, LayerNorm_wf, Attention_wf, MLP_wf, Conv1D_wf, blk, vals. cbn.
    repeat split; try reflexivity; assumption.
Qed.

(** ** Deep copies *)

Lemma mbind_assoc {A B C} (m : M A) (f : A -> M B) (g : B -> M C) w :
  mbind (mbind m f) g w = mbind m (fun a => mbind (f a) g) w.
Proof. unfold mbind. destruct (m w) as [e|[a w']]; reflexivity. Qed.

Lemma mbind_mret {A B} (a : A) (k : A -> M B) w : mbind (mret a) k w = k a w.
Proof. reflexivity. Qed.

Lemma copy_param_step {A} l σ τ r d (k : loc -> M A) :
  l < length σ ->
  mbind (copy_param l) k (World (σ ++ τ) r d)
  = k (length σ + length τ) (World (σ ++ (τ ++ [deref σ l])) r d).
Proof.
  intros Hl. cbv beta iota delta [mbind copy_param read alloc ok heap rng draws].
  rewrite deref_app_old by exact Hl. rewrite length_app, <- app_assoc. reflexivity.
Qed.

Lemma Block_deepcopy_eq b w :
  Forall (fun l => l < length (heap w)) (Block_params b) ->
  Block.deepcopy b w =
    inr (Block_at b (length (heap w)),
         World (heap w ++ map (deref (heap w)) (Block_params b)) (rng w) (draws w)).
Proof.
  intros Hc. unfold Block_params in Hc.
  repeat match goal with
  | H : Forall _ (_ :: _) |- _ => apply Forall_cons in H; destruct H as [? H]
  end.
  destruct w as [σ r d]. cbn [heap rng draws] in *.
  rewrite <- (app_nil_r σ) at 1.
  unfold Block.deepcopy, LayerNorm.deepcopy, Attention.deepcopy, MLP.deepcopy,
    Conv1D.deepcopy.
  repeat (rewrite ?mbind_assoc; rewrite copy_param_step by assumption;
          cbn [length app Nat.add]; rewrite ?mbind_assoc, ?mbind_mret).
  unfold mret, ok, Block_at, Block_params. cbn [map]. rewrite Nat.add_0_r. reflexivity.
Qed.

Lemma length_Block_params {P} (b : Block.t P) : length (Block_params b) = 13.
Proof. reflexivity. Qed.

Lemma Block_at_at {P} (b : Block.t P) n m : Block_at (Block_at b n) m = Block_at b m.
Proof. reflexivity. Qed.

Lemma Block_params_at {P} (b : Block.t P) n :
  Block_params (Block_at b n) = map (fun j => n + j) (seq 0 13).
Proof. unfold Block_params, Block_at. cbn. rewrite Nat.add_0_r. reflexivity. Qed.

(** [nb] copies of a block one after the other: copy [k] sits at
    [13 * k] past the end of the old heap and holds the values of the
    original; the old heap is untouched. *)
Lemma mapM_deepcopy b nb : forall idxs w,
  length idxs = nb ->
  Forall (fun l => l < length (heap w)) (Block_params b) ->
  exists hs w',
    mapM (fun _ : nat => Block.deepcopy b) idxs w = inr (hs, w') /\
    hs = map (fun k => Block_at b (length (heap w) + 13 * k)) (seq 0 nb) /\
    rng w' = rng w /\ draws w' = draws w /\
    length (heap w') = length (heap w) + 13 * nb /\
    (forall l, l < length (heap w) -> deref (heap w') l = deref (heap w) l) /\
    (forall k j, k < nb -> j < 13 ->
       deref (heap w') (length (heap w) + 13 * k + j)
       = deref (heap w) (nth j (Block_params b) 0)).
Proof.
  induction nb as [|nb IH]; intros idxs w Hlen Hc.
  - destruct idxs; [|discriminate]. exists [], w. cbn.
    repeat split; try reflexivity; try lia.
  - destruct idxs as [|i idxs]; [discriminate|]. cbn [mapM].
    unfold mbind at 1. rewrite (Block_deepcopy_eq b w Hc).
    set (w1 := World (heap w ++ map (deref (heap w)) (Block_params b)) (rng w) (draws w)).
    assert (Hl1 : length (heap w1) = length (heap w) + 13).
    { unfold w1. cbn [heap]. rewrite length_app, length_map. reflexivity. }
    destruct (IH idxs w1 ltac:(cbn in Hlen; lia)) as (hs & w' & E & Ehs & Er & Ed & Hl & Hold & Hnew).
    { eapply Forall_impl; [exact Hc|]. cbn beta. intros l Hl. lia. }
    unfold mbind at 1. rewrite E. exists (Block_at b (length (heap w)) :: hs), w'.
    split; [reflexivity|]. split.
    { rewrite Ehs. cbn [seq map]. rewrite Nat.mul_0_r, Nat.add_0_r. f_equal.
      rewrite <- seq_shift, map_map. apply map_ext. intros k. f_equal. lia. }
    split; [rewrite Er; reflexivity|]. split; [rewrite Ed; reflexivity|].
    split; [lia|]. split.
    { intros l Hlt. rewrite Hold by lia. unfold w1. cbn [heap]. apply deref_app_old. exact Hlt. }
    intros k j Hk Hj. destruct k as [|k].
    + rewrite Nat.mul_0_r, Nat.add_0_r. rewrite Hold by lia.
      unfold w1. cbn [heap]. rewrite deref_app_new.
      erewrite nth_indep by (rewrite length_map, length_Block_params; lia).
      rewrite (map_nth (deref (heap w)) (Block_params b) 0 j). reflexivity.
    + replace (length (heap w) + 13 * Datatypes.S k + j)
        with (length (heap w1) + 13 * k + j) by lia.
      rewrite Hnew by lia. unfold w1. cbn [heap]. apply deref_app_old.
      pose proof (proj1 (List.Forall_forall _ _) Hc (nth j (Block_params b) 0)) as Hin.
      apply Hin. apply nth_In. rewrite length_Block_params. exact Hj.
Qed.

(** ** Frames: what an initialisation pass leaves alone *)

Lemma frame_ret T : frame (mret tt) T.
Proof. intros w. exists w. repeat split; reflexivity. Qed.

Lemma frame_weaken m (T T' : loc -> Prop) :
  (forall l, T l -> T' l) -> frame m T -> frame m T'.
Proof.
  intros HT Hm w. destruct (Hm w) as (w' & E & Hl & Hs & Hk).
  exists w'. repeat split; try assumption. intros l Hn. apply Hk. intros Ht. apply Hn, HT, Ht.
Qed.

Lemma frame_bind m1 m2 T :
  frame m1 T -> frame m2 T -> frame (let+ _ := m1 in m2) T.
Proof.
  intros H1 H2 w. destruct (H1 w) as (w1 & E1 & Hl1 & Hs1 & Hk1).
  destruct (H2 w1) as (w2 & E2 & Hl2 & Hs2 & Hk2).
  exists w2. unfold mbind. rewrite E1, E2. split; [reflexivity|].
  split; [congruence|]. split.
  - intros l. rewrite Hs2. apply Hs1.
  - intros l Hn. rewrite Hk2, Hk1 by assumption. reflexivity.
Qed.

Lemma nth_insert_ne {A} (σ : list A) l l' t d : l <> l' -> nth l' (<[l := t]> σ) d = nth l' σ d.
Proof.
  revert l l'. induction σ as [|a σ IH]; intros [|l] [|l'] Hne; cbn; try reflexivity; try lia.
  apply IH. lia.
Qed.

Lemma nth_insert_eq {A} (σ : list A) l t d : l < length σ -> nth l (<[l := t]> σ) d = t.
Proof.
  revert l. induction σ as [|a σ IH]; intros [|l] Hl; cbn in *; try lia; try reflexivity.
  apply IH. lia.
Qed.

Lemma frame_fill l c : frame (fill_ l c) (eq l).
Proof.
  intros w. eexists. unfold fill_. cbv beta iota delta [mbind read write ok]. cbn [heap rng draws].
  split; [reflexivity|]. cbn [heap]. split; [apply length_insert|]. split.
  - intros l'. unfold deref. destruct (Nat.eq_dec l l') as [<-|Hne].
    + destruct (Nat.lt_ge_cases l (length (heap w))) as [Hlt|Hge].
      * rewrite nth_insert_eq by assumption. reflexivity.
      * rewrite list_insert_ge by assumption. reflexivity.
    + rewrite nth_insert_ne by assumption. reflexivity.
  - intros l' Hne. unfold deref. apply nth_insert_ne. exact Hne.
Qed.

Lemma frame_iterM {A} (f : A -> M unit) (T : loc -> Prop) (l : list A) :
  (forall a, In a l -> frame (f a) T) -> frame (iterM f l) T.
Proof.
  induction l as [|a l IH]; intros Hf; cbn [iterM].
  - apply frame_ret.
  - apply frame_bind; [apply Hf; left; reflexivity|].
    apply IH. intros a' Ha'. apply Hf. right. exact Ha'.
Qed.

(** The initialiser touches the two parameters of a normalization module
    and nothing of any other module of this file. *)
Lemma frame_init_LayerNorm l :
  frame (GPT2._init_weights (LayerNorm.as_module l))
        (fun x => x = LayerNorm.weight l \/ x = LayerNorm.bias l).
Proof.
  unfold GPT2._init_weights, LayerNorm.as_module, isinstance. cbn.
  apply frame_bind; [|apply frame_ret].
  unfold getattr. unfold zero_.
  intros w. destruct (frame_fill (LayerNorm.bias l) 0%R w) as (w1 & E1 & Hl1 & Hs1 & Hk1).
  destruct (frame_fill (LayerNorm.weight l) 1%R w1) as (w2 & E2 & Hl2 & Hs2 & Hk2).
  exists w2. cbv beta iota delta [mbind mret ok]. rewrite E1, E2.
  split; [reflexivity|]. split; [congruence|]. split.
  - intros x. rewrite Hs2. apply Hs1.
  - intros x Hn. rewrite Hk2, Hk1; [reflexivity| |]; intros E; apply Hn; subst x; auto.
Qed.

Lemma frame_init_other c w b :
  isinstance (Module_ c w b) [ClsLinear; ClsEmbedding; ClsLayerNorm] = false ->
  frame (GPT2._init_weights (Module_ c w b)) (fun _ => False).
Proof.
  intros Hc. unfold GPT2._init_weights.
  destruct c; try discriminate Hc; cbn; apply frame_bind; apply frame_ret.
Qed.

Lemma frame_apply_Conv1D c T : frame (Conv1D.apply GPT2._init_weights c) T.
Proof.
  unfold Conv1D.apply, Conv1D.as_module.
  eapply frame_weaken; [|apply frame_init_other; reflexivity]. intros ? [].
Qed.

Lemma frame_apply_MLP m T : frame (MLP.apply GPT2._init_weights m) T.
Proof.
  unfold MLP.apply, MLP.as_module.
  apply frame_bind; [apply frame_apply_Conv1D|].
  apply frame_bind; [apply frame_apply_Conv1D|].
  eapply frame_weaken; [|apply frame_init_other; reflexivity]. intros ? [].
Qed.

Lemma frame_apply_Attention a T : frame (Attention.apply GPT2._init_weights a) T.
Proof.
  unfold Attention.apply, Attention.as_module.
  apply frame_bind; [apply frame_apply_Conv1D|].
  apply frame_bind; [apply frame_apply_Conv1D|].
  eapply frame_weaken; [|apply frame_init_other; reflexivity]. intros ? [].
Qed.

Lemma frame_apply_Block b :
  frame (Block.apply GPT2._init_weights b) (fun x => In x (Block_ln_params b)).
Proof.
  unfold Block.apply, LayerNorm.apply, Block.as_module.
  apply frame_bind.
  { eapply frame_weaken; [|apply frame_init_LayerNorm].
    intros x [->| ->]; cbn; auto. }
  apply frame_bind; [apply frame_apply_Attention|].
  apply frame_bind.
  { eapply frame_weaken; [|apply frame_init_LayerNorm].
    intros x [->| ->]; cbn; auto. }
  apply frame_bind; [apply frame_apply_MLP|].
  eapply frame_weaken; [|apply frame_init_other; reflexivity]. intros ? [].
Qed.

Lemma frame_apply_GPT2 g :
  frame (GPT2.apply GPT2._init_weights g)
        (fun x => (exists b, In b (GPT2.h g) /\ In x (Block_ln_params b))
                  \/ x = LayerNorm.weight (GPT2.ln_f g) \/ x = LayerNorm.bias (GPT2.ln_f g)).
Proof.
  unfold GPT2.apply, LayerNorm.apply.
  apply frame_bind.
  { apply frame_iterM. intros b Hb. eapply frame_weaken; [|apply frame_apply_Block].
    intros x Hx. left. exists b. split; assumption. }
  apply frame_bind.
  { eapply frame_weaken; [|apply frame_init_other; reflexivity]. intros ? []. }
  apply frame_bind.
  { eapply frame_weaken; [|apply frame_init_LayerNorm]. intros x Hx. right. exact Hx. }
  eapply frame_weaken; [|apply frame_init_other; reflexivity]. intros ? [].
Qed.

(** ** Construction of the stack *)

Lemma getitem_tuple_last2 pre (a b : nat) : GPT2.getitem_tuple (pre ++ [a; b]) (-2) = ok a.
Proof.
  unfold GPT2.getitem_tuple. rewrite length_app. cbn [length].
  rewrite pydim_last2 by lia. rsimpl. f_equal.
  rewrite app_nth2 by lia. replace (length pre + 2 - 2 - length pre) with 0 by lia. reflexivity.
Qed.

Lemma getitem_tuple_last pre (a b : nat) : GPT2.getitem_tuple (pre ++ [a; b]) (-1) = ok b.
Proof.
  unfold GPT2.getitem_tuple. rewrite length_app. cbn [length].
  rewrite pydim_last by lia. rsimpl. f_equal.
  rewrite app_nth2 by lia. replace (length pre + 2 - 1 - length pre) with 1 by lia. reflexivity.
Qed.

Lemma getitem_tuple_short s : length s < 2 -> GPT2.getitem_tuple s (-2) = raise IndexError.
Proof.
  intros Hl. unfold GPT2.getitem_tuple, pydim.
  destruct (0 <=? -2)%Z eqn:E; [apply Z.leb_le in E; lia|]. cbn [andb].
  replace ((- Z.of_nat (length s) <=? -2)%Z) with false by (symmetry; apply Z.leb_gt; lia).
  rewrite andb_false_r. reflexivity.
Qed.

Lemma split_last2 (s : list nat) : 2 <= length s -> exists pre a b, s = pre ++ [a; b].
Proof.
  intros Hl. destruct (rev s) as [|b [|a r]] eqn:E.
  - apply (f_equal (@length nat)) in E. rewrite length_rev in E. cbn in E. lia.
  - apply (f_equal (@length nat)) in E. rewrite length_rev in E. cbn in E. lia.
  - exists (rev r), a, b. rewrite <- (rev_involutive s), E. cbn [rev].
    rewrite <- app_assoc. reflexivity.
Qed.

Lemma GPT2_init_ok pre S F nb H eps w :
  0 < H -> F mod H = 0 ->
  exists g w' blk,
    GPT2.init (pre ++ [S; F]) nb H eps w = inr (g, w') /\
    let n1 := length (heap w) + 13 in
    GPT2.h g = map (fun k => Block_at blk (n1 + 13 * k)) (seq 0 nb) /\
    GPT2.nb_layer g = nb /\ GPT2.input_shape g = pre ++ [S; F] /\
    GPT2.ln_f g = LayerNorm.mk (n1 + 13 * nb) (n1 + 13 * nb + 1) eps /\
    Block_wf S F H blk /\
    LayerNorm.variance_epsilon (Block.ln_1 blk) = eps /\
    LayerNorm.variance_epsilon (Block.ln_2 blk) = eps /\
    (forall k j, k < nb -> kept_offset j ->
       deref (heap w') (n1 + 13 * k + j) = nth j (Block_params blk) (zeros [])) /\
    (forall k j, k < nb -> j < 13 ->
       shape (deref (heap w') (n1 + 13 * k + j)) = shape (nth j (Block_params blk) (zeros []))) /\
    shape (deref (heap w') (n1 + 13 * nb)) = [F] /\
    shape (deref (heap w') (n1 + 13 * nb + 1)) = [F].
Proof.
  intros HH Hmod. destruct (causal_mask_ok S) as (mask & Hmask).
  unfold GPT2.init.
  unfold mbind at 1. rewrite getitem_tuple_last2. cbn [lift ok].
  unfold mbind at 1. rewrite getitem_tuple_last. cbn [lift ok].
  destruct (Block_init_ok S F H eps true w mask HH Hmod Hmask)
    as (blk & vals & Ei & Eblk & Lvals & Wf & Ee1 & Ee2 & _).
  unfold mbind at 1. rewrite Ei.
  set (w1 := World (heap w ++ vals) (rng w) (draws w + 4)).
  assert (Hl1 : length (heap w1) = length (heap w) + 13).
  { unfold w1. cbn [heap]. rewrite length_app. lia. }
  assert (Hv : forall j, j < 13 ->
            deref (heap w1) (length (heap w) + j) = nth j (Block_params blk) (zeros [])).
  { intros j Hj. unfold w1. cbn [heap]. rewrite deref_app_new.
    rewrite Eblk at 1. unfold Block_params, Block.fmap, LayerNorm.fmap, Attention.fmap,
      MLP.fmap, Conv1D.fmap, Block_at.
    cbn [Block.ln_1 Block.attn Block.ln_2 Block.mlp LayerNorm.weight LayerNorm.bias
         Attention.bias Attention.c_attn Attention.c_proj Conv1D.weight Conv1D.bias
         MLP.c_fc MLP.c_proj Nat.add].
    do 13 (destruct j as [|j]; [reflexivity|]). lia. }
  destruct (mapM_deepcopy (Block_at blk (length (heap w))) nb (seq 0 nb) w1)
    as (hs & w2 & Em & Ehs & Er & Ed & Hl2 & Hold & Hnew).
  { apply length_seq. }
  { rewrite Block_params_at. apply List.Forall_forall. intros l Hin.
    apply in_map_iff in Hin. destruct Hin as (j & <- & Hj). apply in_seq in Hj. lia. }
  unfold mbind at 1. rewrite Em.
  unfold mbind at 1. rewrite LayerNorm_init_eq.
  change (default LayerNorm.default_eps (Some eps)) with eps.
  set (w3 := World (heap w2 ++ [ones [F]; zeros [F]]) (rng w2) (draws w2)).
  set (g := GPT2.mk (pre ++ [S; F]) nb hs
              (LayerNorm.mk (length (heap w2)) (length (heap w2) + 1) eps)).
  destruct (frame_apply_GPT2 g w3) as (w4 & Ea & Hl4 & Hs4 & Hk4).
  unfold mbind at 1. rewrite Ea. cbn [mret ok].
  exists g, w4, blk. split; [reflexivity|]. cbv zeta.
  rewrite Hl1 in *.
  assert (Ehs' : hs = map (fun k => Block_at blk (length (heap w) + 13 + 13 * k)) (seq 0 nb)).
  { rewrite Ehs. apply map_ext. intros k. apply Block_at_at. }
  clear Ehs. rename Ehs' into Ehs.
  assert (Hl3 : length (heap w3) = length (heap w) + 13 + 13 * nb + 2).
  { unfold w3. cbn [heap]. rewrite length_app. cbn [length]. lia. }
  assert (H3 : forall k j, k < nb -> j < 13 ->
            deref (heap w3) (length (heap w) + 13 + 13 * k + j)
            = nth j (Block_params blk) (zeros [])).
  { intros k j Hk Hj. unfold w3. cbn [heap]. rewrite deref_app_old by lia.
    rewrite Hnew by assumption. rewrite Block_params_at.
    rewrite (nth_indep _ 0 (length (heap w) + 0))
      by (rewrite length_map, length_seq; exact Hj).
    rewrite (map_nth (fun j => length (heap w) + j) (seq 0 13) 0 j).
    rewrite seq_nth by assumption. apply Hv. exact Hj. }
  split; [exact Ehs|]. split; [reflexivity|]. split; [reflexivity|].
  split; [unfold g; cbn [GPT2.ln_f]; rewrite Hl2; reflexivity|].
  split; [exact Wf|]. split; [exact Ee1|]. split; [exact Ee2|].
  split; [|split; [|split]].
  - intros k j Hk Hj. rewrite Hk4; [apply H3; [assumption|unfold kept_offset in Hj; lia]|].
    unfold g. cbn [GPT2.h GPT2.ln_f LayerNorm.weight LayerNorm.bias].
    intros [(b & Hb & Hx)|[Hx|Hx]].
    + rewrite Ehs in Hb. apply in_map_iff in Hb. destruct Hb as (k' & <- & Hk').
      apply in_seq in Hk'. unfold Block_ln_params, Block_at in Hx.
      cbn [Block.ln_1 Block.ln_2 LayerNorm.weight LayerNorm.bias In] in Hx.
      unfold kept_offset in Hj. lia.
    + unfold kept_offset in Hj. lia.
    + unfold kept_offset in Hj. lia.
  - intros k j Hk Hj. rewrite Hs4. rewrite H3 by assumption. reflexivity.
  - rewrite Hs4. unfold w3. cbn [heap].
    replace (length (heap w) + 13 + 13 * nb) with (length (heap w2) + 0) by lia.
    rewrite deref_app_new. reflexivity.
  - rewrite Hs4. unfold w3. cbn [heap].
    replace (length (heap w) + 13 + 13 * nb + 1) with (length (heap w2) + 1) by lia.
    rewrite deref_app_new. reflexivity.
Qed.

Lemma GPT2_init_inv s nb H eps w g w' :
  GPT2.init s nb H eps w = inr (g, w') ->
  exists pre S F, s = pre ++ [S; F] /\ 0 < H /\ F mod H = 0.
Proof.
  intros E. destruct (Nat.lt_ge_cases (length s) 2) as [Hs|Hs].
  { unfold GPT2.init in E. unfold mbind at 1 in E.
    rewrite getitem_tuple_short in E by assumption. discriminate E. }
  destruct (split_last2 s Hs) as (pre & S & F & ->).
  exists pre, S, F. split; [reflexivity|].
  destruct (Nat.eq_dec H 0) as [H0|H0]; [|destruct (Nat.eq_dec (F mod H) 0) as [Hm|Hm]].
  - exfalso. unfold GPT2.init in E.
    unfold mbind at 1 in E. rewrite getitem_tuple_last2 in E. cbn [lift ok] in E.
    unfold mbind at 1 in E. rewrite getitem_tuple_last in E. cbn [lift ok] in E.
    unfold mbind at 1 in E. unfold Block.init in E.
    unfold mbind at 1 in E. rewrite LayerNorm_init_eq in E.
    unfold mbind at 1 in E.
    rewrite Attention_init_fails in E by (left; exact H0). discriminate E.
  - split; [lia|exact Hm].
  - exfalso. unfold GPT2.init in E.
    unfold mbind at 1 in E. rewrite getitem_tuple_last2 in E. cbn [lift ok] in E.
    unfold mbind at 1 in E. rewrite getitem_tuple_last in E. cbn [lift ok] in E.
    unfold mbind at 1 in E. unfold Block.init in E.
    unfold mbind at 1 in E. rewrite LayerNorm_init_eq in E.
    unfold mbind at 1 in E.
    rewrite Attention_init_fails in E by (right; exact Hm). discriminate E.
Qed.

(** ** From the store to the values [forward] reads *)

Lemma Block_fmap_at (blk : Block.t tensor) (f : loc -> tensor) n :
  (forall j, j < 13 -> f (n + j) = nth j (Block_params blk) (zeros [])) ->
  Block.fmap f (Block_at blk n) = blk.
Proof.
  intros Hf. destruct blk as [[w1 b1 e1] [mb nh ss sc [n1 cw1 cb1] [n2 cw2 cb2]] [w2 b2 e2]
                                [[n3 cw3 cb3] [n4 cw4 cb4]]].
  unfold Block_at, Block.fmap, LayerNorm.fmap, Attention.fmap, MLP.fmap, Conv1D.fmap.
  cbn [Block.ln_1 Block.attn Block.ln_2 Block.mlp LayerNorm.weight LayerNorm.bias
       LayerNorm.variance_epsilon Attention.bias Attention.n_head Attention.split_size
       Attention.scale Attention.c_attn Attention.c_proj Conv1D.nf Conv1D.weight Conv1D.bias
       MLP.c_fc MLP.c_proj].
  pose proof (Hf 0 ltac:(lia)) as H0. rewrite Nat.add_0_r in H0.
  rewrite H0, !Hf by lia. reflexivity.
Qed.

Lemma Block_init_inv S F H eps scale w b w' :
  Block.init S F H eps scale w = inr (b, w') -> 0 < H /\ F mod H = 0.
Proof.
  intros E.
  destruct (Nat.eq_dec H 0) as [H0|H0]; [|destruct (Nat.eq_dec (F mod H) 0) as [Hm|Hm]].
  - exfalso. unfold Block.init in E.
    unfold mbind at 1 in E. rewrite LayerNorm_init_eq in E.
    unfold mbind at 1 in E.
    rewrite Attention_init_fails in E by (left; exact H0). discriminate E.
  - split; [lia|exact Hm].
  - exfalso. unfold Block.init in E.
    unfold mbind at 1 in E. rewrite LayerNorm_init_eq in E.
    unfold mbind at 1 in E.
    rewrite Attention_init_fails in E by (right; exact Hm). discriminate E.
Qed.

Lemma Block_init_load S F H eps scale w b w' :
  Block.init S F H eps scale w = inr (b, w') ->
  Block_wf S F H (Block.fmap (deref (heap w')) b).
Proof.
  intros E. destruct (Block_init_inv _ _ _ _ _ _ _ _ E) as [HH Hmod].
  destruct (causal_mask_ok S) as (mask & Hmask).
  destruct (Block_init_ok S F H eps scale w mask HH Hmod Hmask)
    as (blk & vals & Ei & Eblk & Lvals & Wf & _).
  rewrite Ei in E. injection E as <- <-. cbn [heap].
  rewrite Block_fmap_at; [exact Wf|].
  intros j Hj. rewrite deref_app_new.
  rewrite Eblk at 1. unfold Block_params, Block.fmap, LayerNorm.fmap, Attention.fmap,
    MLP.fmap, Conv1D.fmap, Block_at.
  cbn [Block.ln_1 Block.attn Block.ln_2 Block.mlp LayerNorm.weight LayerNorm.bias
       Attention.bias Attention.c_attn Attention.c_proj Conv1D.weight Conv1D.bias
       MLP.c_fc MLP.c_proj Nat.add].
  do 13 (destruct j as [|j]; [reflexivity|]). lia.
Qed.

Lemma shape_wf_transfer S F H (blk b' : Block.t tensor) :
  Block_wf S F H blk ->
  Forall2 (fun t t' => shape t' = shape t) (Block_params blk) (Block_params b') ->
  Attention.bias (Block.attn b') = Attention.bias (Block.attn blk) ->
  Attention.n_head (Block.attn b') = Attention.n_head (Block.attn blk) ->
  Attention.split_size (Block.attn b') = Attention.split_size (Block.attn blk) ->
  Conv1D.nf (Attention.c_attn (Block.attn b')) = Conv1D.nf (Attention.c_attn (Block.attn blk)) ->
  Conv1D.nf (Attention.c_proj (Block.attn b')) = Conv1D.nf (Attention.c_proj (Block.attn blk)) ->
  Conv1D.nf (MLP.c_fc (Block.mlp b')) = Conv1D.nf (MLP.c_fc (Block.mlp blk)) ->
  Conv1D.nf (MLP.c_proj (Block.mlp b')) = Conv1D.nf (MLP.c_proj (Block.mlp blk)) ->
  Block_wf S F H b'.
Proof.
  intros ((L1w & L1b) & (EH & ES & HH & Hmod & Hm & (Ww & Wb) & Nc & (Pw & Pb) & Np)
          & (L2w & L2b) & ((Fw & Fb) & Nf & (Qw & Qb) & Nq)) Hsh Eb En Ess N1 N2 N3 N4.
  unfold Block_params in Hsh.
  repeat match goal with
  | H : Forall2 _ (_ :: _) (_ :: _) |- _ =>
      apply Forall2_cons in H; destruct H as [? H]
  end.
  unfold Block_wf, LayerNorm_wf, Attention_wf, MLP_wf, Conv1D_wf.
  rewrite Eb, En, Ess, N1, N2, N3, N4.
  repeat split; try assumption; congruence.
Qed.

Lemma GPT2_init_wf pre S F nb H eps w g w' :
  GPT2.init (pre ++ [S; F]) nb H eps w = inr (g, w') ->
  GPT2_wf S F H (GPT2.fmap (deref (heap w')) g).
Proof.
  intros E. destruct (GPT2_init_inv _ _ _ _ _ _ _ E) as (pre' & S' & F' & Es & HH & Hmod).
  assert (Es2 : (pre ++ [S]) ++ [F] = (pre' ++ [S']) ++ [F'])
    by (rewrite <- !app_assoc; exact Es).
  apply app_inj_tail in Es2. destruct Es2 as [Es2 <-].
  apply app_inj_tail in Es2. destruct Es2 as [_ <-]. clear Es.
  destruct (GPT2_init_ok pre S F nb H eps w HH Hmod)
    as (g0 & w0 & blk & E0 & Hh & Hn & _ & Hf & Wf & _ & _ & Hkeep & Hshape & Sf1 & Sf2).
  rewrite E0 in E. injection E as <- <-.
  unfold GPT2_wf, GPT2.fmap. cbn [GPT2.h GPT2.nb_layer GPT2.ln_f].
  rewrite Hh, Hf, Hn. split; [rewrite !length_map, length_seq; reflexivity|]. split.
  - rewrite map_map. apply List.Forall_forall. intros b' Hin.
    apply in_map_iff in Hin. destruct Hin as (k & <- & Hk). apply in_seq in Hk.
    set (n := length (heap w) + 13 + 13 * k).
    assert (Hkj : forall j, kept_offset j -> deref (heap w0) (n + j) = nth j (Block_params blk) (zeros [])).
    { intros j Hj. apply Hkeep; [lia|exact Hj]. }
    assert (Hsj : forall j, j < 13 ->
              shape (deref (heap w0) (n + j)) = shape (nth j (Block_params blk) (zeros []))).
    { intros j Hj. apply Hshape; [lia|exact Hj]. }
    apply (shape_wf_transfer S F H blk); try reflexivity; [exact Wf| |].
    + unfold Block_params, Block.fmap, LayerNorm.fmap, Attention.fmap, MLP.fmap,
        Conv1D.fmap, Block_at.
      cbn [Block.ln_1 Block.attn Block.ln_2 Block.mlp LayerNorm.weight LayerNorm.bias
           Attention.bias Attention.c_attn Attention.c_proj Conv1D.weight Conv1D.bias
           MLP.c_fc MLP.c_proj].
      pose proof (Hsj 0 ltac:(lia)) as H0. rewrite Nat.add_0_r in H0.
      repeat (constructor; [first [exact H0 | apply Hsj; lia]|]).
      constructor.
    + unfold Block.fmap, Attention.fmap, Block_at.
      cbn [Block.attn Attention.bias]. apply (Hkj 2). unfold kept_offset. lia.
  - unfold LayerNorm_wf, LayerNorm.fmap. cbn [LayerNorm.weight LayerNorm.bias].
    split; assumption.
Qed.

(** ** Causality up to the softmax *)


Lemma softmax_row_ext n row row' j :
  (forall k, k < n -> row k = row' k) -> j < n ->
  softmax_row n row j = softmax_row n row' j.
Proof.
  intros He Hj. unfold softmax_row. rewrite (He j Hj). f_equal.
  apply sum_n_ext. intros k Hk. rewrite He by assumption. reflexivity.
Qed.


(** ** Sums and softmax rows *)











(** ** Fixtures *)

Lemma ex_attn_wf : Attention_wf 2 2 1 ex_attn.
Proof. unfold Attention_wf, Conv1D_wf. repeat split; try reflexivity. cbn. lia. Qed.

Lemma ex_block_wf : Block_wf 2 2 1 ex_block.
Proof.
  unfold Block_wf, LayerNorm_wf, MLP_wf, Conv1D_wf.
  repeat split; try reflexivity; try apply ex_attn_wf.
Qed.

Lemma ex_gpt2_wf : GPT2_wf 2 2 1 ex_gpt2.
Proof.
  unfold GPT2_wf. split; [reflexivity|]. split.
  - repeat constructor; apply ex_block_wf.
  - split; reflexivity.
Qed.


(** ** C1 *)





(** ** C2 *)

(** C2: on an input of shape (B,T,F) and a cache that fits, the block
    normalizes [x], runs attention on the normalized tensor, adds the
    result to the raw [x], normalizes that sum, runs the feed-forward
    network on it and adds the result to the sum; it returns the second
    sum with the cache the attention returned. *)
Theorem block_pre_norm_residual blk x past S F H B T P :
  Block_wf S F H blk -> 0 < F -> shape x = [B; T; F] ->
  past_ok B H (F / H) P past -> P + T <= S ->
  exists n1 a present x1 n2 m out,
    LayerNorm.forward (Block.ln_1 blk) x = ok n1 /\
    Attention.forward (Block.attn blk) n1 past = ok (a, present) /\
    shape x1 = [B; T; F] /\
    LayerNorm.forward (Block.ln_2 blk) x1 = ok n2 /\
    MLP.forward (Block.mlp blk) n2 = ok m /\
    Block.forward blk x past = ok (out, present) /\
    shape out = [B; T; F] /\
    forall b t f, b < B -> t < T -> f < F ->
      elem x1 [b; t; f] = (elem x [b; t; f] + elem a [b; t; f])%R /\
      elem out [b; t; f] = (elem x1 [b; t; f] + elem m [b; t; f])%R.
Proof.
  intros Wf HF Sx Hp HS.
  destruct (Block_forward_spec blk x past S F H B T P Wf HF Sx Hp HS)
    as (n1 & a & present & x1 & n2 & m & out & E1 & Ea & Ex1 & E2 & Em & Eo & Ef & So & _ & Hel).
  assert (Sx1 : shape x1 = [B; T; F]).
  { destruct Wf as (W1 & Wa & _).
    destruct (LayerNorm_forward_spec _ x [B; T] F W1 Sx) as (n1' & E1' & S1 & _).
    rewrite E1 in E1'. injection E1' as <-.
    destruct (Attention_forward_spec _ n1 past F S H B T P Wa HF S1 Hp HS)
      as (? & ? & ? & pr & ? & a' & _ & _ & _ & Ea' & Sa & _).
    rewrite Ea in Ea'. injection Ea' as <- <-.
    destruct (tadd3_spec x a B T F Sx Sa) as (x1' & Ex1' & Sx1 & _).
    rewrite Ex1 in Ex1'. injection Ex1' as <-. exact Sx1. }
  exists n1, a, present, x1, n2, m, out.
  split; [exact E1|]. split; [exact Ea|]. split; [exact Sx1|]. split; [exact E2|].
  split; [exact Em|]. split; [exact Ef|]. split; [exact So|]. exact Hel.
Qed.

Lemma block_pre_norm_residual_witness :
  exists n1 a present x1 n2 m out,
    LayerNorm.forward (Block.ln_1 ex_block) (ex_x 2) = ok n1 /\
    Attention.forward (Block.attn ex_block) n1 None = ok (a, present) /\
    shape x1 = [1; 2; 2] /\
    LayerNorm.forward (Block.ln_2 ex_block) x1 = ok n2 /\
    MLP.forward (Block.mlp ex_block) n2 = ok m /\
    Block.forward ex_block (ex_x 2) None = ok (out, present) /\
    shape out = [1; 2; 2] /\
    forall b t f, b < 1 -> t < 2 -> f < 2 ->
      elem x1 [b; t; f] = (elem (ex_x 2) [b; t; f] + elem a [b; t; f])%R /\
      elem out [b; t; f] = (elem x1 [b; t; f] + elem m [b; t; f])%R.
Proof.
  apply (block_pre_norm_residual ex_block (ex_x 2) None 2 2 1 1 2 0 ex_block_wf);
    try reflexivity; lia.
Defined.

(** ** C3 *)

(** C3: with nd query rows and ns key columns, ns within the maximum, the
    sliced mask is rows ns-nd.. and columns 0.. of the lower-triangular
    buffer, the masked score is score * b - 1e10 * (1 - b), that is the
    score where the mask is 1 and the finite number -1e10 where it is 0,
    and the softmax is taken of these masked scores. *)
Theorem mask_bias_rule a S q k v B H D nd ns :
  causal_mask S = ok (Attention.bias a) ->
  shape q = [B; H; nd; D] -> shape k = [B; H; D; ns] -> shape v = [B; H; ns; D] ->
  nd <= ns -> ns <= S ->
  exists b w,
    Attention.mask_slice a nd ns = ok b /\ shape b = [1; 1; nd; ns] /\
    (forall i j, i < nd -> j < ns ->
       elem b [0; 0; i; j] = elem (Attention.bias a) [0; 0; ns - nd + i; j] /\
       elem b [0; 0; i; j] = tril_entry (ns - nd + i) j) /\
    Attention.masked_scores a q k v = ok w /\ shape w = [B; H; nd; ns] /\
    (forall b0 h i j, b0 < B -> h < H -> i < nd -> j < ns ->
       let m := elem b [0; 0; i; j] in
       elem w [b0; h; i; j] = (score a D q k b0 h i j * m - 1e10 * (1 - m))%R /\
       (j <= ns - nd + i -> elem w [b0; h; i; j] = score a D q k b0 h i j) /\
       (ns - nd + i < j -> elem w [b0; h; i; j] = (- 1e10)%R)) /\
    Attention._attn a q k v = (let* p := softmax_last w in matmul p v).
Proof.
  intros Hm Sq Sk Sv Hle HS.
  destruct (masked_scores_spec a S q k v B H D nd ns Hm Sq Sk Sv Hle HS)
    as (b & w & Eb & Sb & Hb & Ew & Sw & Hw).
  destruct (mask_slice_spec a S nd ns Hm Hle) as (b' & Eb' & _ & Hb').
  rewrite Eb in Eb'. injection Eb' as <-.
  exists b, w. split; [exact Eb|]. split; [exact Sb|]. split.
  { intros i j Hi Hj. split; [|apply Hb; assumption].
    rewrite Hb'. replace ((ns - nd) `min` S) with (ns - nd) by lia. reflexivity. }
  split; [exact Ew|]. split; [exact Sw|]. split.
  - intros b0 h i j Hb0 Hh Hi Hj. cbv zeta.
    pose proof (Hw b0 h i j Hb0 Hh Hi Hj) as E. cbv zeta in E.
    split; [exact E|]. rewrite E, (Hb i j Hi Hj). unfold tril_entry. split; intros Hc.
    + replace (j <=? ns - nd + i) with true by (symmetry; apply Nat.leb_le; exact Hc). lra.
    + replace (j <=? ns - nd + i) with false by (symmetry; apply Nat.leb_gt; exact Hc). lra.
  - unfold Attention._attn. rewrite Ew. reflexivity.
Qed.

Lemma mask_bias_rule_witness :
  exists b w,
    Attention.mask_slice ex_attn 1 2 = ok b /\ shape b = [1; 1; 1; 2] /\
    (forall i j, i < 1 -> j < 2 ->
       elem b [0; 0; i; j] = elem (Attention.bias ex_attn) [0; 0; 2 - 1 + i; j] /\
       elem b [0; 0; i; j] = tril_entry (2 - 1 + i) j) /\
    Attention.masked_scores ex_attn ex_q ex_kv ex_kv
      = ok w /\
    shape w = [1; 1; 1; 2] /\
    (forall b0 h i j, b0 < 1 -> h < 1 -> i < 1 -> j < 2 ->
       let m := elem b [0; 0; i; j] in
       elem w [b0; h; i; j]
         = (score ex_attn 2 ex_q ex_kv b0 h i j * m
            - 1e10 * (1 - m))%R /\
       (j <= 2 - 1 + i ->
          elem w [b0; h; i; j]
            = score ex_attn 2 ex_q ex_kv b0 h i j) /\
       (2 - 1 + i < j -> elem w [b0; h; i; j] = (- 1e10)%R)) /\
    Attention._attn ex_attn ex_q ex_kv ex_kv
      = (let* p := softmax_last w in matmul p ex_kv).
Proof.
  apply (mask_bias_rule ex_attn 2 ex_q ex_kv ex_kv
           1 1 2 1 2); try reflexivity; lia.
Defined.

(** ** C4 *)

(** C4 (counterexample): one position, one head of two features, no
    cache.  The key entry of the returned cache has shape (1,1,1,2), the
    orientation of the value, not the key-cache orientation (1,1,2,1). *)
Lemma returned_key_is_transposed :
  exists out present pk,
    Attention.forward ex_attn (ex_x 1) None = ok (out, present) /\
    getitem present 0 = ok pk /\
    shape pk <> [1; 1; 2; 1].
Proof.
  destruct (Attention_forward_spec ex_attn (ex_x 1) None 2 2 1 1 1 0 ex_attn_wf
              ltac:(lia) eq_refl eq_refl ltac:(lia))
    as (q & k & v & present & w & out & _ & _ & _ & Ef & _ & Sp & _).
  exists out, present. unfold getitem. rewrite Sp. cbn [Nat.ltb Nat.leb].
  eexists. split; [exact Ef|]. split; [reflexivity|].
  cbn [shape]. change (2 / 1) with 2. discriminate.
Qed.

(** C4 (amended): the returned cache is one stacked tensor of shape
    (2,B,H,P+T,F/H).  Its entry 0 is the extended key transposed to the
    shape of the value, its entry 1 the extended value.  Fed as the cache
    of the next call it is transposed back to (B,H,F/H,P+T) and put in
    front of the next key and value. *)
Theorem returned_cache a x past F S H B T P :
  Attention_wf F S H a -> 0 < F -> shape x = [B; T; F] ->
  past_ok B H (F / H) P past -> P + T <= S ->
  exists q key value present out pk pv kt,
    Attention.qkv a x past = ok (q, key, value, present) /\
    Attention.forward a x past = ok (out, present) /\
    shape key = [B; H; F / H; P + T] /\ shape value = [B; H; P + T; F / H] /\
    shape present = [2; B; H; P + T; F / H] /\
    getitem present 0 = ok pk /\ shape pk = [B; H; P + T; F / H] /\
    getitem present 1 = ok pv /\ shape pv = [B; H; P + T; F / H] /\
    transpose_last2 pk = ok kt /\ shape kt = [B; H; F / H; P + T] /\
    (forall b h d j, elem kt [b; h; d; j] = elem key [b; h; d; j] /\
                     elem pv [b; h; j; d] = elem value [b; h; j; d]) /\
    forall knew vnew T',
      shape knew = [B; H; F / H; T'] -> shape vnew = [B; H; T'; F / H] ->
      exists k2 v2,
        Attention.extend_past (Some present) knew vnew = ok (k2, v2) /\
        shape k2 = [B; H; F / H; P + T + T'] /\ shape v2 = [B; H; P + T + T'; F / H] /\
        forall b h d j,
          elem k2 [b; h; d; j] =
            (if j <? P + T then elem key [b; h; d; j] else elem knew [b; h; d; j - (P + T)]) /\
          elem v2 [b; h; j; d] =
            (if j <? P + T then elem value [b; h; j; d] else elem vnew [b; h; j - (P + T); d]).
Proof.
  intros Wf HF Sx Hp HS.
  destruct (qkv_spec a x past F S H B T P Wf HF Sx Hp)
    as (q & key & value & present & Eq & Sq & Sk & Sv & Sp & _ & _ & Hpr).
  destruct (Attention_forward_spec a x past F S H B T P Wf HF Sx Hp HS)
    as (q1 & k1 & v1 & p1 & w & out & Eq1 & _ & _ & Ef & _ & _ & _).
  rewrite Eq in Eq1. injection Eq1 as <- <- <- <-.
  exists q, key, value, present, out.
  unfold getitem. rewrite Sp. cbn [Nat.ltb Nat.leb].
  unfold transpose_last2, rank. cbn [shape length Nat.leb swap_last2].
  do 3 eexists.
  split; [exact Eq|]. split; [exact Ef|]. split; [exact Sk|]. split; [exact Sv|].
  split; [reflexivity|]. split; [reflexivity|]. split; [reflexivity|].
  split; [reflexivity|]. split; [reflexivity|]. split; [reflexivity|].
  split; [reflexivity|]. split.
  - intros b h d j. cbn [elem swap_last2]. apply Hpr.
  - intros knew vnew T' Sk' Sv'.
    destruct (extend_past_spec (Some present) knew vnew B H (F / H) (P + T) T' Sp Sk' Sv')
      as (k2 & v2 & Ee & Sk2 & Sv2 & He).
    exists k2, v2. split; [exact Ee|]. split; [exact Sk2|]. split; [exact Sv2|].
    intros b h d j. destruct (He b h d j) as [-> ->]. cbn [past_elem].
    destruct (Hpr b h j d) as [-> ->]. split; reflexivity.
Qed.

Lemma returned_cache_witness :
  exists q key value present out pk pv kt,
    Attention.qkv ex_attn (ex_x 1) None = ok (q, key, value, present) /\
    Attention.forward ex_attn (ex_x 1) None = ok (out, present) /\
    shape key = [1; 1; 2 / 1; 0 + 1] /\ shape value = [1; 1; 0 + 1; 2 / 1] /\
    shape present = [2; 1; 1; 0 + 1; 2 / 1] /\
    getitem present 0 = ok pk /\ shape pk = [1; 1; 0 + 1; 2 / 1] /\
    getitem present 1 = ok pv /\ shape pv = [1; 1; 0 + 1; 2 / 1] /\
    transpose_last2 pk = ok kt /\ shape kt = [1; 1; 2 / 1; 0 + 1] /\
    (forall b h d j, elem kt [b; h; d; j] = elem key [b; h; d; j] /\
                     elem pv [b; h; j; d] = elem value [b; h; j; d]) /\
    forall knew vnew T',
      shape knew = [1; 1; 2 / 1; T'] -> shape vnew = [1; 1; T'; 2 / 1] ->
      exists k2 v2,
        Attention.extend_past (Some present) knew vnew = ok (k2, v2) /\
        shape k2 = [1; 1; 2 / 1; 0 + 1 + T'] /\ shape v2 = [1; 1; 0 + 1 + T'; 2 / 1] /\
        forall b h d j,
          elem k2 [b; h; d; j] =
            (if j <? 0 + 1 then elem key [b; h; d; j] else elem knew [b; h; d; j - (0 + 1)]) /\
          elem v2 [b; h; j; d] =
            (if j <? 0 + 1 then elem value [b; h; j; d] else elem vnew [b; h; j - (0 + 1); d]).
Proof.
  apply (returned_cache ex_attn (ex_x 1) None 2 2 1 1 1 0 ex_attn_wf);
    try reflexivity; lia.
Defined.

(** ** C5 *)

(** C5: the stack returns a result exactly when its blocks, taken in index
    order from layer 0, are threaded: block [i] runs on the output of
    block [i-1] (the input for block 0) and on cache entry [i].  The
    result is the final normalization of the last output together with the
    updated caches keyed 0..N-1.  On a well-formed stack, an input of shape
    (B,T,F) and caches that fit, it does return. *)
Theorem stack_composition g x ints :
  length (GPT2.h g) = GPT2.nb_layer g ->
  (forall y m,
     GPT2._forward g x ints = ok (y, m) <->
     exists xN ps,
       threaded ints 0 (GPT2.h g) x xN ps /\
       LayerNorm.forward (GPT2.ln_f g) xN = ok y /\
       m = map_seq 0 (Some <$> ps)) /\
  (forall (ps : list tensor) (i : nat),
     (map_seq 0 (Some <$> ps) : gmap nat (option tensor)) !! i = Some <$> (ps !! i)) /\
  (forall S F H B T,
     GPT2_wf S F H g -> 0 < F -> shape x = [B; T; F] ->
     caches_ok S H (F / H) B T ints (GPT2.nb_layer g) ->
     exists xN ps y,
       threaded ints 0 (GPT2.h g) x xN ps /\ length ps = GPT2.nb_layer g /\
       LayerNorm.forward (GPT2.ln_f g) xN = ok y /\ shape y = [B; T; F] /\
       GPT2._forward g x ints = ok (y, map_seq 0 (Some <$> ps))).
Proof.
  intros Hlen.
  assert (Hfwd : forall xN ps y,
            threaded ints 0 (GPT2.h g) x xN ps ->
            LayerNorm.forward (GPT2.ln_f g) xN = ok y ->
            GPT2._forward g x ints = ok (y, map_seq 0 (Some <$> ps))).
  { intros xN ps y Ht El. unfold GPT2._forward. rewrite <- Hlen.
    pose proof (layers_threaded g ints [] (GPT2.h g) x xN ps [] eq_refl Ht) as El'.
    change (length (@nil (Block.t tensor))) with 0 in El'. rewrite El'.
    rsimpl. cbn [app]. rewrite El. reflexivity. }
  split; [|split].
  - intros y m. split.
    + unfold GPT2._forward. rewrite <- Hlen.
      destruct (GPT2.layers g ints (seq 0 (length (GPT2.h g))) x []) as [e|[xN ps]] eqn:El;
        rsimpl; [discriminate|].
      pose proof (threaded_layers g ints [] (GPT2.h g) x (xN, ps) [] eq_refl) as Htl.
      change (length (@nil (Block.t tensor))) with 0 in Htl.
      destruct (Htl El) as (ps' & Ht & Eps). cbn [fst snd app] in Ht, Eps. subst ps'.
      destruct (LayerNorm.forward (GPT2.ln_f g) xN) as [e|y'] eqn:En; rsimpl; [discriminate|].
      intros E. injection E as <- <-. exists xN, ps. repeat split; assumption.
    + intros (xN & ps & Ht & El & ->). apply (Hfwd xN ps y Ht El).
  - intros ps i. rewrite lookup_map_seq_0. apply list_lookup_fmap.
  - intros S F H B T (_ & Wb & Wl) HF Sx Hc.
    destruct (threaded_total S F H B T ints (GPT2.h g) 0 x Wb HF Sx)
      as (xN & ps & Ht & SN).
    { rewrite Hlen. exact Hc. }
    destruct (LayerNorm_forward_spec _ xN [B; T] F Wl SN) as (y & Ey & Sy & _).
    exists xN, ps, y. split; [exact Ht|]. split.
    { rewrite (threaded_length _ _ _ _ _ _ Ht). exact Hlen. }
    split; [exact Ey|]. split; [exact Sy|]. apply (Hfwd xN ps y Ht Ey).
Qed.

Lemma stack_composition_witness :
  exists xN ps y,
    threaded (GPT2._new_internals ex_gpt2) 0 (GPT2.h ex_gpt2) (ex_x 2) xN ps /\
    length ps = 2 /\
    LayerNorm.forward (GPT2.ln_f ex_gpt2) xN = ok y /\ shape y = [1; 2; 2] /\
    GPT2._forward ex_gpt2 (ex_x 2) (GPT2._new_internals ex_gpt2)
      = ok (y, map_seq 0 (Some <$> ps)).
Proof.
  destruct (stack_composition ex_gpt2 (ex_x 2) (GPT2._new_internals ex_gpt2) eq_refl)
    as (_ & _ & Htot).
  apply (Htot 2 2 1 1 2 ex_gpt2_wf); try reflexivity; try lia.
  intros i Hi. exists None, 0. cbn in Hi.
  split; [|split; [reflexivity|lia]].
  destruct i as [|[|i]]; [reflexivity|reflexivity|lia].
Defined.

(** ** C6 *)

Lemma LayerNorm_init_load n eps w :
  exists l w',
    LayerNorm.init n eps w = inr (l, w') /\
    LayerNorm.variance_epsilon l = default LayerNorm.default_eps eps /\
    LayerNorm_wf n (LayerNorm.fmap (deref (heap w')) l).
Proof.
  rewrite LayerNorm_init_eq. do 2 eexists. split; [reflexivity|]. split; [reflexivity|].
  unfold LayerNorm_wf, LayerNorm.fmap. cbn [LayerNorm.weight LayerNorm.bias heap].
  rewrite <- (Nat.add_0_r (length (heap w))) at 1. rewrite !deref_app_new.
  split; reflexivity.
Qed.

Lemma GPT2_init_eps s nb H eps w g w' :
  GPT2.init s nb H eps w = inr (g, w') ->
  LayerNorm.variance_epsilon (GPT2.ln_f g) = eps /\
  forall b, In b (GPT2.h g) ->
    LayerNorm.variance_epsilon (Block.ln_1 b) = eps /\
    LayerNorm.variance_epsilon (Block.ln_2 b) = eps.
Proof.
  intros E. destruct (GPT2_init_inv _ _ _ _ _ _ _ E) as (pre & S & F & -> & HH & Hmod).
  destruct (GPT2_init_ok pre S F nb H eps w HH Hmod)
    as (g0 & w0 & blk & E0 & Hh & _ & _ & Hf & _ & Ee1 & Ee2 & _).
  rewrite E0 in E. injection E as <- <-. cbv zeta in Hh, Hf.
  split; [rewrite Hf; reflexivity|].
  intros b Hb. rewrite Hh in Hb. apply in_map_iff in Hb. destruct Hb as (k & <- & _).
  split; assumption.
Qed.

(** C6 (counterexample): a normalization module built without the [eps]
    argument holds 1e-12, not 1e-5. *)
Lemma layer_norm_default_eps_is_1e_12 :
  exists l w',
    LayerNorm.init 2 None world0 = inr (l, w') /\
    LayerNorm.variance_epsilon l = 1e-12%R /\
    LayerNorm.variance_epsilon l <> 1e-5%R.
Proof.
  do 2 eexists. split; [reflexivity|]. cbn [LayerNorm.variance_epsilon default].
  unfold LayerNorm.default_eps. split; [reflexivity|]. lra.
Qed.

(** C6 (amended): Normalization subtracts the mean over the last axis,
    divides by sqrt(variance + epsilon), the variance over the last axis
    too, and applies the elementwise scale and shift.  Epsilon is fixed at
    construction; the constructor's own default is 1e-12; the stack, whose
    [layer_norm_eps] argument defaults to 1e-5, passes its value to every
    normalization module it builds. *)
Theorem normalization_contract :
  (forall l x s n,
     LayerNorm_wf n l -> shape x = s ++ [n] ->
     exists y, LayerNorm.forward l x = ok y /\ shape y = s ++ [n] /\
       forall idx k, valid_idx s idx -> k < n ->
         let row := fun i => elem x (idx ++ [i]) in
         let mean := (sum_n n row / INR n)%R in
         let var := (sum_n n (fun i => (row i - mean) ^ 2) / INR n)%R in
         elem y (idx ++ [k]) =
           (elem (LayerNorm.weight l) [k]
            * ((row k - mean) / sqrt (var + LayerNorm.variance_epsilon l))
            + elem (LayerNorm.bias l) [k])%R) /\
  (forall n eps w, exists l w',
     LayerNorm.init n eps w = inr (l, w') /\
     LayerNorm.variance_epsilon l = default 1e-12%R eps /\
     LayerNorm_wf n (LayerNorm.fmap (deref (heap w')) l)) /\
  GPT2.default_layer_norm_eps = 1e-5%R /\
  (forall s nb H eps w g w',
     GPT2.init s nb H eps w = inr (g, w') ->
     LayerNorm.variance_epsilon (GPT2.ln_f g) = eps /\
     forall b, In b (GPT2.h g) ->
       LayerNorm.variance_epsilon (Block.ln_1 b) = eps /\
       LayerNorm.variance_epsilon (Block.ln_2 b) = eps).
Proof.
  split; [|split; [|split]].
  - intros l x s n Wf Sx.
    destruct (LayerNorm_forward_spec l x s n Wf Sx) as (y & Ey & Sy & Hy).
    exists y. split; [exact Ey|]. split; [exact Sy|].
    intros idx k Hidx Hk. cbv zeta. rewrite (Hy idx k Hidx Hk). reflexivity.
  - intros n eps w. apply LayerNorm_init_load.
  - reflexivity.
  - intros s nb H eps w g w'. apply GPT2_init_eps.
Qed.

Lemma normalization_contract_witness :
  exists y, LayerNorm.forward (ex_ln 2) (ex_x 2) = ok y /\ shape y = [1; 2] ++ [2] /\
    forall idx k, valid_idx [1; 2] idx -> k < 2 ->
      let row := fun i => elem (ex_x 2) (idx ++ [i]) in
      let mean := (sum_n 2 row / INR 2)%R in
      let var := (sum_n 2 (fun i => (row i - mean) ^ 2) / INR 2)%R in
      elem y (idx ++ [k]) =
        (elem (LayerNorm.weight (ex_ln 2)) [k]
         * ((row k - mean) / sqrt (var + LayerNorm.variance_epsilon (ex_ln 2)))
         + elem (LayerNorm.bias (ex_ln 2)) [k])%R.
Proof.
  destruct normalization_contract as (Hfw & _).
  apply (Hfw (ex_ln 2) (ex_x 2) [1; 2] 2); [split; reflexivity|reflexivity].
Defined.

(** ** C7 *)

Lemma Attention_init_load F S H scale w :
  0 < H -> F mod H = 0 ->
  exists a w',
    Attention.init F S H scale w = inr (a, w') /\
    Attention_wf F S H (Attention.fmap (deref (heap w')) a).
Proof.
  intros HH Hmod. destruct (causal_mask_ok S) as (mask & Hmask).
  rewrite (Attention_init_ok F S H scale w mask HH Hmod Hmask). cbv zeta.
  do 2 eexists. split; [reflexivity|].
  unfold Attention_wf, Conv1D_wf, Attention.fmap, Conv1D.fmap.
  cbn [Attention.bias Attention.n_head Attention.split_size Attention.c_attn Attention.c_proj
       Conv1D.nf Conv1D.weight Conv1D.bias heap].
  rewrite <- (Nat.add_0_r (length (heap w))) at 1. rewrite !deref_app_new.
  cbn [nth]. repeat split; try reflexivity; assumption.
Qed.

(** C7: when the head count does not divide the feature count the
    constructor raises (the assertion, or the division by zero of the
    remainder when the head count is 0) and no module exists to call; when
    a positive head count divides it the constructor returns, and the
    constructed module runs on every input of shape (B,T,F) with T within
    the maximum. *)
Theorem divisibility_checked_at_construction F S H scale w :
  (~ Nat.divide H F -> exists e, Attention.init F S H scale w = inl e) /\
  (0 < H -> ~ Nat.divide H F -> Attention.init F S H scale w = inl AssertionError) /\
  (H = 0 -> Attention.init F S H scale w = inl ZeroDivisionError) /\
  (0 < H -> Nat.divide H F ->
   exists a w',
     Attention.init F S H scale w = inr (a, w') /\
     forall x B T, 0 < F -> shape x = [B; T; F] -> T <= S ->
       exists out present,
         Attention.forward (Attention.fmap (deref (heap w')) a) x None = ok (out, present)).
Proof.
  assert (Hdiv : 0 < H -> (F mod H = 0 <-> Nat.divide H F)).
  { intros HH. apply Nat.Lcm0.mod_divide. }
  assert (Hfail : 0 < H -> ~ Nat.divide H F ->
            Attention.init F S H scale w = inl AssertionError).
  { intros HH Hn. rewrite Attention_init_fails.
    - destruct (H =? 0) eqn:E; [apply Nat.eqb_eq in E; lia|reflexivity].
    - right. intros Hm. apply Hn, Hdiv; assumption. }
  assert (Hzero : H = 0 -> Attention.init F S H scale w = inl ZeroDivisionError).
  { intros ->. rewrite Attention_init_fails by (left; reflexivity). reflexivity. }
  split; [|split; [exact Hfail|split; [exact Hzero|]]].
  - intros Hn. destruct (Nat.eq_dec H 0) as [H0|H0].
    + eexists. apply Hzero, H0.
    + eexists. apply Hfail; [lia|exact Hn].
  - intros HH Hd. apply Hdiv in Hd; [|exact HH].
    destruct (Attention_init_load F S H scale w HH Hd) as (a & w' & E & Wf).
    exists a, w'. split; [exact E|].
    intros x B T HF Sx HT.
    destruct (Attention_forward_spec _ x None F S H B T 0 Wf HF Sx eq_refl HT)
      as (q & k & v & present & w1 & out & _ & _ & _ & Ef & _).
    exists out, present. exact Ef.
Qed.

Lemma divisibility_checked_at_construction_witness :
  Attention.init 3 2 2 true world0 = inl AssertionError /\
  exists a w',
    Attention.init 4 2 2 true world0 = inr (a, w') /\
    forall x B T, 0 < 4 -> shape x = [B; T; 4] -> T <= 2 ->
      exists out present,
        Attention.forward (Attention.fmap (deref (heap w')) a) x None = ok (out, present).
Proof.
  split.
  - destruct (divisibility_checked_at_construction 3 2 2 true world0) as (_ & Hf & _).
    apply Hf; [lia|]. intros [c Hc]. lia.
  - destruct (divisibility_checked_at_construction 4 2 2 true world0) as (_ & _ & _ & Hs).
    apply Hs; [lia|]. exists 2. reflexivity.
Defined.

(** ** C8 *)

Lemma bshape_last_mismatch s1 s2 a b :
  a <> b -> a <> 1 -> b <> 1 -> bshape (s1 ++ [a]) (s2 ++ [b]) = raise RuntimeError.
Proof.
  intros Hab Ha Hb. unfold bshape. rewrite !rev_app_distr. cbn [rev app bshape_rev].
  unfold bdim.
  destruct (a =? b) eqn:E1; [apply Nat.eqb_eq in E1; contradiction|].
  destruct (a =? 1) eqn:E2; [apply Nat.eqb_eq in E2; contradiction|].
  destruct (b =? 1) eqn:E3; [apply Nat.eqb_eq in E3; contradiction|].
  reflexivity.
Qed.

Lemma bdim_min_1 n : bdim n (Nat.min n 1) = ok n.
Proof.
  destruct n as [|n]; [reflexivity|].
  replace (Nat.min (Datatypes.S n) 1) with 1 by lia. apply bdim_1_r.
Qed.

(** With a maximum of one position and no cache, the sliced mask has at
    most one entry and broadcasts against the scores of any length: the
    call returns. *)
Lemma forward_single_position_mask a x F H B T :
  Attention_wf F 1 H a -> 0 < F -> shape x = [B; T; F] ->
  exists out present,
    Attention.forward a x None = ok (out, present) /\ shape out = [B; T; F].
Proof.
  intros Wf HF Sx.
  destruct (qkv_spec a x None F 1 H B T 0 Wf HF Sx eq_refl)
    as (q & key & value & present & Eq & Sq & Sk & Sv & _).
  cbn [Nat.add] in Sk, Sv.
  destruct Wf as (EH & ES & HH & Hmod & Hm & Wc & Nc & Wpj & Npj).
  set (D := F / H) in *.
  assert (EF : F = H * D) by (unfold D; pose proof (Nat.div_mod_eq F H); lia).
  destruct (matmul4_spec q key B H T D T Sq Sk) as (w & Ew & Sw & _).
  destruct (mask_slice_spec a 1 T T Hm (le_n _)) as (b & Eb & Sb & _).
  replace (T - T) with 0 in Sb by lia. replace (0 `min` 1) with 0 in Sb by lia.
  rewrite Nat.sub_0_r in Sb.
  assert (Hbs : bshape [B; H; T; T] [1; 1; T `min` 1; T `min` 1] = ok [B; H; T; T]).
  { unfold bshape. cbn [rev app bshape_rev]. rewrite !bdim_min_1, !bdim_1_r. reflexivity. }
  unfold Attention.forward. rewrite Eq. rsimpl.
  unfold Attention._attn, Attention.masked_scores. rewrite Ew. rsimpl.
  set (w1 := if Attention.scale a then tmap (fun r => r / sqrt (INR D))%R w else w).
  assert (E1 : (if Attention.scale a
                then let* d := size value (-1) in ok (tmap (fun r => r / sqrt (INR d))%R w)
                else ok w) = ok w1).
  { unfold w1. destruct (Attention.scale a); [|reflexivity].
    rewrite (size_last value [B; H; T] D Sv). reflexivity. }
  assert (Sw1 : shape w1 = [B; H; T; T]).
  { unfold w1. destruct (Attention.scale a); assumption. }
  clearbody w1. rewrite E1. rsimpl.
  rewrite (size_last2 w1 [B; H] T T Sw1), (size_last w1 [B; H; T] T Sw1). rsimpl.
  rewrite Eb. rsimpl.
  unfold tmul, tsub, tbin. rewrite Sw1, Sb, Hbs. rsimpl.
  cbn [shape tmap]. rewrite Sb, Hbs. rsimpl.
  match goal with |- context [softmax_last ?t] =>
    destruct (softmax_last_spec t [B; H; T] T eq_refl) as (p & Ep & Spp & _)
  end.
  rewrite Ep. rsimpl.
  destruct (matmul4_spec p value B H T T D Spp Sv) as (o & Eo & So & _).
  rewrite Eo. rsimpl.
  destruct (merge_heads_spec o B H T D So) as (m & Em & Sm & _).
  rewrite Em. rsimpl. rewrite <- EF in Sm.
  destruct (Conv1D_forward_spec _ m [B; T] F Wpj Sm HF) as (out & Eout & Sout & _).
  rewrite Eout. rsimpl. rewrite Npj in Sout.
  exists out, present. split; [reflexivity|exact Sout].
Qed.

(** C8 (counterexample): a module built for one position at most, run on
    two positions: the slices of the mask clamp to its single entry, which
    broadcasts against the 2 by 2 scores, and the call returns. *)
Lemma longer_sequence_can_return :
  exists a w' out present,
    Attention.init 1 1 1 true world0 = inr (a, w') /\
    Attention.forward (Attention.fmap (deref (heap w')) a)
      (Tensor [1; 2; 1] (fun _ => 1%R)) None = ok (out, present) /\
    shape out = [1; 2; 1].
Proof.
  destruct (Attention_init_load 1 1 1 true world0 ltac:(lia) eq_refl) as (a & w' & Ei & Wf).
  destruct (forward_single_position_mask _ (Tensor [1; 2; 1] (fun _ => 1%R)) 1 1 1 2 Wf
              ltac:(lia) eq_refl) as (out & present & Ef & So).
  exists a, w', out, present. split; [exact Ei|]. split; [exact Ef|exact So].
Qed.

(** C8 (amended): with a maximum of at least two positions, a call whose
    total length exceeds the maximum fails.  The slices of the mask do not
    raise: they clamp and give a mask of fewer columns than the scores
    have; the failure is the shape mismatch of the product of the scores
    with that mask. *)
Theorem longer_sequence_fails_at_mask_product a x past F S H B T P :
  Attention_wf F S H a -> 2 <= S -> 0 < F -> shape x = [B; T; F] ->
  past_ok B H (F / H) P past -> S < P + T ->
  exists q key value present w b,
    Attention.qkv a x past = ok (q, key, value, present) /\
    matmul q key = ok w /\ shape w = [B; H; T; P + T] /\
    Attention.mask_slice a T (P + T) = ok b /\
    shape b = [1; 1; S - Nat.min P S; S] /\
    (forall f, tbin f w b = raise RuntimeError) /\
    Attention.masked_scores a q key value = raise RuntimeError /\
    Attention.forward a x past = raise RuntimeError.
Proof.
  intros Wf HS2 HF Sx Hp Hlong.
  destruct (qkv_spec a x past F S H B T P Wf HF Sx Hp)
    as (q & key & value & present & Eq & Sq & Sk & Sv & _).
  destruct Wf as (_ & _ & _ & _ & Hm & _).
  destruct (matmul4_spec q key B H T (F / H) (P + T) Sq Sk) as (w & Ew & Sw & _).
  destruct (mask_slice_spec a S T (P + T) Hm ltac:(lia)) as (b & Eb & Sb & _).
  replace ((P + T) `min` S) with S in Sb by lia.
  replace (P + T - T) with P in Sb by lia.
  assert (Hbs : forall s, s = [B; H; T; P + T] ->
            bshape s (shape b) = raise RuntimeError).
  { intros s ->. rewrite Sb.
    apply (bshape_last_mismatch [B; H; T] [1; 1; S - P `min` S] (P + T) S); lia. }
  assert (Hms : Attention.masked_scores a q key value = raise RuntimeError).
  { unfold Attention.masked_scores. rewrite Ew. rsimpl.
    set (w1 := if Attention.scale a then tmap (fun r => r / sqrt (INR (F / H)))%R w else w).
    assert (E1 : (if Attention.scale a
                  then let* d := size value (-1) in ok (tmap (fun r => r / sqrt (INR d))%R w)
                  else ok w) = ok w1).
    { unfold w1. destruct (Attention.scale a); [|reflexivity].
      rewrite (size_last value [B; H; P + T] (F / H) Sv). reflexivity. }
    assert (Sw1 : shape w1 = [B; H; T; P + T]).
    { unfold w1. destruct (Attention.scale a); assumption. }
    clearbody w1. rewrite E1. rsimpl.
    rewrite (size_last2 w1 [B; H] T (P + T) Sw1), (size_last w1 [B; H; T] (P + T) Sw1).
    rsimpl. rewrite Eb. rsimpl.
    unfold tmul, tbin. rewrite (Hbs _ Sw1). reflexivity. }
  exists q, key, value, present, w, b.
  split; [exact Eq|]. split; [exact Ew|]. split; [exact Sw|]. split; [exact Eb|].
  split; [exact Sb|]. split.
  { intros f. unfold tbin. rewrite (Hbs _ Sw). reflexivity. }
  split; [exact Hms|].
  unfold Attention.forward. rewrite Eq. rsimpl.
  unfold Attention._attn. rewrite Hms. reflexivity.
Qed.

Lemma longer_sequence_fails_at_mask_product_witness :
  exists q key value present w b,
    Attention.qkv ex_attn (ex_x 3) None = ok (q, key, value, present) /\
    matmul q key = ok w /\ shape w = [1; 1; 3; 0 + 3] /\
    Attention.mask_slice ex_attn 3 (0 + 3) = ok b /\
    shape b = [1; 1; 2 - Nat.min 0 2; 2] /\
    (forall f, tbin f w b = raise RuntimeError) /\
    Attention.masked_scores ex_attn q key value = raise RuntimeError /\
    Attention.forward ex_attn (ex_x 3) None = raise RuntimeError.
Proof.
  apply (longer_sequence_fails_at_mask_product ex_attn (ex_x 3) None 2 2 1 1 3 0 ex_attn_wf);
    try reflexivity; lia.
Defined.

(** ** C9 *)

(** C9: the feed-forward network of a constructed block maps (B,T,F) to
    (B,T,F): an affine projection to 4F features, the nonlinearity
    0.5 x (1 + tanh(sqrt(2/pi) (x + 0.044715 x^3))) on every entry, and an
    affine projection back to F features; the result is a function of the
    parameters and the input alone. *)
Theorem feed_forward_contract S F H eps scale w blk w' x B T :
  Block.init S F H eps scale w = inr (blk, w') -> 0 < F -> shape x = [B; T; F] ->
  let m := MLP.fmap (deref (heap w')) (Block.mlp blk) in
  exists fc y,
    Conv1D.forward (MLP.c_fc m) x = ok fc /\ shape fc = [B; T; 4 * F] /\
    MLP.forward m x = ok y /\ shape y = [B; T; F] /\
    forall b t f, b < B -> t < T -> f < F ->
      let gelu_fn v := (0.5 * v * (1 + tanh (sqrt (2 / PI) * (v + 0.044715 * v ^ 3))))%R in
      let hidden j :=
        (elem (Conv1D.bias (MLP.c_fc m)) [j]
         + sum_n F (fun i => elem x [b; t; i] * elem (Conv1D.weight (MLP.c_fc m)) [i; j]))%R in
      elem y [b; t; f] =
        (elem (Conv1D.bias (MLP.c_proj m)) [f]
         + sum_n (4 * F)
             (fun j => gelu_fn (hidden j) * elem (Conv1D.weight (MLP.c_proj m)) [j; f]))%R.
Proof.
  intros Ei HF Sx m.
  pose proof (Block_init_load S F H eps scale w blk w' Ei) as (_ & _ & _ & Wm).
  change (Block.mlp (Block.fmap (deref (heap w')) blk)) with m in Wm.
  destruct (MLP_forward_spec m x [B; T] F Wm Sx HF) as (fc & y & Efc & Sfc & Ey & Sy & Hy).
  exists fc, y. split; [exact Efc|]. split; [exact Sfc|]. split; [exact Ey|].
  split; [exact Sy|].
  intros b t f Hb Ht Hf. cbv zeta.
  apply (Hy [b; t] f); [repeat constructor; assumption|assumption].
Qed.

Lemma feed_forward_contract_witness :
  exists blk w',
    Block.init 2 2 1 1e-5%R true world0 = inr (blk, w') /\
    let m := MLP.fmap (deref (heap w')) (Block.mlp blk) in
    exists fc y,
      Conv1D.forward (MLP.c_fc m) (ex_x 2) = ok fc /\ shape fc = [1; 2; 4 * 2] /\
      MLP.forward m (ex_x 2) = ok y /\ shape y = [1; 2; 2].
Proof.
  destruct (causal_mask_ok 2) as (mask & Hmask).
  destruct (Block_init_ok 2 2 1 1e-5%R true world0 mask ltac:(lia) eq_refl Hmask)
    as (blk & vals & Ei & _).
  eexists. eexists. split; [exact Ei|]. intros m.
  destruct (feed_forward_contract 2 2 1 1e-5%R true world0 _ _ (ex_x 2) 1 2 Ei
              ltac:(lia) eq_refl) as (fc & y & Efc & Sfc & Ey & Sy & _).
  exists fc, y. repeat split; assumption.
Defined.

(** ** C10 *)

Lemma Block_init_values S F H eps scale w mask :
  0 < H -> F mod H = 0 -> causal_mask S = ok mask ->
  exists blk vals,
    Block.init S F H eps scale w =
      inr (Block_at blk (length (heap w)),
           World (heap w ++ vals) (rng w) (draws w + 4)) /\
    blk = Block.fmap (fun k => nth k vals (zeros [])) (Block_at blk 0) /\
    length vals = 13 /\
    Block_conv_params blk = conv_draws F w.
Proof.
  intros HH Hmod Hmask.
  set (vals := [ones [F]; zeros [F]; mask;
                Tensor [F; F * 3] (rng w (draws w)); zeros [F * 3];
                Tensor [F; F] (rng w (draws w + 1)); zeros [F];
                ones [F]; zeros [F];
                Tensor [F; 4 * F] (rng w (draws w + 2)); zeros [4 * F];
                Tensor [4 * F; F] (rng w (draws w + 3)); zeros [F]]).
  set (blk := Block.mk
    (LayerNorm.mk (nth 0 vals (zeros [])) (nth 1 vals (zeros [])) eps)
    (Attention.mk (nth 2 vals (zeros [])) H F scale
       (Conv1D.mk (F * 3) (nth 3 vals (zeros [])) (nth 4 vals (zeros [])))
       (Conv1D.mk F (nth 5 vals (zeros [])) (nth 6 vals (zeros []))))
    (LayerNorm.mk (nth 7 vals (zeros [])) (nth 8 vals (zeros [])) eps)
    (MLP.mk (Conv1D.mk (4 * F) (nth 9 vals (zeros [])) (nth 10 vals (zeros [])))
            (Conv1D.mk F (nth 11 vals (zeros [])) (nth 12 vals (zeros []))))).
  exists blk, vals. split; [|split; [reflexivity|split; reflexivity]].
  unfold Block.init.
  unfold mbind at 1. rewrite LayerNorm_init_eq.
  unfold mbind at 1. rewrite (Attention_init_ok F S H scale _ mask HH Hmod Hmask).
  cbv zeta. cbn [heap rng draws].
  unfold mbind at 1. rewrite LayerNorm_init_eq. cbn [heap rng draws].
  unfold mbind at 1. rewrite MLP_init_eq. cbv zeta. cbn [heap rng draws mret ok].
  heap_norm. unfold Block_at, blk, vals. cbn [Block.ln_1 Block.attn Block.ln_2 Block.mlp
    LayerNorm.variance_epsilon Attention.n_head Attention.split_size Attention.scale
    Attention.c_attn Attention.c_proj Conv1D.nf MLP.c_fc MLP.c_proj].
  unfold mret, ok. repeat f_equal; lia.
Qed.

(** The stack as constructed: where the copies of the block lie, how long
    the store is, and what the projections of every copy hold. *)
Lemma GPT2_init_conv pre S F nb H eps w :
  0 < H -> F mod H = 0 ->
  exists g w' blk,
    GPT2.init (pre ++ [S; F]) nb H eps w = inr (g, w') /\
    let n1 := length (heap w) + 13 in
    GPT2.h g = map (fun k => Block_at blk (n1 + 13 * k)) (seq 0 nb) /\
    length (heap w') = n1 + 13 * nb + 2 /\
    Block_conv_params blk = conv_draws F w /\
    (forall k j, k < nb -> kept_offset j ->
       deref (heap w') (n1 + 13 * k + j) = nth j (Block_params blk) (zeros [])).
Proof.
  intros HH Hmod. destruct (causal_mask_ok S) as (mask & Hmask).
  unfold GPT2.init.
  unfold mbind at 1. rewrite getitem_tuple_last2. cbn [lift ok].
  unfold mbind at 1. rewrite getitem_tuple_last. cbn [lift ok].
  destruct (Block_init_values S F H eps true w mask HH Hmod Hmask)
    as (blk & vals & Ei & Eblk & Lvals & Hconv).
  unfold mbind at 1. rewrite Ei.
  set (w1 := World (heap w ++ vals) (rng w) (draws w + 4)).
  assert (Hl1 : length (heap w1) = length (heap w) + 13).
  { unfold w1. cbn [heap]. rewrite length_app. lia. }
  assert (Hv : forall j, j < 13 ->
            deref (heap w1) (length (heap w) + j) = nth j (Block_params blk) (zeros [])).
  { intros j Hj. unfold w1. cbn [heap]. rewrite deref_app_new.
    rewrite Eblk at 1. unfold Block_params, Block.fmap, LayerNorm.fmap, Attention.fmap,
      MLP.fmap, Conv1D.fmap, Block_at.
    cbn [Block.ln_1 Block.attn Block.ln_2 Block.mlp LayerNorm.weight LayerNorm.bias
         Attention.bias Attention.c_attn Attention.c_proj Conv1D.weight Conv1D.bias
         MLP.c_fc MLP.c_proj Nat.add].
    do 13 (destruct j as [|j]; [reflexivity|]). lia. }
  destruct (mapM_deepcopy (Block_at blk (length (heap w))) nb (seq 0 nb) w1)
    as (hs & w2 & Em & Ehs & Er & Ed & Hl2 & Hold & Hnew).
  { apply length_seq. }
  { rewrite Block_params_at. apply List.Forall_forall. intros l Hin.
    apply in_map_iff in Hin. destruct Hin as (j & <- & Hj). apply in_seq in Hj. lia. }
  unfold mbind at 1. rewrite Em.
  unfold mbind at 1. rewrite LayerNorm_init_eq.
  change (default LayerNorm.default_eps (Some eps)) with eps.
  set (w3 := World (heap w2 ++ [ones [F]; zeros [F]]) (rng w2) (draws w2)).
  set (g := GPT2.mk (pre ++ [S; F]) nb hs
              (LayerNorm.mk (length (heap w2)) (length (heap w2) + 1) eps)).
  destruct (frame_apply_GPT2 g w3) as (w4 & Ea & Hl4 & Hs4 & Hk4).
  unfold mbind at 1. rewrite Ea. cbn [mret ok].
  exists g, w4, blk. split; [reflexivity|]. cbv zeta.
  rewrite Hl1 in *.
  assert (Ehs' : hs = map (fun k => Block_at blk (length (heap w) + 13 + 13 * k)) (seq 0 nb)).
  { rewrite Ehs. apply map_ext. intros k. apply Block_at_at. }
  clear Ehs. rename Ehs' into Ehs.
  assert (Hl3 : length (heap w3) = length (heap w) + 13 + 13 * nb + 2).
  { unfold w3. cbn [heap]. rewrite length_app. cbn [length]. lia. }
  split; [exact Ehs|]. split; [lia|]. split; [exact Hconv|].
  intros k j Hk Hj. rewrite Hk4.
  - unfold w3. cbn [heap]. rewrite deref_app_old by (unfold kept_offset in Hj; lia).
    rewrite Hnew by (try assumption; unfold kept_offset in Hj; lia).
    rewrite Block_params_at.
    rewrite (nth_indep _ 0 (length (heap w) + 0))
      by (rewrite length_map, length_seq; unfold kept_offset in Hj; lia).
    rewrite (map_nth (fun j => length (heap w) + j) (seq 0 13) 0 j).
    rewrite seq_nth by (unfold kept_offset in Hj; lia).
    apply Hv. unfold kept_offset in Hj. lia.
  - unfold g. cbn [GPT2.h GPT2.ln_f LayerNorm.weight LayerNorm.bias].
    intros [(b & Hb & Hx)|[Hx|Hx]].
    + rewrite Ehs in Hb. apply in_map_iff in Hb. destruct Hb as (k' & <- & Hk').
      apply in_seq in Hk'. unfold Block_ln_params, Block_at in Hx.
      cbn [Block.ln_1 Block.ln_2 LayerNorm.weight LayerNorm.bias In] in Hx.
      unfold kept_offset in Hj. lia.
    + unfold kept_offset in Hj. lia.
    + unfold kept_offset in Hj. lia.
Qed.

Lemma conv_params_distinct {P} (blk : Block.t P) n : forall nb i,
  List.NoDup (concat (map (fun b : Block.t loc => Block_conv_params b)
                        (map (fun k => Block_at blk (n + 13 * k)) (seq i nb)))).
Proof.
  induction nb as [|nb IH]; intros i; cbn [seq map concat]; [constructor|].
  apply List.NoDup_app; [|apply IH|].
  - unfold Block_conv_params, Block_at.
    cbn [Block.attn Block.mlp Attention.c_attn Attention.c_proj MLP.c_fc MLP.c_proj
         Conv1D.weight Conv1D.bias].
    repeat constructor; cbn [In]; lia.
  - intros x Hx Hx'. apply in_concat in Hx'. destruct Hx' as (l & Hl & Hxl).
    apply in_map_iff in Hl. destruct Hl as (b & <- & Hb).
    apply in_map_iff in Hb. destruct Hb as (k & <- & Hk). apply in_seq in Hk.
    unfold Block_conv_params, Block_at in Hx, Hxl.
    cbn [Block.attn Block.mlp Attention.c_attn Attention.c_proj MLP.c_fc MLP.c_proj
         Conv1D.weight Conv1D.bias In] in Hx, Hxl. lia.
Qed.

(** C10: after construction of the stack with N layers there are N
    blocks.  The weights and biases of the four affine projections of
    every block are allocated in the store by the construction, and they
    hold what the constructors of the one constructed block stored: each
    weight its normal draw, of shape (nx, nf), each bias zeros; so any two
    blocks hold the same values.  All these parameters, of all blocks,
    are different objects of the store. *)
Theorem blocks_replicate_projection_parameters s nb H eps w g w' :
  GPT2.init s nb H eps w = inr (g, w') ->
  exists pre S F, s = pre ++ [S; F] /\
    length (GPT2.h g) = nb /\
    (forall i bi, GPT2.h g !! i = Some bi ->
       Forall2 (fun l t => length (heap w) <= l < length (heap w') /\
                           deref (heap w') l = t)
               (Block_conv_params bi) (conv_draws F w)) /\
    List.NoDup (concat (map (fun b : Block.t loc => Block_conv_params b) (GPT2.h g))) /\
    forall i j bi bj,
      GPT2.h g !! i = Some bi -> GPT2.h g !! j = Some bj ->
      Forall2 (fun li lj => deref (heap w') li = deref (heap w') lj /\ (i <> j -> li <> lj))
              (Block_conv_params bi) (Block_conv_params bj).
Proof.
  intros E. destruct (GPT2_init_inv _ _ _ _ _ _ _ E) as (pre & S & F & -> & HH & Hmod).
  destruct (GPT2_init_conv pre S F nb H eps w HH Hmod)
    as (g0 & w0 & blk & E0 & Hh & Hlen & Hconv & Hkeep).
  rewrite E0 in E. injection E as <- <-. cbv zeta in Hh, Hlen, Hkeep.
  exists pre, S, F. split; [reflexivity|].
  split; [rewrite Hh, length_map, length_seq; reflexivity|].
  assert (Hat : forall i bi, GPT2.h g0 !! i = Some bi ->
            i < nb /\ bi = Block_at blk (length (heap w) + 13 + 13 * i)).
  { intros i bi Hi. rewrite Hh, list_lookup_fmap in Hi.
    destruct (seq 0 nb !! i) as [i'|] eqn:Ei; [|discriminate].
    apply lookup_seq in Ei. destruct Ei as [-> Hi'].
    cbn [Nat.add option_map fmap option_fmap] in Hi. injection Hi as <-.
    split; [exact Hi'|reflexivity]. }
  assert (Hval : forall i, i < nb ->
            map (deref (heap w0)) (Block_conv_params
                                     (Block_at blk (length (heap w) + 13 + 13 * i)))
            = conv_draws F w).
  { intros i Hi. rewrite <- Hconv. unfold Block_conv_params, Block_at.
    cbn [Block.attn Block.mlp Attention.c_attn Attention.c_proj MLP.c_fc MLP.c_proj
         Conv1D.weight Conv1D.bias map].
    rewrite !Hkeep by (try assumption; unfold kept_offset; lia). reflexivity. }
  split; [|split].
  - intros i bi Hi. destruct (Hat i bi Hi) as [Hi' ->].
    pose proof (Hval i Hi') as Hv. unfold conv_draws in Hv |- *.
    unfold Block_conv_params, Block_at in Hv |- *.
    cbn [Block.attn Block.mlp Attention.c_attn Attention.c_proj MLP.c_fc MLP.c_proj
         Conv1D.weight Conv1D.bias map] in Hv |- *.
    injection Hv as V1 V2 V3 V4 V5 V6 V7 V8.
    repeat (constructor; [split; [lia|assumption]|]). constructor.
  - rewrite Hh. apply conv_params_distinct.
  - intros i j bi bj Hi Hj.
    destruct (Hat i bi Hi) as [Hi' ->]. destruct (Hat j bj Hj) as [Hj' ->].
    pose proof (Hval i Hi') as Vi. pose proof (Hval j Hj') as Vj.
    rewrite <- Vj in Vi.
    unfold Block_conv_params, Block_at in Vi |- *.
    cbn [Block.attn Block.mlp Attention.c_attn Attention.c_proj MLP.c_fc MLP.c_proj
         Conv1D.weight Conv1D.bias map] in Vi |- *.
    injection Vi as V1 V2 V3 V4 V5 V6 V7 V8.
    repeat (constructor; [split; [assumption|lia]|]). constructor.
Qed.

Lemma blocks_replicate_projection_parameters_witness :
  exists g w',
    GPT2.init [2; 2] 2 1 1e-5%R world0 = inr (g, w') /\
    exists pre S F, [2; 2] = pre ++ [S; F] /\
      length (GPT2.h g) = 2 /\
      (forall i bi, GPT2.h g !! i = Some bi ->
         Forall2 (fun l t => length (heap world0) <= l < length (heap w') /\
                             deref (heap w') l = t)
                 (Block_conv_params bi) (conv_draws F world0)) /\
      List.NoDup (concat (map (fun b : Block.t loc => Block_conv_params b) (GPT2.h g))) /\
      forall i j bi bj,
        GPT2.h g !! i = Some bi -> GPT2.h g !! j = Some bj ->
        Forall2 (fun li lj => deref (heap w') li = deref (heap w') lj /\ (i <> j -> li <> lj))
                (Block_conv_params bi) (Block_conv_params bj).
Proof.
  destruct (GPT2_init_ok [] 2 2 2 1 1e-5%R world0 ltac:(lia) eq_refl)
    as (g & w' & blk & Ei & _).
  exists g, w'. split; [exact Ei|].
  apply (blocks_replicate_projection_parameters ([] ++ [2; 2]) 2 1 1e-5%R world0 g w' Ei).
Defined.

(** * Further properties *)

(** ** Affine projection *)

(** X1: on an input whose last axis has the length of the weight's first
    axis, whatever the leading axes, the projection keeps the leading
    axes, replaces the last by [nf] and computes bias + row . weight for
    every row. *)
Theorem conv1d_forward_affine c x s nx :
  Conv1D_wf nx c -> shape x = s ++ [nx] -> 0 < nx ->
  exists y, Conv1D.forward c x = ok y /\ shape y = s ++ [Conv1D.nf c] /\
    forall idx k, valid_idx s idx -> k < Conv1D.nf c ->
      elem y (idx ++ [k]) =
        (elem (Conv1D.bias c) [k]
         + sum_n nx (fun i => elem x (idx ++ [i]) * elem (Conv1D.weight c) [i; k]))%R.
Proof.
  intros Wf Sx Hnx.
  destruct (Conv1D_forward_spec c x s nx Wf Sx Hnx) as (y & Ey & Sy & Hy).
  exists y. split; [exact Ey|]. split; [exact Sy|].
  intros idx k Hidx Hk. rewrite (Hy idx k Hidx Hk). reflexivity.
Qed.

Lemma conv1d_forward_affine_witness :
  exists y, Conv1D.forward (ex_conv 6 2) (ex_x 2) = ok y /\
    shape y = [1; 2] ++ [Conv1D.nf (ex_conv 6 2)] /\
    forall idx k, valid_idx [1; 2] idx -> k < Conv1D.nf (ex_conv 6 2) ->
      elem y (idx ++ [k]) =
        (elem (Conv1D.bias (ex_conv 6 2)) [k]
         + sum_n 2 (fun i => elem (ex_x 2) (idx ++ [i])
                             * elem (Conv1D.weight (ex_conv 6 2)) [i; k]))%R.
Proof.
  apply (conv1d_forward_affine (ex_conv 6 2) (ex_x 2) [1; 2] 2);
    [split; reflexivity|reflexivity|lia].
Defined.

Lemma pydim_empty d : pydim 0 d = raise IndexError.
Proof.
  unfold pydim. change (Z.of_nat 0) with 0%Z. change (- 0)%Z with 0%Z.
  destruct (Z.leb_spec 0 d), (Z.ltb_spec d 0); cbn [andb]; try reflexivity; lia.
Qed.

(** X2: the projection refuses an input it does not fit: a scalar has no
    last axis (IndexError), and a last axis of another length than the
    weight's first axis is a shape mismatch (RuntimeError); nothing is
    computed from such an input. *)
Theorem conv1d_forward_rejects_misfit c nx :
  Conv1D_wf nx c ->
  (forall x, shape x = [] -> Conv1D.forward c x = raise IndexError) /\
  (forall x s n, shape x = s ++ [n] -> n <> nx ->
     Conv1D.forward c x = raise RuntimeError).
Proof.
  intros [Hw Hb]. split.
  - intros x Sx. unfold Conv1D.forward, size, rank. rewrite Sx. cbn [length].
    rewrite pydim_empty. reflexivity.
  - intros x s n Sx Hn. unfold Conv1D.forward.
    rewrite (size_last x s n Sx). rsimpl. unfold view_infer.
    destruct (n =? 0) eqn:E0; [reflexivity|]. apply Nat.eqb_neq in E0.
    rewrite Sx, numel_snoc, Nat.Div0.mod_mul, Nat.eqb_refl, Nat.div_mul by lia.
    rewrite view_eq by (rewrite Sx, numel_snoc, !numel_cons, numel_nil; lia).
    rsimpl. unfold addmm, rank. cbn [shape length]. rewrite Hw.
    cbn [length Nat.eqb andb].
    unfold matmul, rank. cbn [shape length Nat.leb andb Nat.sub nth]. rewrite Hw.
    cbn [length Nat.leb andb Nat.sub nth].
    destruct (n =? nx) eqn:E; [apply Nat.eqb_eq in E; contradiction|]. reflexivity.
Qed.

Lemma conv1d_forward_rejects_misfit_witness :
  Conv1D.forward (ex_conv 6 2) (zeros []) = raise IndexError /\
  Conv1D.forward (ex_conv 6 2) (ones [1; 2; 3]) = raise RuntimeError.
Proof.
  destruct (conv1d_forward_rejects_misfit (ex_conv 6 2) 2) as [H1 H2];
    [split; reflexivity|].
  split; [apply H1; reflexivity|apply (H2 _ [1; 2] 3); [reflexivity|lia]].
Defined.

(** ** Heads *)

(** X3: splitting the features into heads and merging the heads again
    gives back the tensor: same shape, same entries. *)
Theorem merge_heads_split_heads self x B T H D :
  Attention.n_head self = H -> 0 < H -> shape x = [B; T; H * D] ->
  exists y z,
    Attention.split_heads self x false = ok y /\ shape y = [B; H; T; D] /\
    Attention.merge_heads y = ok z /\ teq z x.
Proof.
  intros EH HH Sx.
  destruct (split_heads_spec self x B T H D false EH HH Sx) as (y & Ey & Sy & Hy).
  destruct (merge_heads_spec y B H T D Sy) as (z & Ez & Sz & Hz).
  exists y, z. split; [exact Ey|]. split; [exact Sy|]. split; [exact Ez|].
  split; [congruence|].
  intros idx Hidx. rewrite Sz in Hidx.
  inversion Hidx as [|b ? ? ? Hb H1]; subst. inversion H1 as [|t ? ? ? Ht H2]; subst.
  inversion H2 as [|c ? ? ? Hc H3]; subst. inversion H3; subst.
  rewrite Hz by assumption.
  assert (0 < D) by nia.
  rewrite Hy; [|assumption|apply Nat.Div0.div_lt_upper_bound; nia|assumption
               |apply Nat.mod_upper_bound; lia].
  do 4 f_equal. rewrite (Nat.mul_comm (c / D) D). symmetry. apply Nat.div_mod_eq.
Qed.

Lemma merge_heads_split_heads_witness :
  exists y z,
    Attention.split_heads ex_attn (ex_x 2) false = ok y /\ shape y = [1; 1; 2; 2] /\
    Attention.merge_heads y = ok z /\ teq z (ex_x 2).
Proof.
  apply (merge_heads_split_heads ex_attn (ex_x 2) 1 2 1 2); [reflexivity|lia|reflexivity].
Defined.

(** X4: the key layout is the transpose of the query and value layout:
    splitting with [k=True] gives, entry for entry, the last two axes of
    the [k=False] split swapped. *)
Theorem split_heads_key_is_transpose self x B T H D :
  Attention.n_head self = H -> 0 < H -> shape x = [B; T; H * D] ->
  exists yk yv t,
    Attention.split_heads self x true = ok yk /\
    Attention.split_heads self x false = ok yv /\
    transpose_last2 yv = ok t /\
    shape yk = [B; H; D; T] /\ shape t = shape yk /\
    forall b h d j, b < B -> h < H -> d < D -> j < T ->
      elem yk [b; h; d; j] = elem t [b; h; d; j] /\
      elem yk [b; h; d; j] = elem yv [b; h; j; d].
Proof.
  intros EH HH Sx.
  destruct (split_heads_spec self x B T H D true EH HH Sx) as (yk & Ek & Sk & Hk).
  destruct (split_heads_spec self x B T H D false EH HH Sx) as (yv & Ev & Sv & Hv).
  exists yk, yv. unfold transpose_last2, rank. rewrite Sv. cbn [length Nat.leb swap_last2].
  eexists. split; [exact Ek|]. split; [exact Ev|]. split; [reflexivity|].
  split; [exact Sk|]. split; [rewrite Sk; reflexivity|].
  intros b h d j Hb Hh Hd Hj. cbn [elem swap_last2].
  rewrite Hk, Hv by assumption. split; reflexivity.
Qed.

Lemma split_heads_key_is_transpose_witness :
  exists yk yv t,
    Attention.split_heads ex_attn (ex_x 2) true = ok yk /\
    Attention.split_heads ex_attn (ex_x 2) false = ok yv /\
    transpose_last2 yv = ok t /\
    shape yk = [1; 1; 2; 2] /\ shape t = shape yk /\
    forall b h d j, b < 1 -> h < 1 -> d < 2 -> j < 2 ->
      elem yk [b; h; d; j] = elem t [b; h; d; j] /\
      elem yk [b; h; d; j] = elem yv [b; h; j; d].
Proof.
  apply (split_heads_key_is_transpose ex_attn (ex_x 2) 1 2 1 2);
    [reflexivity|lia|reflexivity].
Defined.

(** ** Decoding with a cache *)

Lemma proj_row a F x x' b i i' j :
  (forall f, f < F -> elem x [b; i; f] = elem x' [b; i'; f]) ->
  proj a F x b i j = proj a F x' b i' j.
Proof.
  intros He. unfold proj, affine. f_equal.
  apply sum_n_ext. intros f Hf. rewrite (He f Hf). reflexivity.
Qed.

Lemma affine_ext c n row row' k :
  (forall i, i < n -> row i = row' i) -> affine c n row k = affine c n row' k.
Proof.
  intros He. unfold affine. f_equal.
  apply sum_n_ext. intros i Hi. rewrite (He i Hi). reflexivity.
Qed.

Lemma valid_idx5 n1 n2 n3 n4 n5 idx :
  valid_idx [n1; n2; n3; n4; n5] idx ->
  exists i1 i2 i3 i4 i5, idx = [i1; i2; i3; i4; i5] /\
    i1 < n1 /\ i2 < n2 /\ i3 < n3 /\ i4 < n4 /\ i5 < n5.
Proof.
  intros H0.
  inversion H0 as [|i1 ? l1 ? Hi1 H1]; subst. inversion H1 as [|i2 ? l2 ? Hi2 H2]; subst.
  inversion H2 as [|i3 ? l3 ? Hi3 H3]; subst. inversion H3 as [|i4 ? l4 ? Hi4 H4]; subst.
  inversion H4 as [|i5 ? l5 ? Hi5 H5]; subst. inversion H5; subst.
  exists i1, i2, i3, i4, i5. repeat split; assumption.
Qed.

Lemma attention_with_cache a x xp xr F S H B P T :
  Attention_wf F S H a -> 0 < F ->
  shape x = [B; P + T; F] -> shape xp = [B; P; F] -> shape xr = [B; T; F] ->
  prefix_rest B F P T x xp xr -> P + T <= S ->
  exists outp cache outr cache' out full,
    Attention.forward a xp None = ok (outp, cache) /\
    Attention.forward a xr (Some cache) = ok (outr, cache') /\
    Attention.forward a x None = ok (out, full) /\
    shape outr = [B; T; F] /\ shape out = [B; P + T; F] /\
    shape cache' = [2; B; H; P + T; F / H] /\ shape full = [2; B; H; P + T; F / H] /\
    (forall z b h j d, z < 2 -> b < B -> h < H -> j < P + T -> d < F / H ->
       elem cache' [z; b; h; j; d] = elem full [z; b; h; j; d]) /\
    (forall z b h j d, z < 2 -> b < B -> h < H -> j < P -> d < F / H ->
       elem cache [z; b; h; j; d] = elem full [z; b; h; j; d]) /\
    forall b t f, b < B -> t < T -> f < F ->
      elem outr [b; t; f] = elem out [b; P + t; f].
Proof.
  intros Wf HF Sx Sxp Sxr [Hp Hr] HS.
  pose proof Wf as (EH & _ & HH & Hmod & Hm & _).
  set (D := F / H) in *.
  assert (EF : F = H * D) by (unfold D; pose proof (Nat.div_mod_eq F H); lia).
  (* the prefix alone *)
  destruct (Attention_forward_spec a xp None F S H B P 0 Wf HF Sxp eq_refl ltac:(lia))
    as (qp & kp & vp & cache & wp & outp & Eqp & _ & _ & Efp & _ & Scache & _).
  destruct (qkv_spec a xp None F S H B P 0 Wf HF Sxp eq_refl)
    as (qp' & kp' & vp' & cache0 & Eqp' & _ & _ & _ & _ & _ & Hkvp & Hprp).
  rewrite Eqp in Eqp'. injection Eqp' as <- <- <- <-.
  change (0 + P) with P in Scache, Hkvp.
  (* the rest, with the cache of the prefix *)
  destruct (Attention_forward_spec a xr (Some cache) F S H B T P Wf HF Sxr Scache HS)
    as (qr & kr & vr & cache' & wr & outr & Eqr & Ewr & _ & Efr & Soutr & Scache' & Houtr).
  destruct (qkv_spec a xr (Some cache) F S H B T P Wf HF Sxr Scache)
    as (qr' & kr' & vr' & cache1 & Eqr' & Sqr & Skr & Svr & _ & Hqr & Hkvr & Hprr).
  rewrite Eqr in Eqr'. injection Eqr' as <- <- <- <-.
  destruct (masked_scores_spec a S qr kr vr B H D T (P + T) Hm Sqr Skr Svr ltac:(lia) HS)
    as (mbr & wr' & _ & _ & Hmbr & Ewr' & _ & Hwr).
  rewrite Ewr in Ewr'. injection Ewr' as <-.
  (* the whole sequence *)
  destruct (Attention_forward_spec a x None F S H B (P + T) 0 Wf HF Sx eq_refl ltac:(lia))
    as (q & k & v & full & w & out & Eq & Ew & _ & Ef & Sout & Sfull & Hout).
  destruct (qkv_spec a x None F S H B (P + T) 0 Wf HF Sx eq_refl)
    as (q' & k' & v' & full0 & Eq' & Sq & Sk & Sv & _ & Hq & Hkv & Hpr).
  rewrite Eq in Eq'. injection Eq' as <- <- <- <-.
  change (0 + (P + T)) with (P + T) in *.
  destruct (masked_scores_spec a S q k v B H D (P + T) (P + T) Hm Sq Sk Sv (le_n _) HS)
    as (mb & w' & _ & _ & Hmb & Ew' & _ & Hw).
  rewrite Ew in Ew'. injection Ew' as <-.
  (* keys and values of the two runs *)
  assert (Hkey : forall b h d j, b < B -> h < H -> d < D -> j < P + T ->
            elem kr [b; h; d; j] = elem k [b; h; d; j] /\
            elem vr [b; h; j; d] = elem v [b; h; j; d]).
  { intros b h d j Hb Hh Hd Hj.
    destruct (Hkvr b h d j Hb Hh Hd Hj) as [-> ->].
    destruct (Hkv b h d j Hb Hh Hd Hj) as [-> ->].
    change (j <? 0) with false. cbv iota. rewrite Nat.sub_0_r. cbn [past_elem].
    destruct (Nat.ltb_spec j P) as [Hlt|Hge].
    - destruct (Hprp b h j d) as [-> ->].
      destruct (Hkvp b h d j Hb Hh Hd Hlt) as [-> ->].
      change (j <? 0) with false. cbv iota. rewrite Nat.sub_0_r.
      split; apply proj_row; intros f Hf; apply Hp; assumption.
    - split; apply proj_row; intros f Hf; rewrite Hr by (assumption || lia);
        do 3 f_equal; lia. }
  assert (Hquery : forall b h t d, b < B -> h < H -> t < T -> d < D ->
            elem qr [b; h; t; d] = elem q [b; h; P + t; d]).
  { intros b h t d Hb Hh Ht Hd.
    rewrite Hqr, Hq by (assumption || lia).
    apply proj_row. intros f Hf. apply Hr; assumption. }
  assert (Hscores : forall b h t j, b < B -> h < H -> t < T -> j < P + T ->
            elem wr [b; h; t; j] = elem w [b; h; P + t; j]).
  { intros b h t j Hb Hh Ht Hj. cbv zeta in Hwr, Hw.
    rewrite Hwr, Hw by (assumption || lia).
    rewrite Hmbr, Hmb by (assumption || lia).
    replace (P + T - (P + T) + (P + t)) with (P + T - T + t) by lia.
    do 2 f_equal. unfold score.
    assert (Es : sum_n D (fun d => (elem qr [b; h; t; d] * elem kr [b; h; d; j])%R)
               = sum_n D (fun d => (elem q [b; h; (P + t)%nat; d] * elem k [b; h; d; j])%R)).
    { apply sum_n_ext. intros d Hd.
      rewrite Hquery by assumption.
      destruct (Hkey b h d j Hb Hh Hd Hj) as [-> _]. reflexivity. }
    rewrite Es. reflexivity. }
  exists outp, cache, outr, cache', out, full.
  repeat (split; [assumption|]). split; [|split].
  - intros z b h j d Hz Hb Hh Hj Hd.
    destruct (Hkey b h d j Hb Hh Hd Hj) as [Ek Ev].
    destruct (Hprr b h j d) as [E0 E1]. destruct (Hpr b h j d) as [E0' E1'].
    destruct z as [|[|z]]; [congruence|congruence|lia].
  - intros z b h j d Hz Hb Hh Hj Hd.
    destruct (Hprp b h j d) as [E0 E1]. destruct (Hpr b h j d) as [E0' E1'].
    destruct (Hkvp b h d j Hb Hh Hd Hj) as [Ek Ev].
    destruct (Hkv b h d j Hb Hh Hd ltac:(lia)) as [Ek' Ev'].
    change (j <? 0) with false in Ek, Ev, Ek', Ev'. cbv iota in Ek, Ev, Ek', Ev'.
    rewrite Nat.sub_0_r in Ek, Ev, Ek', Ev'.
    assert (Epk : forall c, proj a F xp b j c = proj a F x b j c).
    { intros c. apply proj_row. intros f Hf. apply Hp; assumption. }
    destruct z as [|[|z]]; [|  |lia].
    + rewrite E0, E0', Ek, Ek'. apply Epk.
    + rewrite E1, E1', Ev, Ev'. apply Epk.
  - intros b t f Hb Ht Hf.
    rewrite Houtr, Hout by (assumption || lia).
    apply affine_ext. intros c Hc. unfold attended. fold D. cbv zeta.
    assert (HD : 0 < D) by nia.
    assert (Hh : c / D < H) by (apply Nat.Div0.div_lt_upper_bound; nia).
    assert (Hd : c mod D < D) by (apply Nat.mod_upper_bound; lia).
    apply sum_n_ext. intros j Hj.
    destruct (Hkey b (c / D) (c mod D) j Hb Hh Hd Hj) as [_ ->].
    f_equal. unfold weights. apply softmax_row_ext; [|assumption].
    intros j0 Hj0. apply Hscores; assumption.
Qed.

Lemma teq_cache c c' B H N D :
  shape c = [2; B; H; N; D] -> shape c' = [2; B; H; N; D] ->
  (forall z b h j d, z < 2 -> b < B -> h < H -> j < N -> d < D ->
     elem c [z; b; h; j; d] = elem c' [z; b; h; j; d]) ->
  teq c c'.
Proof.
  intros Sc Sc' He. split; [congruence|].
  intros idx Hidx. rewrite Sc in Hidx.
  destruct (valid_idx5 _ _ _ _ _ _ Hidx) as (z & b & h & j & d & -> & Hz & Hb & Hh & Hj & Hd).
  apply He; assumption.
Qed.

(** X5: decoding with the cache agrees with decoding the whole sequence.
    When the first [P] positions are processed alone and the following
    [T] are then processed with the cache that call returned, the
    attention output at each of the [T] positions is the output the
    whole sequence of [P + T] positions gives there, and the cache
    returned is the cache of the whole sequence; the cache of the first
    call is its first [P] positions. *)
Theorem attention_cached_equals_full a x xp xr F S H B P T :
  Attention_wf F S H a -> 0 < F ->
  shape x = [B; P + T; F] -> shape xp = [B; P; F] -> shape xr = [B; T; F] ->
  prefix_rest B F P T x xp xr -> P + T <= S ->
  exists outp cache outr cache' out full,
    Attention.forward a xp None = ok (outp, cache) /\
    Attention.forward a xr (Some cache) = ok (outr, cache') /\
    Attention.forward a x None = ok (out, full) /\
    shape outr = [B; T; F] /\ shape out = [B; P + T; F] /\
    teq cache' full /\
    (forall z b h j d, z < 2 -> b < B -> h < H -> j < P -> d < F / H ->
       elem cache [z; b; h; j; d] = elem full [z; b; h; j; d]) /\
    forall b t f, b < B -> t < T -> f < F ->
      elem outr [b; t; f] = elem out [b; P + t; f].
Proof.
  intros Wf HF Sx Sxp Sxr Hpr HS.
  destruct (attention_with_cache a x xp xr F S H B P T Wf HF Sx Sxp Sxr Hpr HS)
    as (outp & cache & outr & cache' & out & full & Ep & Er & Ef & Sr & So
        & Sc' & Sfull & Hc' & Hc & Hout).
  exists outp, cache, outr, cache', out, full.
  split; [exact Ep|]. split; [exact Er|]. split; [exact Ef|].
  split; [exact Sr|]. split; [exact So|].
  split; [exact (teq_cache cache' full B H (P + T) (F / H) Sc' Sfull Hc')|].
  split; [exact Hc|exact Hout].
Qed.

Lemma attention_cached_equals_full_witness :
  exists outp cache outr cache' out full,
    Attention.forward ex_attn (ex_x 1) None = ok (outp, cache) /\
    Attention.forward ex_attn (narrow (ex_x 2) 1 1 1) (Some cache) = ok (outr, cache') /\
    Attention.forward ex_attn (ex_x 2) None = ok (out, full) /\
    shape outr = [1; 1; 2] /\ shape out = [1; 1 + 1; 2] /\
    teq cache' full /\
    (forall z b h j d, z < 2 -> b < 1 -> h < 1 -> j < 1 -> d < 2 / 1 ->
       elem cache [z; b; h; j; d] = elem full [z; b; h; j; d]) /\
    forall b t f, b < 1 -> t < 1 -> f < 2 ->
      elem outr [b; t; f] = elem out [b; 1 + t; f].
Proof.
  apply (attention_cached_equals_full ex_attn (ex_x 2) (ex_x 1) (narrow (ex_x 2) 1 1 1)
           2 2 1 1 1 1);
    [exact ex_attn_wf|lia|reflexivity|reflexivity|reflexivity| |lia].
  split; intros b t f Hb Ht Hf; reflexivity.
Defined.

Lemma layer_norm_row_ext l n row row' k :
  (forall i, i < n -> row i = row' i) -> k < n ->
  layer_norm_row l n row k = layer_norm_row l n row' k.
Proof.
  intros He Hk. unfold layer_norm_row.
  assert (Em : mean_row n row = mean_row n row').
  { unfold mean_row. f_equal. apply sum_n_ext. exact He. }
  assert (Ev : var_row n row = var_row n row').
  { unfold var_row, mean_row at 1 3. f_equal. apply sum_n_ext.
    intros i Hi. rewrite Em, (He i Hi). reflexivity. }
  rewrite Em, Ev, (He k Hk). reflexivity.
Qed.

Lemma block_rest_ext blk F row row' f :
  (forall i, i < F -> row i = row' i) -> f < F ->
  block_rest blk F row f = block_rest blk F row' f.
Proof.
  intros He Hf. unfold block_rest. rewrite (He f Hf). f_equal.
  apply affine_ext. intros j _. f_equal.
  apply affine_ext. intros i Hi. apply layer_norm_row_ext; assumption.
Qed.

Lemma Block_forward_rows blk x past S F H B T P :
  Block_wf S F H blk -> 0 < F -> shape x = [B; T; F] ->
  past_ok B H (F / H) P past -> P + T <= S ->
  exists n1 a present out,
    LayerNorm.forward (Block.ln_1 blk) x = ok n1 /\ shape n1 = [B; T; F] /\
    (forall b t f, b < B -> t < T -> f < F ->
       elem n1 [b; t; f] = layer_norm_row (Block.ln_1 blk) F (fun i => elem x [b; t; i]) f) /\
    Attention.forward (Block.attn blk) n1 past = ok (a, present) /\
    Block.forward blk x past = ok (out, present) /\
    shape out = [B; T; F] /\ shape present = [2; B; H; P + T; F / H] /\
    forall b t f, b < B -> t < T -> f < F ->
      elem out [b; t; f] =
        block_rest blk F (fun i => elem x [b; t; i] + elem a [b; t; i])%R f.
Proof.
  intros (W1 & Wa & W2 & Wm) HF Sx Hp HS. unfold Block.forward.
  destruct (LayerNorm_forward_spec _ x [B; T] F W1 Sx) as (n1 & E1 & S1 & Hn1).
  destruct (Attention_forward_spec _ n1 past F S H B T P Wa HF S1 Hp HS)
    as (q & key & value & present & w & a & _ & _ & _ & Ea & Sa & Spr & _).
  destruct (tadd3_spec x a B T F Sx Sa) as (x1 & Ex1 & Sx1 & Hx1).
  destruct (LayerNorm_forward_spec _ x1 [B; T] F W2 Sx1) as (n2 & E2 & S2 & Hn2).
  destruct (MLP_forward_spec _ n2 [B; T] F Wm S2 HF) as (fc & m & _ & _ & Em & Sm & Hm).
  destruct (tadd3_spec x1 m B T F Sx1 Sm) as (out & Eo & So & Ho).
  exists n1, a, present, out.
  rewrite E1. rsimpl. rewrite Ea. rsimpl. rewrite Ex1. rsimpl.
  rewrite E2. rsimpl. rewrite Em. rsimpl. rewrite Eo. rsimpl.
  split; [reflexivity|]. split; [exact S1|]. split.
  { intros b t f Hb Ht Hf.
    exact (Hn1 [b; t] f ltac:(repeat constructor; assumption) Hf). }
  split; [reflexivity|]. split; [reflexivity|]. split; [exact So|]. split; [exact Spr|].
  intros b t f Hb Ht Hf.
  assert (Hbt : valid_idx [B; T] [b; t]) by (repeat constructor; assumption).
  rewrite Ho by assumption. unfold block_rest.
  rewrite Hx1 by assumption. f_equal.
  pose proof (Hm [b; t] f Hbt Hf) as Hmf. cbn [app] in Hmf. rewrite Hmf.
  apply affine_ext. intros j _. f_equal.
  apply affine_ext. intros i Hi.
  pose proof (Hn2 [b; t] i Hbt Hi) as Hni. cbn [app] in Hni. rewrite Hni.
  apply layer_norm_row_ext; [|assumption].
  intros i0 Hi0. apply Hx1; assumption.
Qed.

(** X6: a block decoding with its cache agrees with the block on the
    whole sequence.  The first [P] positions processed alone leave a
    cache; the block run on the following [T] positions with that cache
    returns, at each of them, the output it returns there on all [P + T]
    positions at once, and the same cache. *)
Theorem block_cached_equals_full blk x xp xr S F H B P T :
  Block_wf S F H blk -> 0 < F ->
  shape x = [B; P + T; F] -> shape xp = [B; P; F] -> shape xr = [B; T; F] ->
  prefix_rest B F P T x xp xr -> P + T <= S ->
  exists outp cache outr cache' out full,
    Block.forward blk xp None = ok (outp, cache) /\
    Block.forward blk xr (Some cache) = ok (outr, cache') /\
    Block.forward blk x None = ok (out, full) /\
    shape outr = [B; T; F] /\ shape out = [B; P + T; F] /\
    teq cache' full /\
    forall b t f, b < B -> t < T -> f < F ->
      elem outr [b; t; f] = elem out [b; P + t; f].
Proof.
  intros Wf HF Sx Sxp Sxr [Hp Hr] HS.
  pose proof Wf as (_ & Wa & _ & _).
  destruct (Block_forward_rows blk xp None S F H B P 0 Wf HF Sxp eq_refl ltac:(lia))
    as (n1p & ap & cache & outp & _ & S1p & H1p & Eap & Efp & _ & Scache & _).
  change (0 + P) with P in Scache.
  destruct (Block_forward_rows blk xr (Some cache) S F H B T P Wf HF Sxr Scache HS)
    as (n1r & ar & cache' & outr & _ & S1r & H1r & Ear & Efr & Soutr & _ & Houtr).
  destruct (Block_forward_rows blk x None S F H B (P + T) 0 Wf HF Sx eq_refl ltac:(lia))
    as (n1 & a & full & out & _ & S1 & H1 & Ea & Ef & Sout & _ & Hout).
  assert (Hn : prefix_rest B F P T n1 n1p n1r).
  { split; intros b t f Hb Ht Hf.
    - rewrite H1p, H1 by (assumption || lia).
      apply layer_norm_row_ext; [|assumption]. intros i Hi. apply Hp; assumption.
    - rewrite H1r, H1 by (assumption || lia).
      apply layer_norm_row_ext; [|assumption]. intros i Hi. apply Hr; assumption. }
  destruct (attention_with_cache (Block.attn blk) n1 n1p n1r F S H B P T
              Wa HF S1 S1p S1r Hn HS)
    as (ap' & cache0 & ar' & cache0' & a' & full' & Eap' & Ear' & Ea' & _ & _
        & Sc' & Sfull & Hc' & _ & Ha).
  rewrite Eap in Eap'. injection Eap' as <- <-.
  rewrite Ear in Ear'. injection Ear' as <- <-.
  rewrite Ea in Ea'. injection Ea' as <- <-.
  pose proof (teq_cache cache' full B H (P + T) (F / H) Sc' Sfull Hc') as Hteq.
  exists outp, cache, outr, cache', out, full.
  repeat (split; [assumption|]).
  intros b t f Hb Ht Hf.
  rewrite Houtr, Hout by (assumption || lia).
  apply block_rest_ext; [|assumption].
  intros i Hi. rewrite Hr, Ha by assumption. reflexivity.
Qed.

Lemma block_cached_equals_full_witness :
  exists outp cache outr cache' out full,
    Block.forward ex_block (ex_x 1) None = ok (outp, cache) /\
    Block.forward ex_block (narrow (ex_x 2) 1 1 1) (Some cache) = ok (outr, cache') /\
    Block.forward ex_block (ex_x 2) None = ok (out, full) /\
    shape outr = [1; 1; 2] /\ shape out = [1; 1 + 1; 2] /\
    teq cache' full /\
    forall b t f, b < 1 -> t < 1 -> f < 2 ->
      elem outr [b; t; f] = elem out [b; 1 + t; f].
Proof.
  apply (block_cached_equals_full ex_block (ex_x 2) (ex_x 1) (narrow (ex_x 2) 1 1 1)
           2 2 1 1 1 1);
    [exact ex_block_wf|lia|reflexivity|reflexivity|reflexivity| |lia].
  split; intros b t f Hb Ht Hf; reflexivity.
Defined.

(** ** Attention weights *)






(** ** Normalization *)








(** ** Activation *)





(** ** A cache that does not fit *)

Lemma qkv_before_past a x F S H B T :
  Attention_wf F S H a -> 0 < F -> shape x = [B; T; F] ->
  exists q k v,
    shape q = [B; H; T; F / H] /\ shape k = [B; H; F / H; T] /\
    shape v = [B; H; T; F / H] /\
    forall past,
      Attention.qkv a x past =
        (let* (key, value) := Attention.extend_past past k v in
         let* kt := transpose_last2 key in
         let* present := stack kt value in
         ok (q, key, value, present)).
Proof.
  intros (EH & ES & HH & Hmod & _ & Wc & Nc & _ & _) HF Hx.
  set (D := F / H) in *.
  assert (EF : F = H * D).
  { unfold D. pose proof (Nat.div_mod_eq F H). lia. }
  unfold Attention.qkv.
  destruct (Conv1D_forward_spec _ x [B; T] F Wc Hx HF) as (c & Ec & Sc & Hc).
  rewrite Ec. rsimpl. rewrite Nc in Sc, Hc. cbn [app] in Sc.
  destruct (split3_spec c B T F HF Sc) as (q0 & k0 & v0 & Es & Sq0 & Sk0 & Sv0 & Hs).
  rewrite ES, Es. rsimpl. cbn [Attention.unpack3]. rsimpl.
  rewrite EF in Sq0, Sk0, Sv0.
  destruct (split_heads_spec a q0 B T H D false EH HH Sq0) as (q & Eq & Sq & Hq).
  destruct (split_heads_spec a k0 B T H D true EH HH Sk0) as (k & Ek & Sk & Hk).
  destruct (split_heads_spec a v0 B T H D false EH HH Sv0) as (v & Ev & Sv & Hv).
  rewrite Eq. rsimpl. rewrite Ek. rsimpl. rewrite Ev. rsimpl.
  exists q, k, v. repeat (split; [assumption|]). intros past. reflexivity.
Qed.

(** X11: a cache that does not fit the input is refused, never used.  If
    its batch size, head count or per-head width differs from the
    input's, putting it in front of the new keys fails with a
    RuntimeError; if it holds fewer than two tensors, taking the cached
    values fails with an IndexError. *)
Theorem cache_misfit_rejected a x lp F S H B T :
  Attention_wf F S H a -> 0 < F -> shape x = [B; T; F] ->
  (forall B' H' P D', shape lp = [2; B'; H'; P; D'] -> [B'; H'; D'] <> [B; H; F / H] ->
     Attention.forward a x (Some lp) = raise RuntimeError) /\
  (forall n s, shape lp = n :: s -> n < 2 -> 2 <= length s ->
     Attention.forward a x (Some lp) = raise IndexError).
Proof.
  intros Wf HF Sx.
  destruct (qkv_before_past a x F S H B T Wf HF Sx) as (q & k & v & Sq & Sk & Sv & Eqkv).
  split.
  - intros B' H' P D' Slp Hne. unfold Attention.forward. rewrite Eqkv.
    unfold Attention.extend_past, getitem. rewrite Slp. cbn [Nat.ltb Nat.leb]. rsimpl.
    unfold transpose_last2, rank. cbn [shape length Nat.leb]. rsimpl.
    cbn [swap_last2]. unfold cat, rank. cbn [shape length].
    rewrite (pydim_last 4) by lia. rsimpl. rewrite Sk.
    rewrite bool_decide_eq_false_2; [reflexivity|].
    cbn. intros E. apply Hne. congruence.
  - intros n s Slp Hn Hs. unfold Attention.forward. rewrite Eqkv.
    unfold Attention.extend_past, getitem. rewrite Slp.
    destruct n as [|[|n]]; [reflexivity| |lia].
    cbn [Nat.ltb Nat.leb]. rsimpl.
    unfold transpose_last2, rank. cbn [shape].
    destruct (Nat.leb_spec 2 (length s)) as [_|Hlt]; [|lia]. reflexivity.
Qed.

Lemma cache_misfit_rejected_witness :
  Attention.forward ex_attn (ex_x 1) (Some (zeros [2; 3; 1; 1; 2])) = raise RuntimeError /\
  Attention.forward ex_attn (ex_x 1) (Some (zeros [1; 1; 1; 1; 2])) = raise IndexError.
Proof.
  destruct (cache_misfit_rejected ex_attn (ex_x 1) (zeros [2; 3; 1; 1; 2]) 2 2 1 1 1)
    as [H1 _]; [exact ex_attn_wf|lia|reflexivity|].
  destruct (cache_misfit_rejected ex_attn (ex_x 1) (zeros [1; 1; 1; 1; 2]) 2 2 1 1 1)
    as [_ H2]; [exact ex_attn_wf|lia|reflexivity|].
  split.
  - apply (H1 3 1 1 2); [reflexivity|]. intros E. discriminate E.
  - apply (H2 1 [1; 1; 1; 2]); [reflexivity|lia|cbn; lia].
Defined.

(** ** The caches from call to call *)

Lemma layers_app g ints l1 l2 x acc :
  GPT2.layers g ints (l1 ++ l2) x acc =
    (let* (x', acc') := GPT2.layers g ints l1 x acc in GPT2.layers g ints l2 x' acc').
Proof.
  revert x acc. induction l1 as [|i l1 IH]; intros x acc; cbn [app GPT2.layers].
  - reflexivity.
  - destruct (GPT2.h g !! i) as [blk|]; rsimpl; [|reflexivity].
    destruct (ints !! i) as [past|]; rsimpl; [|reflexivity].
    destruct (Block.forward blk x past) as [e|[x' p]]; rsimpl; [reflexivity|].
    apply IH.
Qed.

Lemma layers_threaded_part g ints pre blocks post x y ps acc :
  GPT2.h g = pre ++ blocks ++ post ->
  threaded ints (length pre) blocks x y ps ->
  GPT2.layers g ints (seq (length pre) (length blocks)) x acc = ok (y, acc ++ ps).
Proof.
  revert pre x ps acc. induction blocks as [|blk blocks IH]; intros pre x ps acc Hh Ht;
    inversion Ht; subst; cbn [length seq GPT2.layers].
  - rewrite app_nil_r. reflexivity.
  - rewrite Hh. rewrite lookup_app_r by lia. rewrite Nat.sub_diag.
    cbn [app lookup list_lookup]. rsimpl.
    match goal with Hp : ints !! _ = Some _ |- _ => rewrite Hp end. rsimpl.
    match goal with Hf : Block.forward _ _ _ = _ |- _ => rewrite Hf end. rsimpl.
    replace (S (length pre)) with (length (pre ++ [blk])) in * by (rewrite length_app; cbn; lia).
    rewrite (IH (pre ++ [blk]) _ ps0).
    + rewrite <- app_assoc. reflexivity.
    + rewrite <- app_assoc. exact Hh.
    + assumption.
Qed.

Lemma threaded_shapes S F H B T P ints blocks i x :
  Forall (Block_wf S F H) blocks -> 0 < F -> shape x = [B; T; F] -> P + T <= S ->
  (forall k, i <= k < i + length blocks ->
     exists past, ints !! k = Some past /\ past_ok B H (F / H) P past) ->
  exists y ps, threaded ints i blocks x y ps /\ shape y = [B; T; F] /\
    Forall (fun p => shape p = [2; B; H; P + T; F / H]) ps.
Proof.
  intros Hwf HF. revert i x.
  induction Hwf as [|blk blocks Hb Hwf IH]; intros i x Sx HS Hc.
  - exists x, []. split; [constructor|]. split; [assumption|constructor].
  - destruct (Hc i ltac:(cbn [length]; lia)) as (past & Hpast & Hp).
    destruct (Block_forward_spec blk x past S F H B T P Hb HF Sx Hp HS)
      as (n1 & a & present & x1 & n2 & m & out & _ & _ & _ & _ & _ & _ & Efw & So & Spr & _).
    destruct (IH (Datatypes.S i) out So HS) as (y & ps & Ht & Sy & Hps).
    { intros k Hk. apply Hc. cbn [length]. lia. }
    exists y, (present :: ps). split; [|split; [assumption|constructor; assumption]].
    econstructor; eassumption.
Qed.

(** X12: a layer without a cache entry stops the call.  When the layers
    before layer [k] have entries that fit and layer [k] has none, the
    stack raises KeyError; no later layer runs and nothing is
    returned. *)
Theorem missing_cache_entry_raises g x ints S F H B T k :
  GPT2_wf S F H g -> 0 < F -> shape x = [B; T; F] ->
  k < GPT2.nb_layer g -> ints !! k = None ->
  caches_ok S H (F / H) B T ints k ->
  GPT2._forward g x ints = raise KeyError.
Proof.
  intros (Hlen & Wb & _) HF Sx Hk Hnone Hc.
  assert (Hsplit : GPT2.h g = [] ++ take k (GPT2.h g) ++ drop k (GPT2.h g)).
  { cbn [app]. symmetry. apply take_drop. }
  assert (Hlk : length (take k (GPT2.h g)) = k) by (rewrite length_take; lia).
  destruct (threaded_total S F H B T ints (take k (GPT2.h g)) 0 x) as (y & ps & Ht & _).
  { apply Forall_take. exact Wb. }
  { exact HF. }
  { exact Sx. }
  { rewrite Hlk. exact Hc. }
  pose proof (layers_threaded_part g ints [] _ _ x y ps [] Hsplit Ht) as El.
  change (length (@nil (Block.t tensor))) with 0 in El. rewrite Hlk in El.
  destruct (lookup_lt_is_Some_2 (GPT2.h g) k ltac:(lia)) as (blk & Hblk).
  unfold GPT2._forward.
  replace (GPT2.nb_layer g) with (k + Datatypes.S (GPT2.nb_layer g - Datatypes.S k)) by lia.
  rewrite seq_app, layers_app, El. rsimpl. cbn [seq GPT2.layers Nat.add].
  rewrite Hblk. rsimpl. rewrite Hnone. reflexivity.
Qed.

Lemma missing_cache_entry_raises_witness :
  GPT2._forward ex_gpt2 (ex_x 2) (<[0 := None]> ∅) = raise KeyError.
Proof.
  apply (missing_cache_entry_raises ex_gpt2 (ex_x 2) (<[0 := None]> ∅) 2 2 1 1 2 1);
    [exact ex_gpt2_wf|lia|reflexivity|cbn; lia|reflexivity|].
  intros i Hi. assert (i = 0) as -> by lia.
  exists None, 0. split; [reflexivity|]. split; [reflexivity|lia].
Defined.

Lemma new_internals_lookup {P} (g : GPT2.t P) i :
  GPT2._new_internals g !! i = if i <? GPT2.nb_layer g then Some None else None.
Proof.
  unfold GPT2._new_internals. rewrite lookup_map_seq_0.
  destruct (Nat.ltb_spec i (GPT2.nb_layer g)) as [Hlt|Hge].
  - apply lookup_replicate_2. exact Hlt.
  - apply lookup_ge_None_2. rewrite length_replicate. exact Hge.
Qed.

Lemma GPT2_forward_step g S F H x ints B T P :
  GPT2_wf S F H g -> 0 < F -> shape x = [B; T; F] -> P + T <= S ->
  caches_at B H (F / H) P ints (GPT2.nb_layer g) ->
  exists xN ps y,
    threaded ints 0 (GPT2.h g) x xN ps /\ shape xN = [B; T; F] /\
    Forall (fun p => shape p = [2; B; H; P + T; F / H]) ps /\
    length ps = GPT2.nb_layer g /\
    LayerNorm.forward (GPT2.ln_f g) xN = ok y /\ shape y = [B; T; F] /\
    GPT2._forward g x ints = ok (y, map_seq 0 (Some <$> ps)).
Proof.
  intros (Hlen & Wb & Wl) HF Sx HS Hc.
  destruct (threaded_shapes S F H B T P ints (GPT2.h g) 0 x Wb HF Sx HS)
    as (xN & ps & Ht & SN & Hps).
  { intros k Hk. apply Hc. lia. }
  destruct (LayerNorm_forward_spec _ xN [B; T] F Wl SN) as (y & Ey & Sy & _).
  pose proof (threaded_length _ _ _ _ _ _ Ht) as Hlps.
  exists xN, ps, y. repeat (split; [assumption || congruence|]).
  unfold GPT2._forward. rewrite <- Hlen.
  pose proof (layers_threaded g ints [] (GPT2.h g) x xN ps [] eq_refl Ht) as El.
  change (length (@nil (Block.t tensor))) with 0 in El. rewrite El.
  rsimpl. cbn [app]. rewrite Ey. reflexivity.
Qed.


(** X13: the caches carry over from call to call.  The fresh internals
    have one empty entry per layer and no other.  A call on [T]
    positions with caches of [P] positions, [P + T] within the maximum,
    returns an output of the input's shape and caches of [P + T]
    positions, again one per layer and no other: the returned internals
    are fit to be passed to the next call. *)
Theorem caches_carry_over g S F H :
  GPT2_wf S F H g -> 0 < F ->
  ((forall B, caches_at B H (F / H) 0 (GPT2._new_internals g) (GPT2.nb_layer g)) /\
   forall i, GPT2.nb_layer g <= i -> GPT2._new_internals g !! i = None) /\
  forall x ints B T P,
    shape x = [B; T; F] -> P + T <= S ->
    caches_at B H (F / H) P ints (GPT2.nb_layer g) ->
    exists y m,
      GPT2._forward g x ints = ok (y, m) /\ shape y = [B; T; F] /\
      caches_at B H (F / H) (P + T) m (GPT2.nb_layer g) /\
      (forall i, i < GPT2.nb_layer g -> exists p,
         m !! i = Some (Some p) /\ shape p = [2; B; H; P + T; F / H]) /\
      forall i, GPT2.nb_layer g <= i -> m !! i = None.
Proof.
  intros (Hlen & Wb & Wl) HF. split.
  - split.
    + intros B i Hi. exists None. rewrite new_internals_lookup.
      destruct (Nat.ltb_spec i (GPT2.nb_layer g)); [split; reflexivity|lia].
    + intros i Hi. rewrite new_internals_lookup.
      destruct (Nat.ltb_spec i (GPT2.nb_layer g)); [lia|reflexivity].
  - intros x ints B T P Sx HS Hc.
    destruct (GPT2_forward_step g S F H x ints B T P (conj Hlen (conj Wb Wl)) HF Sx HS Hc)
      as (xN & ps & y & Ht & SN & Hps & Hlps & Ey & Sy & Efw).
    assert (Hm : forall i, i < GPT2.nb_layer g -> exists p,
               (map_seq 0 (Some <$> ps) : gmap nat (option tensor)) !! i = Some (Some p) /\
               shape p = [2; B; H; P + T; F / H]).
    { intros i Hi. rewrite lookup_map_seq_0, list_lookup_fmap.
      destruct (lookup_lt_is_Some_2 ps i ltac:(lia)) as (p & Ep).
      exists p. rewrite Ep. split; [reflexivity|].
      exact (Forall_lookup_1 _ _ _ _ Hps Ep). }
    exists y, (map_seq 0 (Some <$> ps)). split; [exact Efw|].
    split; [exact Sy|]. split; [|split; [exact Hm|]].
    + intros i Hi. destruct (Hm i Hi) as (p & Ep & Sp).
      exists (Some p). split; [exact Ep|exact Sp].
    + intros i Hi. rewrite lookup_map_seq_0, list_lookup_fmap.
      rewrite (lookup_ge_None_2 ps i) by lia. reflexivity.
Qed.

Lemma caches_carry_over_witness :
  ((forall B, caches_at B 1 (2 / 1) 0 (GPT2._new_internals ex_gpt2) (GPT2.nb_layer ex_gpt2)) /\
   forall i, GPT2.nb_layer ex_gpt2 <= i -> GPT2._new_internals ex_gpt2 !! i = None) /\
  exists y m,
    GPT2._forward ex_gpt2 (ex_x 1) (GPT2._new_internals ex_gpt2) = ok (y, m) /\
    shape y = [1; 1; 2] /\
    caches_at 1 1 (2 / 1) (0 + 1) m (GPT2.nb_layer ex_gpt2) /\
    (forall i, i < GPT2.nb_layer ex_gpt2 -> exists p,
       m !! i = Some (Some p) /\ shape p = [2; 1; 1; 0 + 1; 2 / 1]) /\
    forall i, GPT2.nb_layer ex_gpt2 <= i -> m !! i = None.
Proof.
  destruct (caches_carry_over ex_gpt2 2 2 1 ex_gpt2_wf ltac:(lia)) as [H0 Hstep].
  split; [exact H0|].
  apply (Hstep (ex_x 1) (GPT2._new_internals ex_gpt2) 1 1 0); [reflexivity|lia|].
  exact (proj1 H0 1).
Defined.

(** ** What the constructor returns *)

Lemma GPT2_init_short s nb H eps w :
  length s < 2 -> GPT2.init s nb H eps w = inl IndexError.
Proof.
  intros Hs. unfold GPT2.init. unfold mbind at 1.
  rewrite getitem_tuple_short by assumption. reflexivity.
Qed.

Lemma GPT2_init_fails pre S F nb H eps w :
  H = 0 \/ F mod H <> 0 ->
  GPT2.init (pre ++ [S; F]) nb H eps w =
    inl (if H =? 0 then ZeroDivisionError else AssertionError).
Proof.
  intros Hbad. unfold GPT2.init.
  unfold mbind at 1. rewrite getitem_tuple_last2. cbn [lift ok].
  unfold mbind at 1. rewrite getitem_tuple_last. cbn [lift ok].
  unfold mbind at 1. unfold Block.init.
  unfold mbind at 1. rewrite LayerNorm_init_eq.
  unfold mbind at 1.
  rewrite Attention_init_fails by exact Hbad. reflexivity.
Qed.

Lemma GPT2_init_built pre S F nb H eps w :
  0 < H -> F mod H = 0 ->
  exists g w',
    GPT2.init (pre ++ [S; F]) nb H eps w = inr (g, w') /\
    GPT2.nb_layer g = nb /\ length (GPT2.h g) = nb /\
    GPT2._output_shape g = pre ++ [S; F] /\
    GPT2_wf S F H (GPT2.fmap (deref (heap w')) g) /\
    LayerNorm.variance_epsilon (GPT2.ln_f g) = eps /\
    forall b, In b (GPT2.h g) ->
      LayerNorm.variance_epsilon (Block.ln_1 b) = eps /\
      LayerNorm.variance_epsilon (Block.ln_2 b) = eps.
Proof.
  intros HH Hmod.
  destruct (GPT2_init_ok pre S F nb H eps w HH Hmod)
    as (g & w' & blk & Ei & Hh & Hnb & Hshape & _).
  exists g, w'. split; [exact Ei|]. split; [exact Hnb|].
  split; [rewrite Hh, length_map, length_seq; reflexivity|].
  split; [exact Hshape|].
  split; [exact (GPT2_init_wf pre S F nb H eps w g w' Ei)|].
  exact (GPT2_init_eps _ nb H eps w g w' Ei).
Qed.

(** X14: what constructing the stack gives.  An input shape of fewer than
    two axes is an IndexError; with the last two axes (S, F): zero heads
    is a ZeroDivisionError, a head count that does not divide F an
    AssertionError, and otherwise the stack is built with the requested
    number of blocks (none, if zero is asked for), its output shape is
    the input shape, its parameters have the shapes the forward pass
    needs for up to S positions, and every normalization uses the given
    epsilon. *)
Theorem construction_outcomes s nb H eps w :
  (length s < 2 -> GPT2.init s nb H eps w = inl IndexError) /\
  forall pre S F, s = pre ++ [S; F] ->
    (H = 0 -> GPT2.init s nb H eps w = inl ZeroDivisionError) /\
    (0 < H -> F mod H <> 0 -> GPT2.init s nb H eps w = inl AssertionError) /\
    (0 < H -> F mod H = 0 ->
       exists g w',
         GPT2.init s nb H eps w = inr (g, w') /\
         GPT2.nb_layer g = nb /\ length (GPT2.h g) = nb /\
         GPT2._output_shape g = s /\
         GPT2_wf S F H (GPT2.fmap (deref (heap w')) g) /\
         LayerNorm.variance_epsilon (GPT2.ln_f g) = eps /\
         forall b, In b (GPT2.h g) ->
           LayerNorm.variance_epsilon (Block.ln_1 b) = eps /\
           LayerNorm.variance_epsilon (Block.ln_2 b) = eps).
Proof.
  split; [apply GPT2_init_short|].
  intros pre S F ->. split; [|split].
  - intros ->. rewrite GPT2_init_fails by (left; reflexivity). reflexivity.
  - intros HH Hmod. rewrite GPT2_init_fails by (right; exact Hmod).
    destruct (Nat.eqb_spec H 0); [lia|reflexivity].
  - intros HH Hmod. exact (GPT2_init_built pre S F nb H eps w HH Hmod).
Qed.

Lemma construction_outcomes_witness :
  GPT2.init [4] 2 2 1e-5%R world0 = inl IndexError /\
  GPT2.init [3; 4] 2 0 1e-5%R world0 = inl ZeroDivisionError /\
  GPT2.init [3; 4] 2 3 1e-5%R world0 = inl AssertionError /\
  exists g w',
    GPT2.init [3; 4] 2 2 1e-5%R world0 = inr (g, w') /\
    GPT2.nb_layer g = 2 /\ length (GPT2.h g) = 2 /\
    GPT2._output_shape g = [3; 4] /\
    GPT2_wf 3 4 2 (GPT2.fmap (deref (heap w')) g) /\
    LayerNorm.variance_epsilon (GPT2.ln_f g) = 1e-5%R /\
    forall b, In b (GPT2.h g) ->
      LayerNorm.variance_epsilon (Block.ln_1 b) = 1e-5%R /\
      LayerNorm.variance_epsilon (Block.ln_2 b) = 1e-5%R.
Proof.
  split; [apply (construction_outcomes [4] 2 2 1e-5%R world0); cbn; lia|].
  split; [apply (construction_outcomes [3; 4] 2 0 1e-5%R world0) with (pre := []) (S := 3) (F := 4);
          reflexivity|].
  split; [apply (construction_outcomes [3; 4] 2 3 1e-5%R world0) with (pre := []) (S := 3) (F := 4);
          [reflexivity|lia|vm_compute; lia]|].
  apply (construction_outcomes [3; 4] 2 2 1e-5%R world0) with (pre := []) (S := 3) (F := 4);
    [reflexivity|lia|reflexivity].
Defined.

(** X15: built from the class defaults, the stack has twelve blocks of
    twelve heads and normalizes with epsilon 1e-5 throughout; it can be
    built exactly when the feature length is a multiple of twelve, and
    fails with an AssertionError otherwise. *)
Theorem from_args_defaults pre S F w :
  (F mod 12 <> 0 ->
     GPT2.from_args GPT2.args (pre ++ [S; F]) w = inl AssertionError) /\
  (F mod 12 = 0 ->
     exists g w',
       GPT2.from_args GPT2.args (pre ++ [S; F]) w = inr (g, w') /\
       GPT2.nb_layer g = 12 /\ length (GPT2.h g) = 12 /\
       GPT2_wf S F 12 (GPT2.fmap (deref (heap w')) g) /\
       LayerNorm.variance_epsilon (GPT2.ln_f g) = 1e-5%R /\
       forall b, In b (GPT2.h g) ->
         Attention.n_head (Block.attn b) = 12 /\
         LayerNorm.variance_epsilon (Block.ln_1 b) = 1e-5%R /\
         LayerNorm.variance_epsilon (Block.ln_2 b) = 1e-5%R).
Proof.
  unfold GPT2.from_args, GPT2.args.
  cbn [GPT2.args_nb_layer GPT2.args_nb_head GPT2.args_layer_norm_eps].
  unfold GPT2.default_nb_layer, GPT2.default_nb_head, GPT2.default_layer_norm_eps.
  split.
  - intros Hmod. rewrite GPT2_init_fails by (right; exact Hmod). reflexivity.
  - intros Hmod.
    destruct (GPT2_init_built pre S F 12 12 1e-5%R w ltac:(lia) Hmod)
      as (g & w' & Ei & Hnb & Hlen & _ & Wf & El & Hb).
    exists g, w'. repeat (split; [assumption|]).
    intros b Hin. destruct (Hb b Hin) as [E1 E2]. split; [|split; assumption].
    destruct Wf as (_ & Wb & _). cbn [GPT2.fmap GPT2.h] in Wb.
    rewrite List.Forall_forall in Wb.
    destruct (Wb (Block.fmap (deref (heap w')) b) (in_map _ _ _ Hin)) as (_ & Wa & _).
    destruct Wa as (En & _). exact En.
Qed.

Lemma from_args_defaults_witness :
  exists g w',
    GPT2.from_args GPT2.args ([] ++ [1024; 768]) world0 = inr (g, w') /\
    GPT2.nb_layer g = 12 /\ length (GPT2.h g) = 12 /\
    GPT2_wf 1024 768 12 (GPT2.fmap (deref (heap w')) g) /\
    LayerNorm.variance_epsilon (GPT2.ln_f g) = 1e-5%R /\
    forall b, In b (GPT2.h g) ->
      Attention.n_head (Block.attn b) = 12 /\
      LayerNorm.variance_epsilon (Block.ln_1 b) = 1e-5%R /\
      LayerNorm.variance_epsilon (Block.ln_2 b) = 1e-5%R.
Proof.
  apply (from_args_defaults [] 1024 768 world0). reflexivity.
Defined.

(** ** The initialisation pass *)

Lemma holds_kept σ σ' l c :
  holds σ l c -> length σ' = length σ -> deref σ' l = deref σ l -> holds σ' l c.
Proof. intros [Hl Hv] El Ed. split; [lia|]. rewrite Ed. exact Hv. Qed.

Lemma ln_reset_kept σ σ' l :
  ln_reset σ l -> length σ' = length σ ->
  deref σ' (LayerNorm.weight l) = deref σ (LayerNorm.weight l) ->
  deref σ' (LayerNorm.bias l) = deref σ (LayerNorm.bias l) ->
  ln_reset σ' l.
Proof. intros [Hw Hb] El Ew Eb. split; eapply holds_kept; eassumption. Qed.

Lemma init_weights_LayerNorm l w :
  GPT2._init_weights (LayerNorm.as_module l) w =
    inr (tt, World (<[LayerNorm.weight l :=
                        Tensor (shape (deref (<[LayerNorm.bias l :=
                                  Tensor (shape (deref (heap w) (LayerNorm.bias l)))
                                         (fun _ => 0%R)]> (heap w)) (LayerNorm.weight l)))
                               (fun _ => 1%R)]>
                   (<[LayerNorm.bias l :=
                        Tensor (shape (deref (heap w) (LayerNorm.bias l))) (fun _ => 0%R)]>
                      (heap w)))
                (rng w) (draws w)).
Proof. reflexivity. Qed.

Lemma init_weights_LayerNorm_post l w :
  ln_allocated (heap w) l ->
  exists w',
    GPT2._init_weights (LayerNorm.as_module l) w = inr (tt, w') /\
    length (heap w') = length (heap w) /\
    rng w' = rng w /\ draws w' = draws w /\
    (forall x, shape (deref (heap w') x) = shape (deref (heap w) x)) /\
    (forall x, x <> LayerNorm.weight l -> x <> LayerNorm.bias l ->
       deref (heap w') x = deref (heap w) x) /\
    deref (heap w') (LayerNorm.weight l)
      = Tensor (shape (deref (heap w) (LayerNorm.weight l))) (fun _ => 1%R) /\
    deref (heap w') (LayerNorm.bias l)
      = Tensor (shape (deref (heap w) (LayerNorm.bias l))) (fun _ => 0%R).
Proof.
  intros (Hw & Hb & Hne). eexists. split; [apply init_weights_LayerNorm|].
  cbn [heap rng draws].
  assert (Ew : deref (<[LayerNorm.bias l :=
                 Tensor (shape (deref (heap w) (LayerNorm.bias l))) (fun _ => 0%R)]> (heap w))
                 (LayerNorm.weight l) = deref (heap w) (LayerNorm.weight l)).
  { unfold deref. apply nth_insert_ne. congruence. }
  rewrite Ew.
  split; [rewrite !length_insert; reflexivity|].
  split; [reflexivity|]. split; [reflexivity|]. split; [|split; [|split]].
  - intros x. unfold deref.
    destruct (Nat.eq_dec (LayerNorm.weight l) x) as [<-|Hx].
    { rewrite nth_insert_eq by (rewrite length_insert; exact Hw). reflexivity. }
    rewrite nth_insert_ne by exact Hx.
    destruct (Nat.eq_dec (LayerNorm.bias l) x) as [<-|Hx'].
    { rewrite nth_insert_eq by exact Hb. reflexivity. }
    rewrite nth_insert_ne by exact Hx'. reflexivity.
  - intros x Hx Hx'. unfold deref. rewrite !nth_insert_ne by congruence. reflexivity.
  - unfold deref. rewrite nth_insert_eq by (rewrite length_insert; exact Hw). reflexivity.
  - unfold deref. rewrite nth_insert_ne by exact Hne.
    rewrite nth_insert_eq by exact Hb. reflexivity.
Qed.

(** X16: what the initialiser does to one module.  A normalization
    module gets gain one and offset zero, of the shapes it had; no other
    location changes and no random number is drawn.  A module of any
    other class of this file (the affine projection included, which is
    not an [nn.Linear]) is left as it is. *)
Theorem init_weights_per_module w :
  (forall l, ln_allocated (heap w) l ->
     exists w',
       GPT2._init_weights (LayerNorm.as_module l) w = inr (tt, w') /\
       length (heap w') = length (heap w) /\
       rng w' = rng w /\ draws w' = draws w /\
       (forall x, x <> LayerNorm.weight l -> x <> LayerNorm.bias l ->
          deref (heap w') x = deref (heap w) x) /\
       deref (heap w') (LayerNorm.weight l)
         = Tensor (shape (deref (heap w) (LayerNorm.weight l))) (fun _ => 1%R) /\
       deref (heap w') (LayerNorm.bias l)
         = Tensor (shape (deref (heap w) (LayerNorm.bias l))) (fun _ => 0%R)) /\
  (forall c, GPT2._init_weights (Conv1D.as_module c) w = inr (tt, w)) /\
  (forall m, GPT2._init_weights (MLP.as_module m) w = inr (tt, w)) /\
  (forall a, GPT2._init_weights (Attention.as_module a) w = inr (tt, w)) /\
  (forall b, GPT2._init_weights (Block.as_module b) w = inr (tt, w)) /\
  GPT2._init_weights (Module_ ClsModuleList None None) w = inr (tt, w) /\
  GPT2._init_weights (Module_ ClsGPT2 None None) w = inr (tt, w).
Proof.
  split.
  - intros l Hl.
    destruct (init_weights_LayerNorm_post l w Hl)
      as (w' & E & Hlen & Hr & Hd & _ & Hk & Hw & Hb).
    exists w'. repeat (split; [assumption|]). exact Hb.
  - repeat split; intros; reflexivity.
Qed.

Lemma init_weights_per_module_witness :
  exists w',
    GPT2._init_weights (LayerNorm.as_module (LayerNorm.mk 0 1 1e-5%R))
      (World [zeros [2]; ones [2]] (fun _ _ => 0%R) 0) = inr (tt, w') /\
    heap w' = [ones [2]; zeros [2]] /\ draws w' = 0.
Proof.
  destruct (init_weights_per_module (World [zeros [2]; ones [2]] (fun _ _ => 0%R) 0))
    as [Hln _].
  destruct (Hln (LayerNorm.mk 0 1 1e-5%R)) as (w' & E & _).
  { repeat split; cbn; lia. }
  exists w'. split; [exact E|].
  rewrite init_weights_LayerNorm in E. injection E as <-. split; reflexivity.
Defined.

Lemma pass_post_frame m w T :
  frame m T -> pass_post m w T [].
Proof.
  intros Hm. destruct (Hm w) as (w' & E & Hl & Hs & Hk).
  exists w'. repeat (split; [assumption|]). constructor.
Qed.

Lemma pass_post_LayerNorm l w :
  ln_allocated (heap w) l ->
  pass_post (GPT2._init_weights (LayerNorm.as_module l)) w (fun x => In x (ln_locs l)) [l].
Proof.
  intros Hl.
  destruct (init_weights_LayerNorm_post l w Hl)
    as (w' & E & Hlen & _ & _ & Hs & Hk & Hw & Hb).
  destruct Hl as (Lw & Lb & _).
  exists w'. split; [exact E|]. split; [exact Hlen|]. split; [exact Hs|]. split.
  - intros x Hx. apply Hk; intros ->; apply Hx; cbn; auto.
  - constructor; [|constructor]. split; split; try lia.
    + rewrite Hw. reflexivity.
    + rewrite Hb. reflexivity.
Qed.

(** Two passes one after the other: the second must leave alone the
    normalization modules the first has reset. *)
Lemma pass_post_bind m1 m2 w T1 T2 L1 L2 :
  pass_post m1 w T1 L1 ->
  (forall w1, length (heap w1) = length (heap w) -> pass_post m2 w1 T2 L2) ->
  (forall l x, In l L1 -> In x (ln_locs l) -> ~ T2 x) ->
  pass_post (let+ _ := m1 in m2) w (fun x => T1 x \/ T2 x) (L1 ++ L2).
Proof.
  intros (w1 & E1 & Hl1 & Hs1 & Hk1 & Hr1) H2 Hsep.
  destruct (H2 w1 Hl1) as (w2 & E2 & Hl2 & Hs2 & Hk2 & Hr2).
  exists w2. unfold mbind. rewrite E1, E2. split; [reflexivity|].
  split; [congruence|]. split; [intros x; rewrite Hs2; apply Hs1|]. split.
  - intros x Hx. rewrite Hk2, Hk1; [reflexivity| |]; intros Ht; apply Hx; auto.
  - apply Forall_app. split; [|exact Hr2].
    rewrite List.Forall_forall in Hr1 |- *. intros l Hin.
    apply (ln_reset_kept (heap w1)); [apply Hr1; exact Hin|exact Hl2| |];
      apply Hk2; apply (Hsep l); try exact Hin; cbn; auto.
Qed.

Lemma pass_post_weaken m w (T T' : loc -> Prop) L :
  (forall x, T x -> T' x) -> pass_post m w T L -> pass_post m w T' L.
Proof.
  intros HT (w' & E & Hl & Hs & Hk & Hr).
  exists w'. repeat (split; [assumption|]). split; [|exact Hr].
  intros x Hx. apply Hk. intros Ht. apply Hx, HT, Ht.
Qed.

Lemma pass_post_Block b w :
  Block_allocated (length (heap w)) b ->
  pass_post (Block.apply GPT2._init_weights b) w
    (fun x => In x (Block_ln_params b)) (Block_lns b).
Proof.
  intros [Hnd Hal]. unfold Block_ln_params in Hnd, Hal.
  apply NoDup_ListNoDup in Hnd.
  apply List.NoDup_cons_iff in Hnd. destruct Hnd as [N1 Hnd].
  apply List.NoDup_cons_iff in Hnd. destruct Hnd as [N2 Hnd].
  apply List.NoDup_cons_iff in Hnd. destruct Hnd as [N3 _].
  cbn [In] in N1, N2, N3.
  apply Forall_cons in Hal. destruct Hal as [A1 Hal].
  apply Forall_cons in Hal. destruct Hal as [A2 Hal].
  apply Forall_cons in Hal. destruct Hal as [A3 Hal].
  apply Forall_cons in Hal. destruct Hal as [A4 _].
  assert (L1 : forall w0, length (heap w0) = length (heap w) ->
            ln_allocated (heap w0) (Block.ln_1 b)).
  { intros w0 E. unfold ln_allocated. rewrite E. split; [exact A1|]. split; [exact A2|].
    intros E'. apply N1. left. symmetry. exact E'. }
  assert (L2 : forall w0, length (heap w0) = length (heap w) ->
            ln_allocated (heap w0) (Block.ln_2 b)).
  { intros w0 E. unfold ln_allocated. rewrite E. split; [exact A3|]. split; [exact A4|].
    intros E'. apply N3. left. symmetry. exact E'. }
  unfold Block.apply, LayerNorm.apply.
  change (Block_lns b) with ([Block.ln_1 b] ++ [] ++ [Block.ln_2 b] ++ [] ++ []).
  set (T1 := fun x => In x (ln_locs (Block.ln_1 b))).
  set (T2 := fun x => In x (ln_locs (Block.ln_2 b))).
  set (TF := fun _ : loc => False).
  apply (pass_post_weaken _ _
           (fun x => T1 x \/ (fun x => TF x \/ (fun x => T2 x \/ (fun x => TF x \/ TF x) x) x) x)).
  { unfold T1, T2, TF, ln_locs, Block_ln_params. cbn [In]. intros x Hx. tauto. }
  apply (pass_post_bind _ _ _ T1 _ [Block.ln_1 b]).
  - apply pass_post_LayerNorm, L1. reflexivity.
  - intros w1 H1. apply (pass_post_bind _ _ _ TF _ []).
    + apply pass_post_frame, frame_apply_Attention.
    + intros w2 H2. apply (pass_post_bind _ _ _ T2 _ [Block.ln_2 b]).
      * apply pass_post_LayerNorm, L2. congruence.
      * intros w3 H3. apply (pass_post_bind _ _ _ TF TF [] []).
        -- apply pass_post_frame, frame_apply_MLP.
        -- intros w4 H4. apply pass_post_frame.
           apply (frame_init_other ClsBlock None None). reflexivity.
        -- intros l x [].
      * intros l x _ _. unfold TF. tauto.
    + intros l x [].
  - intros l x [<-|[]] Hx. unfold T2, TF, ln_locs in *. cbn [In] in *.
    intros [[]|[Hx'|[[]|[]]]].
    destruct Hx as [<-|[<-|[]]], Hx' as [Hx'|[Hx'|[]]]; intuition congruence.
Qed.

Lemma Block_lns_locs b l x :
  In l (Block_lns b) -> In x (ln_locs l) -> In x (Block_ln_params b).
Proof.
  unfold Block_lns, ln_locs, Block_ln_params. cbn [In].
  intros [<-|[<-|[]]] [<-|[<-|[]]]; tauto.
Qed.

Lemma pass_post_blocks hs : forall w,
  Forall (Block_allocated (length (heap w))) hs -> separated hs ->
  pass_post (iterM (Block.apply GPT2._init_weights) hs) w
    (fun x => exists b, In b hs /\ In x (Block_ln_params b)) (flat_map Block_lns hs).
Proof.
  induction hs as [|b hs IH]; intros w Hal Hsep; cbn [iterM flat_map].
  - exists w. split; [reflexivity|]. split; [reflexivity|]. split; [reflexivity|].
    split; [reflexivity|constructor].
  - apply Forall_cons in Hal. destruct Hal as [Hb Hal]. destruct Hsep as [Hs1 Hsep].
    apply (pass_post_weaken _ _
             (fun x => (fun x => In x (Block_ln_params b)) x
                       \/ (fun x => exists b', In b' hs /\ In x (Block_ln_params b')) x)).
    { intros x [Hx|(b' & Hb' & Hx)]; [exists b|exists b']; cbn [In]; auto. }
    apply (pass_post_bind _ _ _ _ _ (Block_lns b) (flat_map Block_lns hs)).
    + apply pass_post_Block. exact Hb.
    + intros w1 H1. apply IH; [rewrite H1; exact Hal|exact Hsep].
    + intros l x Hl Hx (b' & Hb' & Hx').
      apply (Hs1 b' x Hb'); [apply (Block_lns_locs b l x Hl Hx)|exact Hx'].
Qed.

Lemma pass_post_GPT2 g w :
  GPT2_allocated (length (heap w)) g ->
  pass_post (GPT2.apply GPT2._init_weights g) w (fun _ => True) (GPT2_lns g).
Proof.
  intros (Hal & Hsep & Hf & Hdis). unfold GPT2.apply, LayerNorm.apply, GPT2_lns.
  set (TB := fun x => exists b, In b (GPT2.h g) /\ In x (Block_ln_params b)).
  set (TL := fun x => In x (ln_locs (GPT2.ln_f g))).
  set (TF := fun _ : loc => False).
  apply (pass_post_weaken _ _
           (fun x => TB x \/ (fun x => TF x \/ (fun x => TL x \/ TF x) x) x)).
  { intros x _. exact I. }
  replace (flat_map Block_lns (GPT2.h g) ++ [GPT2.ln_f g])
    with (flat_map Block_lns (GPT2.h g) ++ [] ++ [GPT2.ln_f g] ++ []) by reflexivity.
  apply (pass_post_bind _ _ _ TB _ (flat_map Block_lns (GPT2.h g))).
  - apply pass_post_blocks; assumption.
  - intros w1 H1. apply (pass_post_bind _ _ _ TF _ []).
    + apply pass_post_frame.
      apply (frame_init_other ClsModuleList None None). reflexivity.
    + intros w2 H2. apply (pass_post_bind _ _ _ TL TF [GPT2.ln_f g] []).
      * apply pass_post_LayerNorm. unfold ln_allocated. rewrite H2, H1. exact Hf.
      * intros w3 H3. apply pass_post_frame.
        apply (frame_init_other ClsGPT2 None None). reflexivity.
      * intros l x _ _. unfold TF. tauto.
    + intros l x [].
  - intros l x Hl Hx. apply in_flat_map in Hl. destruct Hl as (b & Hb & Hl).
    pose proof (Block_lns_locs b l x Hl Hx) as Hx'.
    unfold TF, TL. intros [[]|[Hx''|[]]]. exact (Hdis b x Hb Hx' Hx'').
Qed.

Lemma separated_at {P} (blk : Block.t P) n :
  forall nb i, separated (map (fun k => Block_at blk (n + 13 * k)) (seq i nb)).
Proof.
  induction nb as [|nb IH]; intros i; cbn [seq map separated]; [exact I|].
  split; [|apply IH].
  intros b' x Hb' Hx Hx'. apply in_map_iff in Hb'. destruct Hb' as (k & <- & Hk).
  apply in_seq in Hk. unfold Block_ln_params, Block_at in Hx, Hx'.
  cbn [Block.ln_1 Block.ln_2 LayerNorm.weight LayerNorm.bias In] in Hx, Hx'. lia.
Qed.

Lemma GPT2_init_trace pre S F nb H eps w :
  0 < H -> F mod H = 0 ->
  exists g w3 w' blk,
    GPT2.init (pre ++ [S; F]) nb H eps w = inr (g, w') /\
    GPT2.apply GPT2._init_weights g w3 = inr (tt, w') /\
    let n1 := length (heap w) + 13 in
    GPT2.h g = map (fun k => Block_at blk (n1 + 13 * k)) (seq 0 nb) /\
    GPT2.ln_f g = LayerNorm.mk (n1 + 13 * nb) (n1 + 13 * nb + 1) eps /\
    length (heap w3) = n1 + 13 * nb + 2 /\
    Block_wf S F H blk /\
    (forall k j, k < nb -> j < 13 ->
       deref (heap w3) (n1 + 13 * k + j) = nth j (Block_params blk) (zeros [])) /\
    deref (heap w3) (n1 + 13 * nb) = ones [F] /\
    deref (heap w3) (n1 + 13 * nb + 1) = zeros [F].
Proof.
  intros HH Hmod. destruct (causal_mask_ok S) as (mask & Hmask).
  unfold GPT2.init.
  unfold mbind at 1. rewrite getitem_tuple_last2. cbn [lift ok].
  unfold mbind at 1. rewrite getitem_tuple_last. cbn [lift ok].
  destruct (Block_init_ok S F H eps true w mask HH Hmod Hmask)
    as (blk & vals & Ei & Eblk & Lvals & Wf & Ee1 & Ee2 & _).
  unfold mbind at 1. rewrite Ei.
  set (w1 := World (heap w ++ vals) (rng w) (draws w + 4)).
  assert (Hl1 : length (heap w1) = length (heap w) + 13).
  { unfold w1. cbn [heap]. rewrite length_app. lia. }
  assert (Hv : forall j, j < 13 ->
            deref (heap w1) (length (heap w) + j) = nth j (Block_params blk) (zeros [])).
  { intros j Hj. unfold w1. cbn [heap]. rewrite deref_app_new.
    rewrite Eblk at 1. unfold Block_params, Block.fmap, LayerNorm.fmap, Attention.fmap,
      MLP.fmap, Conv1D.fmap, Block_at.
    cbn [Block.ln_1 Block.attn Block.ln_2 Block.mlp LayerNorm.weight LayerNorm.bias
         Attention.bias Attention.c_attn Attention.c_proj Conv1D.weight Conv1D.bias
         MLP.c_fc MLP.c_proj Nat.add].
    do 13 (destruct j as [|j]; [reflexivity|]). lia. }
  destruct (mapM_deepcopy (Block_at blk (length (heap w))) nb (seq 0 nb) w1)
    as (hs & w2 & Em & Ehs & Er & Ed & Hl2 & Hold & Hnew).
  { apply length_seq. }
  { rewrite Block_params_at. apply List.Forall_forall. intros l Hin.
    apply in_map_iff in Hin. destruct Hin as (j & <- & Hj). apply in_seq in Hj. lia. }
  unfold mbind at 1. rewrite Em.
  unfold mbind at 1. rewrite LayerNorm_init_eq.
  change (default LayerNorm.default_eps (Some eps)) with eps.
  set (w3 := World (heap w2 ++ [ones [F]; zeros [F]]) (rng w2) (draws w2)).
  set (g := GPT2.mk (pre ++ [S; F]) nb hs
              (LayerNorm.mk (length (heap w2)) (length (heap w2) + 1) eps)).
  destruct (frame_apply_GPT2 g w3) as (w4 & Ea & _).
  unfold mbind at 1. rewrite Ea. cbn [mret ok].
  exists g, w3, w4, blk. split; [reflexivity|]. split; [exact Ea|]. cbv zeta.
  rewrite Hl1 in *.
  assert (Ehs' : hs = map (fun k => Block_at blk (length (heap w) + 13 + 13 * k)) (seq 0 nb)).
  { rewrite Ehs. apply map_ext. intros k. apply Block_at_at. }
  split; [exact Ehs'|].
  split; [unfold g; cbn [GPT2.ln_f]; rewrite Hl2; reflexivity|].
  split; [unfold w3; cbn [heap]; rewrite length_app; cbn [length]; lia|].
  split; [exact Wf|]. split; [|split].
  - intros k j Hk Hj. unfold w3. cbn [heap]. rewrite deref_app_old by lia.
    rewrite Hnew by assumption. rewrite Block_params_at.
    rewrite (nth_indep _ 0 (length (heap w) + 0))
      by (rewrite length_map, length_seq; exact Hj).
    rewrite (map_nth (fun j => length (heap w) + j) (seq 0 13) 0 j).
    rewrite seq_nth by assumption. apply Hv. exact Hj.
  - unfold w3. cbn [heap].
    replace (length (heap w) + 13 + 13 * nb) with (length (heap w2) + 0) by lia.
    rewrite deref_app_new. reflexivity.
  - unfold w3. cbn [heap].
    replace (length (heap w) + 13 + 13 * nb + 1) with (length (heap w2) + 1) by lia.
    rewrite deref_app_new. reflexivity.
Qed.

(** ** The stack as constructed *)

Lemma holds_shape σ l c s : holds σ l c -> shape (deref σ l) = s -> deref σ l = Tensor s (fun _ => c).
Proof. intros [_ E] Es. rewrite E, Es. reflexivity. Qed.

Lemma Block_at_allocated {P} (blk : Block.t P) m n :
  m + 13 <= n -> Block_allocated n (Block_at blk m).
Proof.
  intros Hm. unfold Block_allocated, Block_ln_params, Block_at.
  cbn [Block.ln_1 Block.ln_2 LayerNorm.weight LayerNorm.bias]. split.
  - apply NoDup_ListNoDup. repeat constructor; cbn [In]; lia.
  - repeat constructor; lia.
Qed.

Lemma GPT2_init_fresh pre S F nb H eps w :
  0 < H -> F mod H = 0 ->
  exists g w',
    GPT2.init (pre ++ [S; F]) nb H eps w = inr (g, w') /\
    let ld := GPT2.fmap (deref (heap w')) g in
    ln_plain F (GPT2.ln_f ld) /\
    forall b, In b (GPT2.h ld) -> ln_plain F (Block.ln_1 b) /\ ln_plain F (Block.ln_2 b).
Proof.
  intros HH Hmod.
  destruct (GPT2_init_trace pre S F nb H eps w HH Hmod)
    as (g & w3 & w' & blk & Ei & Ea & Hh & Hf & Hl3 & Wf & Hv & Hone & Hzero).
  cbv zeta in *. set (n1 := length (heap w) + 13) in *.
  assert (Hal : GPT2_allocated (length (heap w3)) g).
  { unfold GPT2_allocated. rewrite Hh, Hf, Hl3.
    cbn [LayerNorm.weight LayerNorm.bias]. split; [|split; [|split]].
    - apply List.Forall_forall. intros b Hb. apply in_map_iff in Hb.
      destruct Hb as (k & <- & Hk). apply in_seq in Hk.
      apply Block_at_allocated. lia.
    - apply separated_at.
    - lia.
    - intros b x Hb Hx. apply in_map_iff in Hb. destruct Hb as (k & <- & Hk).
      apply in_seq in Hk. unfold Block_ln_params, Block_at, ln_locs in *.
      cbn [Block.ln_1 Block.ln_2 LayerNorm.weight LayerNorm.bias In] in *. lia. }
  destruct (pass_post_GPT2 g w3 Hal) as (w'' & Ea' & Hlen & Hs & _ & Hr).
  rewrite Ea in Ea'. injection Ea' as <-.
  rewrite List.Forall_forall in Hr.
  destruct Wf as ((S1w & S1b) & _ & (S2w & S2b) & _).
  exists g, w'. split; [exact Ei|]. cbv zeta. split.
  - destruct (Hr (GPT2.ln_f g)) as [Hw Hb].
    { unfold GPT2_lns. apply in_or_app. right. left. reflexivity. }
    rewrite Hf in Hw, Hb. cbn [LayerNorm.weight LayerNorm.bias] in Hw, Hb.
    unfold ln_plain. cbn [GPT2.fmap GPT2.ln_f LayerNorm.fmap LayerNorm.weight LayerNorm.bias].
    rewrite Hf. cbn [LayerNorm.weight LayerNorm.bias]. split.
    + apply (holds_shape _ _ _ _ Hw). rewrite Hs, Hone. reflexivity.
    + apply (holds_shape _ _ _ _ Hb). rewrite Hs, Hzero. reflexivity.
  - intros b Hb. cbn [GPT2.fmap GPT2.h] in Hb. apply in_map_iff in Hb.
    destruct Hb as (b0 & <- & Hb0).
    assert (Hin : forall l, In l (Block_lns b0) -> In l (GPT2_lns g)).
    { intros l Hl. unfold GPT2_lns. apply in_or_app. left.
      apply in_flat_map. exists b0. split; assumption. }
    destruct (Hr (Block.ln_1 b0) (Hin _ (or_introl eq_refl))) as [H1w H1b].
    destruct (Hr (Block.ln_2 b0) (Hin _ (or_intror (or_introl eq_refl)))) as [H2w H2b].
    rewrite Hh in Hb0. apply in_map_iff in Hb0. destruct Hb0 as (k & <- & Hk).
    apply in_seq in Hk.
    unfold Block_at in H1w, H1b, H2w, H2b |- *.
    cbn [Block.ln_1 Block.ln_2 LayerNorm.weight LayerNorm.bias] in H1w, H1b, H2w, H2b.
    unfold ln_plain.
    cbn [Block.fmap Block.ln_1 Block.ln_2 LayerNorm.fmap LayerNorm.weight LayerNorm.bias].
    pose proof (Hv k 0 ltac:(lia) ltac:(lia)) as V0. rewrite Nat.add_0_r in V0.
    pose proof (Hv k 1 ltac:(lia) ltac:(lia)) as V1.
    pose proof (Hv k 7 ltac:(lia) ltac:(lia)) as V7.
    pose proof (Hv k 8 ltac:(lia) ltac:(lia)) as V8.
    cbn [Block_params nth] in V0, V1, V7, V8.
    repeat split.
    + apply (holds_shape _ _ _ _ H1w). rewrite Hs, V0. exact S1w.
    + apply (holds_shape _ _ _ _ H1b). rewrite Hs, V1. exact S1b.
    + apply (holds_shape _ _ _ _ H2w). rewrite Hs, V7. exact S2w.
    + apply (holds_shape _ _ _ _ H2b). rewrite Hs, V8. exact S2b.
Qed.

(** X17: as constructed, every normalization of the stack, the two of
    each block and the final one, has gain one and offset zero over the
    feature axis, the last axis of the input shape. *)
Theorem constructed_normalizations_are_plain s nb H eps w g w' :
  GPT2.init s nb H eps w = inr (g, w') ->
  exists pre S F, s = pre ++ [S; F] /\
    let ld := GPT2.fmap (deref (heap w')) g in
    ln_plain F (GPT2.ln_f ld) /\
    forall b, In b (GPT2.h ld) -> ln_plain F (Block.ln_1 b) /\ ln_plain F (Block.ln_2 b).
Proof.
  intros E. destruct (GPT2_init_inv _ _ _ _ _ _ _ E) as (pre & S & F & -> & HH & Hmod).
  destruct (GPT2_init_fresh pre S F nb H eps w HH Hmod) as (g0 & w0 & E0 & Hplain).
  rewrite E0 in E. injection E as <- <-.
  exists pre, S, F. split; [reflexivity|]. exact Hplain.
Qed.

Lemma constructed_normalizations_are_plain_witness :
  exists g w',
    GPT2.init [3; 4] 2 2 1e-5%R world0 = inr (g, w') /\
    exists pre S F, [3; 4] = pre ++ [S; F] /\
      let ld := GPT2.fmap (deref (heap w')) g in
      ln_plain F (GPT2.ln_f ld) /\
      forall b, In b (GPT2.h ld) -> ln_plain F (Block.ln_1 b) /\ ln_plain F (Block.ln_2 b).
Proof.
  destruct (GPT2_init_ok [] 3 4 2 2 1e-5%R world0 ltac:(lia) eq_refl)
    as (g & w' & blk & Ei & _).
  exists g, w'. split; [exact Ei|].
  exact (constructed_normalizations_are_plain [3; 4] 2 2 1e-5%R world0 g w' Ei).
Defined.




(** ** Sequences of a batch *)

Lemma attention_same_sequence a x x' F S H B T b :
  Attention_wf F S H a -> 0 < F ->
  shape x = [B; T; F] -> shape x' = [B; T; F] -> T <= S -> b < B ->
  same_sequence b T F x x' ->
  exists out p out' p',
    Attention.forward a x None = ok (out, p) /\
    Attention.forward a x' None = ok (out', p') /\
    same_sequence b T F out out'.
Proof.
  intros Wf HF Sx Sx' HS Hb Hag.
  pose proof Wf as (EH & _ & HH & Hmod & Hm & _).
  set (D := F / H) in *.
  assert (EF : F = H * D) by (unfold D; pose proof (Nat.div_mod_eq F H); lia).
  destruct (Attention_forward_spec a x None F S H B T 0 Wf HF Sx eq_refl ltac:(lia))
    as (q & k & v & p & w & out & Eq & Ew & _ & Ef & _ & _ & Hout).
  destruct (qkv_spec a x None F S H B T 0 Wf HF Sx eq_refl)
    as (q0 & k0 & v0 & p0 & Eq0 & Sq & Sk & Sv & _ & Hq & Hkv & _).
  rewrite Eq in Eq0. injection Eq0 as <- <- <- <-.
  destruct (Attention_forward_spec a x' None F S H B T 0 Wf HF Sx' eq_refl ltac:(lia))
    as (q' & k' & v' & p' & w' & out' & Eq' & Ew' & _ & Ef' & _ & _ & Hout').
  destruct (qkv_spec a x' None F S H B T 0 Wf HF Sx' eq_refl)
    as (q0 & k0 & v0 & p0 & Eq0 & Sq' & Sk' & Sv' & _ & Hq' & Hkv' & _).
  rewrite Eq' in Eq0. injection Eq0 as <- <- <- <-.
  change (0 + T) with T in *.
  destruct (masked_scores_spec a S q k v B H D T T Hm Sq Sk Sv (le_n _) HS)
    as (mb & w0 & Emb & _ & _ & Ew0 & _ & Hw).
  rewrite Ew in Ew0. injection Ew0 as <-.
  destruct (masked_scores_spec a S q' k' v' B H D T T Hm Sq' Sk' Sv' (le_n _) HS)
    as (mb' & w0 & Emb' & _ & _ & Ew0 & _ & Hw').
  rewrite Ew' in Ew0. injection Ew0 as <-.
  rewrite Emb in Emb'. injection Emb' as <-.
  assert (Hproj : forall t j, t < T -> proj a F x b t j = proj a F x' b t j).
  { intros t j Ht. apply proj_row. intros f Hf. apply Hag; assumption. }
  assert (Hkey : forall h d j, h < H -> d < D -> j < T ->
            elem k [b; h; d; j] = elem k' [b; h; d; j] /\
            elem v [b; h; j; d] = elem v' [b; h; j; d]).
  { intros h d j Hh Hd Hj.
    destruct (Hkv b h d j Hb Hh Hd Hj) as [-> ->].
    destruct (Hkv' b h d j Hb Hh Hd Hj) as [-> ->].
    change (j <? 0) with false. cbv iota. rewrite Nat.sub_0_r.
    split; apply Hproj; exact Hj. }
  assert (Hscores : forall h t j, h < H -> t < T -> j < T ->
            elem w [b; h; t; j] = elem w' [b; h; t; j]).
  { intros h t j Hh Ht Hj. cbv zeta in Hw, Hw'.
    rewrite Hw, Hw' by assumption. do 2 f_equal. unfold score.
    assert (Es : sum_n D (fun d => (elem q [b; h; t; d] * elem k [b; h; d; j])%R)
               = sum_n D (fun d => (elem q' [b; h; t; d] * elem k' [b; h; d; j])%R)).
    { apply sum_n_ext. intros d Hd.
      rewrite Hq, Hq' by assumption. rewrite (Hproj t _ Ht).
      destruct (Hkey h d j Hh Hd Hj) as [-> _]. reflexivity. }
    rewrite Es. reflexivity. }
  exists out, p, out', p'. split; [exact Ef|]. split; [exact Ef'|].
  intros t f Ht Hf. rewrite Hout, Hout' by assumption.
  apply affine_ext. intros c Hc. unfold attended. fold D. cbv zeta.
  assert (HD : 0 < D) by nia.
  assert (Hh : c / D < H) by (apply Nat.Div0.div_lt_upper_bound; nia).
  assert (Hd : c mod D < D) by (apply Nat.mod_upper_bound; lia).
  apply sum_n_ext. intros j Hj.
  destruct (Hkey (c / D) (c mod D) j Hh Hd Hj) as [_ ->].
  f_equal. unfold weights. apply softmax_row_ext; [|assumption].
  intros j0 Hj0. apply Hscores; assumption.
Qed.

Lemma block_same_sequence blk x x' S F H B T b :
  Block_wf S F H blk -> 0 < F ->
  shape x = [B; T; F] -> shape x' = [B; T; F] -> T <= S -> b < B ->
  same_sequence b T F x x' ->
  exists out p out' p',
    Block.forward blk x None = ok (out, p) /\
    Block.forward blk x' None = ok (out', p') /\
    shape out = [B; T; F] /\ shape out' = [B; T; F] /\
    same_sequence b T F out out'.
Proof.
  intros Wf HF Sx Sx' HS Hb Hag.
  pose proof Wf as (_ & Wa & _ & _).
  destruct (Block_forward_rows blk x None S F H B T 0 Wf HF Sx eq_refl ltac:(lia))
    as (n1 & a & p & out & _ & S1 & H1 & Ea & Ef & So & _ & Hout).
  destruct (Block_forward_rows blk x' None S F H B T 0 Wf HF Sx' eq_refl ltac:(lia))
    as (n1' & a' & p' & out' & _ & S1' & H1' & Ea' & Ef' & So' & _ & Hout').
  assert (Hn : same_sequence b T F n1 n1').
  { intros t f Ht Hf. rewrite H1, H1' by assumption.
    apply layer_norm_row_ext; [|assumption]. intros i Hi. apply Hag; assumption. }
  destruct (attention_same_sequence (Block.attn blk) n1 n1' F S H B T b Wa HF S1 S1' HS Hb Hn)
    as (a0 & p0 & a0' & p0' & Ea0 & Ea0' & Ha).
  rewrite Ea in Ea0. injection Ea0 as <- <-.
  rewrite Ea' in Ea0'. injection Ea0' as <- <-.
  exists out, p, out', p'. repeat (split; [assumption|]).
  intros t f Ht Hf. rewrite Hout, Hout' by assumption.
  apply block_rest_ext; [|assumption].
  intros i Hi. rewrite (Hag t i Ht Hi), (Ha t i Ht Hi). reflexivity.
Qed.

Lemma threaded_same_sequence S F H B T b ints blocks : forall i x x',
  Forall (Block_wf S F H) blocks -> 0 < F ->
  shape x = [B; T; F] -> shape x' = [B; T; F] -> T <= S -> b < B ->
  (forall k, i <= k < i + length blocks -> ints !! k = Some None) ->
  same_sequence b T F x x' ->
  exists y ps y' ps',
    threaded ints i blocks x y ps /\ threaded ints i blocks x' y' ps' /\
    shape y = [B; T; F] /\ shape y' = [B; T; F] /\
    same_sequence b T F y y'.
Proof.
  induction blocks as [|blk blocks IH]; intros i x x' Hwf HF Sx Sx' HS Hb Hc Hag.
  - exists x, [], x', []. repeat split; try constructor; assumption.
  - apply Forall_cons in Hwf. destruct Hwf as [Wb Hwf].
    destruct (block_same_sequence blk x x' S F H B T b Wb HF Sx Sx' HS Hb Hag)
      as (o & p & o' & p' & Eo & Eo' & So & So' & Ho).
    destruct (IH (Datatypes.S i) o o' Hwf HF So So' HS Hb) as (y & ps & y' & ps' & Ht & Ht' & Hrest).
    { intros k Hk. apply Hc. cbn [length]. lia. }
    { exact Ho. }
    exists y, (p :: ps), y', (p' :: ps').
    split; [econstructor; [apply Hc; cbn [length]; lia|exact Eo|exact Ht]|].
    split; [econstructor; [apply Hc; cbn [length]; lia|exact Eo'|exact Ht']|].
    exact Hrest.
Qed.

(** X19: the sequences of a batch do not mix.  Two batches of the same
    shape that hold the same sequence at one index give, from fresh
    internals, the same output at that index, whatever the other
    sequences are. *)
Theorem stack_keeps_sequences_apart g x x' S F H B T b :
  GPT2_wf S F H g -> 0 < F ->
  shape x = [B; T; F] -> shape x' = [B; T; F] -> T <= S -> b < B ->
  same_sequence b T F x x' ->
  exists y m y' m',
    GPT2._forward g x (GPT2._new_internals g) = ok (y, m) /\
    GPT2._forward g x' (GPT2._new_internals g) = ok (y', m') /\
    same_sequence b T F y y'.
Proof.
  intros (Hlen & Wb & Wl) HF Sx Sx' HS Hb Hag.
  destruct (threaded_same_sequence S F H B T b (GPT2._new_internals g) (GPT2.h g) 0 x x'
              Wb HF Sx Sx' HS Hb) as (xN & ps & xN' & ps' & Ht & Ht' & SN & SN' & HN).
  { intros k Hk. rewrite new_internals_lookup.
    destruct (Nat.ltb_spec k (GPT2.nb_layer g)); [reflexivity|lia]. }
  { exact Hag. }
  destruct (LayerNorm_forward_spec _ xN [B; T] F Wl SN) as (y & Ey & _ & Hy).
  destruct (LayerNorm_forward_spec _ xN' [B; T] F Wl SN') as (y' & Ey' & _ & Hy').
  assert (Hfw : forall z zN zs zy,
            threaded (GPT2._new_internals g) 0 (GPT2.h g) z zN zs ->
            LayerNorm.forward (GPT2.ln_f g) zN = ok zy ->
            GPT2._forward g z (GPT2._new_internals g) = ok (zy, map_seq 0 (Some <$> zs))).
  { intros z zN zs zy Hz Ez. unfold GPT2._forward. rewrite <- Hlen.
    pose proof (layers_threaded g _ [] (GPT2.h g) z zN zs [] eq_refl Hz) as El.
    change (length (@nil (Block.t tensor))) with 0 in El. rewrite El.
    rsimpl. cbn [app]. rewrite Ez. reflexivity. }
  exists y, (map_seq 0 (Some <$> ps)), y', (map_seq 0 (Some <$> ps')).
  split; [exact (Hfw x xN ps y Ht Ey)|]. split; [exact (Hfw x' xN' ps' y' Ht' Ey')|].
  intros t f Ht0 Hf.
  assert (Hbt : valid_idx [B; T] [b; t]) by (repeat constructor; assumption).
  pose proof (Hy [b; t] f Hbt Hf) as E. pose proof (Hy' [b; t] f Hbt Hf) as E'.
  cbn [app] in E, E'. rewrite E, E'.
  apply layer_norm_row_ext; [|assumption]. intros i Hi. apply HN; assumption.
Qed.

Lemma stack_keeps_sequences_apart_witness :
  exists y m y' m',
    GPT2._forward ex_gpt2 (ex_batch 1) (GPT2._new_internals ex_gpt2) = ok (y, m) /\
    GPT2._forward ex_gpt2 (ex_batch 5) (GPT2._new_internals ex_gpt2) = ok (y', m') /\
    same_sequence 0 2 2 y y'.
Proof.
  apply (stack_keeps_sequences_apart ex_gpt2 (ex_batch 1) (ex_batch 5) 2 2 1 2 2 0);
    [exact ex_gpt2_wf|lia|reflexivity|reflexivity|lia|lia|].
  intros t f Ht Hf. reflexivity.
Defined.

(** X20: as constructed, the blocks of the stack are equal: each holds
    the same mask, the same normalization parameters and the same
    projection parameters as any other, so the stack applies one and the
    same block function layer after layer. *)
Theorem constructed_blocks_are_equal pre S F nb H eps w :
  0 < H -> F mod H = 0 ->
  exists g w',
    GPT2.init (pre ++ [S; F]) nb H eps w = inr (g, w') /\
    length (GPT2.h g) = nb /\
    forall bi bj,
      In bi (GPT2.h (GPT2.fmap (deref (heap w')) g)) ->
      In bj (GPT2.h (GPT2.fmap (deref (heap w')) g)) ->
      bi = bj /\ forall x past, Block.forward bi x past = Block.forward bj x past.
Proof.
  intros HH Hmod.
  destruct (GPT2_init_ok pre S F nb H eps w HH Hmod)
    as (g & w' & blk & Ei & Hh & _ & _ & _ & _ & _ & _ & Hkeep & _).
  destruct (GPT2_init_fresh pre S F nb H eps w HH Hmod) as (g0 & w0 & Ei0 & _ & Hplain).
  rewrite Ei in Ei0. injection Ei0 as <- <-. cbv zeta in Hh, Hkeep, Hplain.
  exists g, w'. split; [exact Ei|].
  split; [rewrite Hh, length_map, length_seq; reflexivity|].
  set (canon := Block.mk
                  (LayerNorm.mk (ones [F]) (zeros [F])
                     (LayerNorm.variance_epsilon (Block.ln_1 blk)))
                  (Attention.fmap (fun t : tensor => t) (Block.attn blk))
                  (LayerNorm.mk (ones [F]) (zeros [F])
                     (LayerNorm.variance_epsilon (Block.ln_2 blk)))
                  (MLP.fmap (fun t : tensor => t) (Block.mlp blk))).
  assert (Hc : forall b, In b (GPT2.h (GPT2.fmap (deref (heap w')) g)) -> b = canon).
  { intros b Hb. destruct (Hplain b Hb) as [[E1w E1b] [E2w E2b]].
    cbn [GPT2.fmap GPT2.h] in Hb. apply in_map_iff in Hb. destruct Hb as (b0 & <- & Hb0).
    rewrite Hh in Hb0. apply in_map_iff in Hb0. destruct Hb0 as (k & <- & Hk).
    apply in_seq in Hk.
    assert (K : forall j, kept_offset j ->
              deref (heap w') (length (heap w) + 13 + 13 * k + j)
              = nth j (Block_params blk) (zeros [])).
    { intros j Hj. apply Hkeep; [lia|exact Hj]. }
    unfold Block_at, Block.fmap, LayerNorm.fmap, Attention.fmap, MLP.fmap, Conv1D.fmap
      in E1w, E1b, E2w, E2b |- *.
    cbn [Block.ln_1 Block.attn Block.ln_2 Block.mlp LayerNorm.weight LayerNorm.bias
         LayerNorm.variance_epsilon Attention.bias Attention.n_head Attention.split_size
         Attention.scale Attention.c_attn Attention.c_proj Conv1D.nf Conv1D.weight
         Conv1D.bias MLP.c_fc MLP.c_proj] in E1w, E1b, E2w, E2b |- *.
    rewrite E1w, E1b, E2w, E2b.
    rewrite (K 2), (K 3), (K 4), (K 5), (K 6), (K 9), (K 10), (K 11), (K 12)
      by (unfold kept_offset; lia).
    reflexivity. }
  intros bi bj Hi Hj. rewrite (Hc bi Hi), (Hc bj Hj). split; reflexivity.
Qed.

Lemma constructed_blocks_are_equal_witness :
  exists g w',
    GPT2.init ([] ++ [3; 4]) 2 2 1e-5%R world0 = inr (g, w') /\
    length (GPT2.h g) = 2 /\
    forall bi bj,
      In bi (GPT2.h (GPT2.fmap (deref (heap w')) g)) ->
      In bj (GPT2.h (GPT2.fmap (deref (heap w')) g)) ->
      bi = bj /\ forall x past, Block.forward bi x past = Block.forward bj x past.
Proof.
  apply (constructed_blocks_are_equal [] 3 4 2 2 1e-5%R world0); [lia|reflexivity].
Defined.
